(** * The chess rules engine of chess.c, embedded in Rocq

    The engine keeps one global [struct chess_game game] together with the
    colour letters [player] and [cpu].  Every function of the engine is
    embedded below as a function on an explicit [world] holding these
    globals.

    Conventions of the embedding.
    - C [int] values are [Z]; all values handled by the engine are board
      coordinates, piece codes in -6..6 and the turn, so no signed
      arithmetic wraps.  The one [unsigned int] of the engine (the
      promotion draw of [cpu_legal_move]) has its 32-bit wrap-around
      written out.
    - A computation returns [option]: [None] stands for undefined
      behaviour of the C program (an access to [board[r][c]] with [r] or
      [c] outside 0..7, or a read of a local variable that no branch has
      assigned).
    - [get_random_bytes] is an oracle: the drawn value is an explicit
      argument of the function that draws it.
    - [printk] logging is not part of the embedding.
    - The driver, [dev_read] and [dev_write], is embedded on a [driver]
      record that adds the text of [message] and [size] to the globals of
      the engine.  What a call takes from outside the module is an
      explicit argument, as the draws are: the text [sscanf] leaves in its
      buffers, whether [copy_from_user] and [copy_to_user] succeed, and
      whether [char] is unsigned.  [size_t] and [loff_t] are 64 bits
      wide. *)

From Stdlib Require Import ZArith Ascii String Lia Bool.
From stdpp Require Import base list.

Local Open Scope Z_scope.

(** ** Constants: [#define]s and [enum pieces] *)

Definition BOARD_SIZE : Z := 8.
Definition EMPTY : Z := 0.
Definition PAWN : Z := 1.
Definition KNIGHT : Z := 2.
Definition BISHOP : Z := 3.
Definition ROOK : Z := 4.
Definition QUEEN : Z := 5.
Definition KING : Z := 6.

(** ** Undefined behaviour as [option] *)

Definition obind {A B : Type} (m : option A) (k : A -> option B) : option B :=
  match m with
  | Some a => k a
  | None => None
  end.

Notation "'do' x <- e ;; k" := (obind e (fun x => k))
  (at level 10, x name, e at level 99, k at level 200).
Notation "'do' ' p <- e ;; k" := (obind e (fun x => match x with p => k end))
  (at level 10, p pattern, e at level 99, k at level 200).

(** ** The data model *)

(** [int board[8][8]] in row-major order, the two [int[2]] king caches as
    pairs ([fst] is element 0, [snd] is element 1). *)
Record chess_game : Type := mk_game {
  board : list Z;
  white_king : Z * Z;
  black_king : Z * Z;
  current_turn : Z;
  check : bool
}.

(** The globals of the module that the engine reads or writes:
    [game], [player[0]], [cpu[0]], [game_init] and [checkmate]. *)
Record world : Type := mk_world {
  game : chess_game;
  player : ascii;
  cpu : ascii;
  game_init : bool;
  checkmate : bool
}.

Definition with_game (w : world) (g : chess_game) : world :=
  mk_world g (player w) (cpu w) (game_init w) (checkmate w).

Definition with_board (g : chess_game) (b : list Z) : chess_game :=
  mk_game b (white_king g) (black_king g) (current_turn g) (check g).

(** A [struct chess_game *] argument either points at the global [game]
    or at a copy held by the caller (the [temp] of [dev_write]). *)
Inductive game_ptr : Type :=
  | Live
  | Copy (g : chess_game).

Definition deref (p : game_ptr) (w : world) : chess_game :=
  match p with
  | Live => game w
  | Copy g => g
  end.

Definition in_board (r c : Z) : bool :=
  (0 <=? r) && (r <? BOARD_SIZE) && (0 <=? c) && (c <? BOARD_SIZE).

Definition offset (r c : Z) : nat := Z.to_nat (BOARD_SIZE * r + c).

(** [b[r][c]] as an rvalue. *)
Definition cell (b : list Z) (r c : Z) : option Z :=
  if in_board r c then b !! offset r c else None.

(** [b[r][c] = v]. *)
Definition set_cell (b : list Z) (r c v : Z) : option (list Z) :=
  if in_board r c then
    if (offset r c <? length b)%nat then Some (<[offset r c := v]> b) else None
  else None.

Definition board_wf (b : list Z) : Prop := length b = 64%nat.

(** A directive buffer ([char arr[4]], zero-initialised and filled by
    [sscanf] with at most three characters): reading past the text gives
    the terminating NUL. *)
Definition char_at (s : string) (k : nat) : ascii :=
  match String.get k s with
  | Some c => c
  | None => Ascii.zero
  end.

(** [&arr[k]] *)
Fixpoint str_from (k : nat) (s : string) : string :=
  match k, s with
  | O, _ => s
  | S k', String _ s' => str_from k' s'
  | S _, EmptyString => EmptyString
  end.

Definition is_char (c d : ascii) : bool := Ascii.eqb c d.

(** ** board_init *)

Definition initial_board : list Z :=
  [ ROOK; KNIGHT; BISHOP; QUEEN; KING; BISHOP; KNIGHT; ROOK;
    PAWN; PAWN; PAWN; PAWN; PAWN; PAWN; PAWN; PAWN;
    0; 0; 0; 0; 0; 0; 0; 0;
    0; 0; 0; 0; 0; 0; 0; 0;
    0; 0; 0; 0; 0; 0; 0; 0;
    0; 0; 0; 0; 0; 0; 0; 0;
    -PAWN; -PAWN; -PAWN; -PAWN; -PAWN; -PAWN; -PAWN; -PAWN;
    -ROOK; -KNIGHT; -BISHOP; -QUEEN; -KING; -BISHOP; -KNIGHT; -ROOK ].

Definition board_init (w : world) : world :=
  mk_world (mk_game initial_board (4, 0) (4, 7) 1 false)
           (player w) (cpu w) true false.

(** ** clear_path *)

(** The three walking loops of [clear_path] have one shape: while the
    loop condition [cont] holds, a non-empty square ends the call, with
    [true] only on the destination under the capture directive; leaving
    the loop reaches the final [return true].  An iteration that does not
    return has read one more square of a line of the board, and a line
    has at most eight: nine iterations always suffice
    ([nine_iterations_suffice]). *)
Fixpoint path_loop (fuel : nat) (b : list Z) (cont at_end : Z -> Z -> bool)
    (x : bool) (di dj i j : Z) : option bool :=
  match fuel with
  | O => None
  | S fuel' =>
      if cont i j then
        do v <- cell b i j ;;
        if negb (v =? EMPTY) then Some (if at_end i j then x else false)
        else path_loop fuel' b cont at_end x di dj (i + di) (j + dj)
      else Some true
  end.

(** The rule for the destination of a one-square move. *)
Definition dest_rule (b : list Z) (er ec : Z) (x : bool) : option bool :=
  do v <- cell b er ec ;;
  Some (negb (negb (v =? EMPTY) && negb x)).

Definition clear_path (w : world) (start_row start_col end_row end_col : Z)
    (arr : string) : option bool :=
  let b := board (game w) in
  let row_direction := if 0 <? end_row - start_row then 1 else -1 in
  let col_direction := if 0 <? end_col - start_col then 1 else -1 in
  let x := is_char (char_at arr 0) "x" in
  if negb (start_row =? end_row) && negb (start_col =? end_col) then
    if (Z.abs (end_row - start_row) =? 1) && (Z.abs (end_col - start_col) =? 1)
    then dest_rule b end_row end_col x
    else
      path_loop 9 b
        (fun i j =>
           (if 0 <? row_direction then i <=? end_row else end_row <=? i)
           && (if 0 <? col_direction then j <=? end_col else end_col <=? j))
        (fun i j => (i =? end_row) && (j =? end_col))
        x row_direction col_direction
        (start_row + row_direction) (start_col + col_direction)
  else if negb (start_row =? end_row) then
    if Z.abs (end_row - start_row) =? 1
    then dest_rule b end_row end_col x
    else if (1 <? end_row - start_row) || (end_row - start_row <? -1) then
      path_loop 9 b
        (fun i _ => if row_direction =? 1 then i <=? end_row else end_row <=? i)
        (fun i _ => i =? end_row)
        x row_direction 0 (start_row + row_direction) start_col
    else Some true
  else if negb (start_col =? end_col) then
    if Z.abs (end_col - start_col) =? 1
    then dest_rule b end_row end_col x
    else if (1 <? end_col - start_col) || (end_col - start_col <? -1) then
      path_loop 9 b
        (fun _ j => if col_direction =? 1 then j <=? end_col else end_col <=? j)
        (fun _ j => j =? end_col)
        x 0 col_direction start_row (start_col + col_direction)
    else Some true
  else Some true.

(** ** valid_opponent_piece *)

(** The [switch] on the kind letter: the factor applied to [match], or
    [None] for the [default] branch. *)
Definition kind_factor (c : ascii) : option Z :=
  if is_char c "P" then Some 1
  else if is_char c "N" then Some 2
  else if is_char c "B" then Some 3
  else if is_char c "R" then Some 4
  else if is_char c "Q" then Some 5
  else if is_char c "K" then Some 6
  else None.

(** [array] is the piece spec of a capture directive ([&arr[1]]); the
    [size] argument of the C function is never read.  [match] is assigned
    only for the letters W and B, and read by every [case] of the
    [switch]. *)
Definition valid_opponent_piece (w : world) (row col piece : Z)
    (array : string) : option bool :=
  if (row <? 0) || (BOARD_SIZE <=? row) || (col <? 0) || (BOARD_SIZE <=? col)
  then Some false
  else
    do opponent <- cell (board (game w)) row col ;;
    let match_init : option Z :=
      if is_char (char_at array 0) "W" then Some 1
      else if is_char (char_at array 0) "B" then Some (-1)
      else None in
    match kind_factor (char_at array 1) with
    | None => Some false
    | Some k =>
        do m <- match_init ;;
        let match_ := m * k in
        if opponent =? EMPTY then Some false
        else if (((0 <? piece) && (opponent <? 0))
                 || ((piece <? 0) && (0 <? opponent)))
                && (opponent =? match_)
        then Some true
        else Some false
    end.

(** ** king_check *)

Definition directions : list (Z * Z) :=
  [ (1, 0); (-1, 0); (0, 1); (0, -1); (1, 1); (-1, -1); (1, -1); (-1, 1) ].

Definition knight_directions : list (Z * Z) :=
  [ (2, 1); (2, -1); (-2, 1); (-2, -1); (1, 2); (1, -2); (-1, 2); (-1, -2) ].

(** The nested [direction_x], [direction_y] loops of the king scan. *)
Definition king_directions : list (Z * Z) :=
  [ (-1, -1); (-1, 0); (-1, 1);
    (0, -1); (0, 0); (0, 1);
    (1, -1); (1, 0); (1, 1) ].

(** A [for] loop whose body may [return true]. *)
Fixpoint first_hit {A : Type} (body : A -> option bool) (l : list A)
    : option bool :=
  match l with
  | [] => Some false
  | a :: l' =>
      do r <- body a ;;
      if r then Some true else first_hit body l'
  end.

(** Short-circuit [&&] and [||] over operands that may read the board. *)
Definition and_then (a : bool) (b : option bool) : option bool :=
  if a then b else Some false.

Definition or_else (a b : option bool) : option bool :=
  do r <- a ;;
  if r then Some true else b.

(** The [while] loop along one ray: [Some true] is the [return true],
    [Some false] is reached by [break] or by leaving the board.  Nine
    iterations suffice ([nine_iterations_suffice]). *)
Fixpoint ray_walk (fuel : nat) (b : list Z) (color : ascii)
    (direction_x direction_y x y : Z) : option bool :=
  match fuel with
  | O => None
  | S fuel' =>
      if (0 <=? x) && (x <? BOARD_SIZE) && (0 <=? y) && (y <? BOARD_SIZE) then
        do v <- cell b x y ;;
        if negb (v =? EMPTY) then
          if (is_char color "W" && (v <? 0)) || (is_char color "B" && (0 <? v))
          then
            Some ((Z.abs v =? QUEEN)
                  || ((Z.abs v =? ROOK)
                      && ((direction_x =? 0) || (direction_y =? 0)))
                  || ((Z.abs v =? BISHOP)
                      && negb (direction_x =? 0) && negb (direction_y =? 0)))
          else Some false
        else ray_walk fuel' b color direction_x direction_y
               (x + direction_x) (y + direction_y)
      else Some false
  end.

(** The test of one square for a given enemy piece code, as in the knight
    and king loops. *)
Definition holds_enemy (b : list Z) (color : ascii) (kind x y : Z)
    : option bool :=
  if (0 <=? x) && (x <? BOARD_SIZE) && (0 <=? y) && (y <? BOARD_SIZE) then
    or_else
      (and_then (is_char color "W") (do v <- cell b x y ;; Some (v =? - kind)))
      (and_then (is_char color "B") (do v <- cell b x y ;; Some (v =? kind)))
  else Some false.

(** One of the two pawn tests; [guard] is the column bound that the source
    applies to the White disjunct only. *)
Definition pawn_test (b : list Z) (color : ascii) (guard : bool)
    (pawn_row col : Z) : option bool :=
  or_else
    (and_then guard
       (and_then (is_char color "W")
          (do v <- cell b pawn_row col ;; Some (v =? - PAWN))))
    (and_then (is_char color "B")
       (do v <- cell b pawn_row col ;; Some (v =? PAWN))).

(** [w] supplies the global [player]; [g] is what the pointer argument
    points at.  [king_row] and [king_col] are parameters of the C function
    as well; its body never mentions them. *)
Definition king_check (w : world) (g : chess_game) (king_row king_col : Z)
    (color : ascii) : option bool :=
  let b := board g in
  let king_position :=
    if is_char color "W" then (snd (white_king g), fst (white_king g))
    else (snd (black_king g), fst (black_king g)) in
  let kp0 := fst king_position in
  let kp1 := snd king_position in
  do r <- first_hit
            (fun d => ray_walk 9 b color (fst d) (snd d)
                        (kp0 + fst d) (kp1 + snd d))
            directions ;;
  if r then Some true else
  do r <- first_hit
            (fun d => holds_enemy b color KNIGHT (kp0 + fst d) (kp1 + snd d))
            knight_directions ;;
  if r then Some true else
  do pawn_direction <-
       (if is_char (player w) "W" then Some (-1)
        else if is_char (player w) "B" then Some 1
        else None) ;;
  let pawn_row := kp0 + pawn_direction in
  do r <- (if (0 <=? pawn_row) && (pawn_row <? BOARD_SIZE) then
             or_else
               (pawn_test b color (0 <? kp1) pawn_row (kp1 - 1))
               (pawn_test b color (kp1 <? BOARD_SIZE - 1) pawn_row (kp1 + 1))
           else Some false) ;;
  if r then Some true else
  first_hit
    (fun d => holds_enemy b color KING (kp0 + fst d) (kp1 + snd d))
    king_directions.

(** ** The self-check block

    [legal_move] and [cpu_legal_move] repeat one block in every branch:
    apply the move on the global board, ask [king_check] about the mover
    ([player[0]], respectively [cpu[0]]), put the two squares back.  The
    block is embedded once, with the mover's letter [side] as argument. *)

Definition own_king_attacked (w : world) (side : ascii)
    (piece end_row end_col : Z) : option bool :=
  if piece =? KING then king_check w (game w) end_row end_col side
  else
    do ' (king_row, king_col) <-
         (if is_char side "W" then Some (white_king (game w))
          else if is_char side "B" then Some (black_king (game w))
          else None) ;;
    king_check w (game w) king_row king_col side.

Definition self_check (side : ascii)
    (start_row start_col end_row end_col piece : Z) (w : world)
    : option (bool * world) :=
  let g := game w in
  do temp_piece <- cell (board g) end_row end_col ;;
  do moved <- cell (board g) start_row start_col ;;
  do b1 <- set_cell (board g) end_row end_col moved ;;
  do b2 <- set_cell b1 start_row start_col EMPTY ;;
  do inCheck <- own_king_attacked (with_game w (with_board g b2)) side
                  piece end_row end_col ;;
  do back <- cell b2 end_row end_col ;;
  do b3 <- set_cell b2 start_row start_col back ;;
  do b4 <- set_cell b3 end_row end_col temp_piece ;;
  Some (inCheck, with_game w (with_board g b4)).

(** [if (ok) { ...block...; if (inCheck) ok = false; }] *)
Definition guarded (side : ascii)
    (start_row start_col end_row end_col piece : Z) (ok : bool) (w : world)
    : option (bool * world) :=
  if ok then
    do ' (inCheck, w') <- self_check side start_row start_col end_row end_col
                            piece w ;;
    Some (negb inCheck, w')
  else Some (false, w).

(** ** legal_move *)

(** The promotion [switch] of [legal_move]: [color_sign] is the 1 or -1
    chosen from the colour letter, the [default] branch keeps the pawn. *)
Definition promotion_value (color_sign : Z) (kind : ascii) : Z :=
  if is_char kind "N" then color_sign * 2
  else if is_char kind "B" then color_sign * 3
  else if is_char kind "R" then color_sign * 4
  else if is_char kind "Q" then color_sign * 5
  else color_sign * 1.

(** [(end_row == 7 && side == 'W') || (end_row == 0 && side == 'B')] *)
Definition far_rank (side : ascii) (end_row : Z) : bool :=
  ((end_row =? 7) && is_char side "W") || ((end_row =? 0) && is_char side "B").

(** [(end_row != 7 && side == 'W') || (end_row != 0 && side == 'B')] *)
Definition not_far_rank (side : ascii) (end_row : Z) : bool :=
  (negb (end_row =? 7) && is_char side "W")
  || (negb (end_row =? 0) && is_char side "B").

(** The [if]/[else if] chain after the path test of a pawn move.  [d] is
    the buffer holding the promotion directive ([arr] for a forward step,
    [arr2] for a capture) and [stray] the last test of the chain, which
    differs between the two branches.  The result is the new [isLegal] and
    the world after the promotion write. *)
Definition pawn_promotion (start_row start_col end_row : Z) (d : string)
    (stray : bool) (isLegal : bool) (w : world) : option (bool * world) :=
  let far := far_rank (player w) end_row in
  let y := is_char (char_at d 0) "y" in
  if isLegal && far && y && negb (is_char (char_at d 2) "P")
     && negb (is_char (char_at d 2) "K") && is_char (char_at d 1) (player w)
  then
    do sign <- (if is_char (char_at d 1) "W" then Some 1
                else if is_char (char_at d 1) "B" then Some (-1)
                else None) ;;
    let promotion := promotion_value sign (char_at d 2) in
    do b' <- set_cell (board (game w)) start_row start_col promotion ;;
    Some (isLegal, with_game w (with_board (game w) b'))
  else if isLegal && far && y
          && (negb (is_char (char_at d 1) (player w))
              || is_char (char_at d 2) "P" || is_char (char_at d 2) "K")
  then Some (false, w)
  else if isLegal && far && negb y then Some (false, w)
  else if isLegal && not_far_rank (player w) end_row && stray
  then Some (false, w)
  else Some (isLegal, w).

(** The directive chain shared by the rook, bishop and queen branches,
    entered once the shape test has passed. *)
Definition slider_directives (w : world)
    (start_row start_col end_row end_col piece : Z) (arr arr2 : string)
    : option bool :=
  do cp <- clear_path w start_row start_col end_row end_col arr ;;
  if negb cp then Some false
  else if is_char (char_at arr 0) "y" || is_char (char_at arr2 0) "y"
  then Some false
  else if is_char (char_at arr 0) "x" && negb (is_char (char_at arr2 0) "y")
  then valid_opponent_piece w end_row end_col piece (str_from 1 arr)
  else Some true.

Definition legal_move (start_row start_col end_row end_col piece : Z)
    (arr arr2 : string) (w : world) : option (bool * world) :=
  let side := player w in
  let a0 := char_at arr 0 in
  let b0 := char_at arr2 0 in
  if Z.abs piece =? ROOK then
    do beforeCheck <-
         (if negb (start_row =? end_row) && negb (start_col =? end_col)
          then Some false
          else slider_directives w start_row start_col end_row end_col piece
                 arr arr2) ;;
    guarded side start_row start_col end_row end_col piece beforeCheck w
  else if Z.abs piece =? PAWN then
    let direction := if 0 <? piece then 1 else -1 in
    if (start_col =? end_col) && (end_row =? start_row + direction) then
      do isLegal <- clear_path w start_row start_col end_row end_col arr ;;
      do ' (isLegal, w1) <-
           pawn_promotion start_row start_col end_row arr
             (is_char a0 "x" || is_char a0 "y" || is_char b0 "y") isLegal w ;;
      guarded side start_row start_col end_row end_col piece isLegal w1
    else if (start_col =? end_col) && (end_row =? start_row + 2 * direction)
            && (((0 <? piece) && (start_row =? 1))
                || ((piece <? 0) && (start_row =? 6)))
    then
      do isLegal <- clear_path w start_row start_col end_row end_col arr ;;
      let isLegal :=
        if isLegal && (is_char a0 "y" || is_char a0 "x" || is_char b0 "y")
        then false else isLegal in
      guarded side start_row start_col end_row end_col piece isLegal w
    else if (Z.abs (start_col - end_col) =? 1)
            && (end_row =? start_row + direction) && is_char a0 "x"
    then
      do isLegal <- valid_opponent_piece w (start_row + direction) end_col
                      piece (str_from 1 arr) ;;
      do ' (isLegal, w1) <-
           pawn_promotion start_row start_col end_row arr2
             (is_char b0 "y") isLegal w ;;
      guarded side start_row start_col end_row end_col piece isLegal w1
    else Some (false, w)
  else if Z.abs piece =? KNIGHT then
    if ((Z.abs (start_row - end_row) =? 2)
        && (Z.abs (start_col - end_col) =? 1))
       || ((Z.abs (start_row - end_row) =? 1)
           && (Z.abs (start_col - end_col) =? 2))
    then
      do dest <- cell (board (game w)) end_row end_col ;;
      do beforeCheck <-
           (if (dest =? EMPTY)
               && (is_char a0 "x" || is_char b0 "y" || is_char a0 "y")
            then Some false
            else if negb (dest =? EMPTY) && is_char a0 "x"
                    && negb (is_char b0 "y")
            then valid_opponent_piece w end_row end_col piece (str_from 1 arr)
            else if negb (dest =? EMPTY) then Some false
            else Some true) ;;
      guarded side start_row start_col end_row end_col piece beforeCheck w
    else Some (false, w)
  else if Z.abs piece =? BISHOP then
    do beforeCheck <-
         (if negb (Z.abs (start_row - end_row) =? Z.abs (start_col - end_col))
          then Some false
          else slider_directives w start_row start_col end_row end_col piece
                 arr arr2) ;;
    guarded side start_row start_col end_row end_col piece beforeCheck w
  else if Z.abs piece =? QUEEN then
    if (start_row =? end_row) || (start_col =? end_col)
       || (Z.abs (start_row - end_row) =? Z.abs (start_col - end_col))
    then
      do beforeCheck <-
           slider_directives w start_row start_col end_row end_col piece
             arr arr2 ;;
      guarded side start_row start_col end_row end_col piece beforeCheck w
    else Some (false, w)
  else if Z.abs piece =? KING then
    if (Z.abs (start_row - end_row) <=? 1)
       && (Z.abs (start_col - end_col) <=? 1)
    then
      do dest <- cell (board (game w)) end_row end_col ;;
      if negb (dest =? EMPTY) && is_char a0 "x" && negb (is_char b0 "y")
      then
        do r <- valid_opponent_piece w end_row end_col piece (str_from 1 arr) ;;
        Some (r, w)
      else if negb (dest =? EMPTY) && (negb (is_char a0 "x") || is_char b0 "y")
      then Some (false, w)
      else guarded side start_row start_col end_row end_col piece true w
    else Some (false, w)
  else Some (true, w).

(** ** perform_move *)

Definition perform_move (start_row start_col end_row end_col piece : Z)
    (w : world) : option world :=
  let g := game w in
  do captured_piece <- cell (board g) end_row end_col ;;
  do b1 <- set_cell (board g) end_row end_col piece ;;
  do b2 <- set_cell b1 start_row start_col 0 ;;
  do opponent <-
       (if (is_char (player w) "W" || is_char (cpu w) "W")
           && (current_turn g =? 1)
        then Some "B"%char
        else if (is_char (player w) "B" || is_char (cpu w) "B")
                && (current_turn g =? -1)
        then Some "W"%char
        else None) ;;
  do ' (king_row, king_col) <-
       (if is_char opponent "W" then Some (white_king g)
        else if is_char opponent "B" then Some (black_king g)
        else None) ;;
  let g1 := with_board g b2 in
  do c <- king_check (with_game w g1) g1 king_row king_col opponent ;;
  let white_king' :=
    if (Z.abs piece =? KING) && is_char (player w) "W"
    then (end_row, end_col) else white_king g in
  let black_king' :=
    if (Z.abs piece =? KING) && negb (is_char (player w) "W")
    then (end_row, end_col) else black_king g in
  Some (with_game w
          (mk_game b2 white_king' black_king' (- current_turn g) c)).

(** ** Loops over the board *)

(** The values taken by a [for (i = 0; i < BOARD_SIZE; i++)] index. *)
Definition indices : list Z := [0; 1; 2; 3; 4; 5; 6; 7].

(** A loop over the world whose body may [return]: [Some v] in the first
    component is the value returned, [None] lets the loop go on. *)
Fixpoint search {A R : Type} (body : A -> world -> option (option R * world))
    (l : list A) (w : world) : option (option R * world) :=
  match l with
  | [] => Some (None, w)
  | a :: l' =>
      do ' (r, w') <- body a w ;;
      match r with
      | Some v => Some (Some v, w')
      | None => search body l' w'
      end
  end.

(** A loop over the world that updates local variables [acc]. *)
Fixpoint collect {A S : Type} (body : A -> S -> world -> option (S * world))
    (l : list A) (acc : S) (w : world) : option (S * world) :=
  match l with
  | [] => Some (acc, w)
  | a :: l' =>
      do ' (acc', w') <- body a acc w ;;
      collect body l' acc' w'
  end.

(** The colour letter both checkmate detectors derive from the turn; no
    branch assigns it when the turn is 0. *)
Definition turn_color (g : chess_game) : option ascii :=
  if 0 <? current_turn g then Some "W"%char
  else if current_turn g <? 0 then Some "B"%char
  else None.

Definition own_piece (color : ascii) (piece : Z) : bool :=
  (is_char color "W" && (0 <? piece)) || (is_char color "B" && (piece <? 0)).

(** The search of both checkmate detectors, with the validator as
    argument: [piece] is read through the pointer once per start square,
    every accepted move is executed by [perform_move] on the global game,
    and [king_check] then looks at [temp_game], the copy of [*game] taken
    before that execution. *)
Definition escape_search (p : game_ptr)
    (validator : Z -> Z -> Z -> Z -> Z -> world -> option (bool * world))
    (king_row king_col : Z) (color : ascii) (w : world)
    : option (option bool * world) :=
  search (fun start_row =>
    search (fun start_col w =>
      do piece <- cell (board (deref p w)) start_row start_col ;;
      if own_piece color piece then
        search (fun end_row =>
          search (fun end_col w =>
            do ' (ok, w1) <- validator start_row start_col end_row end_col
                               piece w ;;
            if ok then
              let temp_game := deref p w1 in
              do w2 <- perform_move start_row start_col end_row end_col
                         piece w1 ;;
              do c <- king_check w2 temp_game king_row king_col color ;;
              if negb c then Some (Some false, w2) else Some (None, w2)
            else Some (None, w1))
          indices)
        indices w
      else Some (None, w))
    indices)
  indices w.

Definition checkmate_with (p : game_ptr)
    (validator : Z -> Z -> Z -> Z -> Z -> world -> option (bool * world))
    (w : world) : option (bool * world) :=
  let g := deref p w in
  do color <- turn_color g ;;
  let king_row := if is_char color "W" then snd (white_king g)
                  else snd (black_king g) in
  let king_col := if is_char color "W" then fst (white_king g)
                  else fst (black_king g) in
  do c <- king_check w g king_row king_col color ;;
  if negb c then Some (false, w)
  else
    do ' (r, w') <- escape_search p validator king_row king_col color w ;;
    match r with
    | Some v => Some (v, w')
    | None => Some (true, w')
    end.

(** ** is_checkmate *)

Definition is_checkmate (p : game_ptr) (arr arr2 : string) (w : world)
    : option (bool * world) :=
  checkmate_with p
    (fun start_row start_col end_row end_col piece =>
       legal_move start_row start_col end_row end_col piece arr arr2)
    w.

(** ** cpu_clear_path *)

(** The walking loops of [cpu_clear_path]: [Some false] is the
    [return false] at an occupied square, [Some true] the end of the loop.
    Nine iterations suffice ([nine_iterations_suffice]). *)
Fixpoint cpu_path_loop (fuel : nat) (b : list Z) (cont : Z -> Z -> bool)
    (di dj i j : Z) : option bool :=
  match fuel with
  | O => None
  | S fuel' =>
      if cont i j then
        do v <- cell b i j ;;
        if negb (v =? EMPTY) then Some false
        else cpu_path_loop fuel' b cont di dj (i + di) (j + dj)
      else Some true
  end.

(** The destination test closing each branch of [cpu_clear_path]: [false]
    when the square holds a piece that is not an enemy of the CPU. *)
Definition cpu_dest_ok (w : world) (end_row end_col : Z) : option bool :=
  do v <- cell (board (game w)) end_row end_col ;;
  if negb (v =? EMPTY) then
    if (is_char (cpu w) "W" && (0 <=? v)) || (is_char (cpu w) "B" && (v <=? 0))
    then Some false else Some true
  else Some true.

(** [row_direction] and [col_direction] are assigned only when the two
    rows, respectively columns, differ, which is when they are read. *)
Definition cpu_clear_path (w : world)
    (start_row start_col end_row end_col : Z) : option bool :=
  let b := board (game w) in
  let row_direction := if 0 <? end_row - start_row then 1 else -1 in
  let col_direction := if 0 <? end_col - start_col then 1 else -1 in
  if negb (start_row =? end_row) && negb (start_col =? end_col) then
    do free <- cpu_path_loop 9 b
                 (fun i j => negb (i =? end_row) && negb (j =? end_col))
                 row_direction col_direction
                 (start_row + row_direction) (start_col + col_direction) ;;
    if free then cpu_dest_ok w end_row end_col else Some false
  else if negb (start_row =? end_row) then
    do free <- cpu_path_loop 9 b (fun i _ => negb (i =? end_row))
                 row_direction 0 (start_row + row_direction) start_col ;;
    if free then cpu_dest_ok w end_row end_col else Some false
  else if negb (start_col =? end_col) then
    do free <- cpu_path_loop 9 b (fun _ j => negb (j =? end_col))
                 0 col_direction start_row (start_col + col_direction) ;;
    if free then cpu_dest_ok w end_row end_col else Some false
  else Some true.

(** ** cpu_legal_move *)

Definition two32 : Z := 2 ^ 32.

(** An [unsigned int] stored into an [int]. *)
Definition to_int (u : Z) : Z :=
  if u <? 2 ^ 31 then u else u - two32.

(** The promotion block of [cpu_legal_move], computed on [unsigned int]:
    [rnd] is the value delivered by [get_random_bytes], the result is the
    value stored on the board. *)
Definition cpu_promotion (rnd : Z) (cpu0 : ascii) : Z :=
  let promotion := (rnd mod two32) mod 4 + 2 in
  let promotion :=
    if is_char cpu0 "W" then 1
    else if is_char cpu0 "B" then (-1) mod two32
    else promotion in
  let promotion :=
    if promotion =? KNIGHT then (promotion * 2) mod two32
    else if promotion =? BISHOP then (promotion * 3) mod two32
    else if promotion =? ROOK then (promotion * 4) mod two32
    else if promotion =? QUEEN then (promotion * 5) mod two32
    else promotion in
  to_int promotion.

(** [if (beforeCheck && far rank) { ...; game.board[start] = promotion; }] *)
Definition cpu_promote (rnd : Z) (start_row start_col end_row : Z)
    (beforeCheck : bool) (w : world) : option world :=
  if beforeCheck && far_rank (cpu w) end_row then
    do b' <- set_cell (board (game w)) start_row start_col
               (cpu_promotion rnd (cpu w)) ;;
    Some (with_game w (with_board (game w) b'))
  else Some w.

(** The two tests that close every branch: the destination must not hold
    a piece of the CPU's colour. *)
Definition cpu_not_own_dest (end_row end_col : Z) (beforeCheck : bool)
    (w : world) : option bool :=
  do own_w <- and_then (is_char (cpu w) "W")
                (do v <- cell (board (game w)) end_row end_col ;;
                 Some (0 <? v)) ;;
  let beforeCheck := if own_w then false else beforeCheck in
  do own_b <- and_then (is_char (cpu w) "B")
                (do v <- cell (board (game w)) end_row end_col ;;
                 Some (v <? 0)) ;;
  Some (if own_b then false else beforeCheck).

(** The self-check block followed by the closing tests. *)
Definition cpu_finish (start_row start_col end_row end_col piece : Z)
    (beforeCheck : bool) (w : world) : option (bool * world) :=
  do ' (beforeCheck, w1) <-
       guarded (cpu w) start_row start_col end_row end_col piece
         beforeCheck w ;;
  do r <- cpu_not_own_dest end_row end_col beforeCheck w1 ;;
  Some (r, w1).

Definition cpu_legal_move (rnd : Z)
    (start_row start_col end_row end_col piece : Z) (w : world)
    : option (bool * world) :=
  if Z.abs piece =? ROOK then
    let beforeCheck :=
      if negb (start_row =? end_row) && negb (start_col =? end_col)
      then false else true in
    do cp <- cpu_clear_path w start_row start_col end_row end_col ;;
    let beforeCheck := if negb cp then false else beforeCheck in
    cpu_finish start_row start_col end_row end_col piece beforeCheck w
  else if Z.abs piece =? PAWN then
    do direction <- (if 0 <? piece then Some 1
                     else if piece <? 0 then Some (-1)
                     else None) ;;
    if (start_col =? end_col) && (end_row =? start_row + direction) then
      do beforeCheck <- cpu_clear_path w start_row start_col end_row end_col ;;
      do w1 <- cpu_promote rnd start_row start_col end_row beforeCheck w ;;
      cpu_finish start_row start_col end_row end_col piece beforeCheck w1
    else if (start_col =? end_col) && (end_row =? start_row + 2 * direction)
            && (((0 <? piece) && (start_row =? 1))
                || ((piece <? 0) && (start_row =? 6)))
    then
      do beforeCheck <- cpu_clear_path w start_row start_col end_row end_col ;;
      cpu_finish start_row start_col end_row end_col piece beforeCheck w
    else if (Z.abs (start_col - end_col) =? 1)
            && (end_row =? start_row + direction)
    then
      do beforeCheck <-
           (if is_char (cpu w) "W" then
              do v <- cell (board (game w)) (start_row + direction) end_col ;;
              Some (negb (0 <=? v))
            else Some true) ;;
      do beforeCheck <-
           (if is_char (cpu w) "B" then
              do v <- cell (board (game w)) (start_row + direction) end_col ;;
              Some (negb (v <=? 0))
            else Some beforeCheck) ;;
      do w1 <- cpu_promote rnd start_row start_col end_row beforeCheck w ;;
      cpu_finish start_row start_col end_row end_col piece beforeCheck w1
    else Some (false, w)
  else if Z.abs piece =? KNIGHT then
    let beforeCheck :=
      ((Z.abs (start_row - end_row) =? 2) && (Z.abs (start_col - end_col) =? 1))
      || ((Z.abs (start_row - end_row) =? 1)
          && (Z.abs (start_col - end_col) =? 2)) in
    cpu_finish start_row start_col end_row end_col piece beforeCheck w
  else if Z.abs piece =? BISHOP then
    let beforeCheck :=
      if negb (Z.abs (start_row - end_row) =? Z.abs (start_col - end_col))
      then false else true in
    do cp <- cpu_clear_path w start_row start_col end_row end_col ;;
    let beforeCheck := if negb cp then false else beforeCheck in
    cpu_finish start_row start_col end_row end_col piece beforeCheck w
  else if Z.abs piece =? QUEEN then
    if (start_row =? end_row) || (start_col =? end_col)
       || (Z.abs (start_row - end_row) =? Z.abs (start_col - end_col))
    then
      do cp <- cpu_clear_path w start_row start_col end_row end_col ;;
      cpu_finish start_row start_col end_row end_col piece cp w
    else Some (false, w)
  else if Z.abs piece =? KING then
    if (Z.abs (start_row - end_row) <=? 1)
       && (Z.abs (start_col - end_col) <=? 1)
    then
      do dest <- cell (board (game w)) end_row end_col ;;
      let beforeCheck :=
        if negb (dest =? EMPTY)
           && ((is_char (cpu w) "W" && (0 <? dest))
               || (is_char (cpu w) "B" && (dest <? 0)))
        then false else true in
      cpu_finish start_row start_col end_row end_col piece beforeCheck w
    else Some (false, w)
  else Some (true, w).

(** ** cpu_move *)

Record struct_cpu_move : Type := mk_cpu_move {
  start_row : Z;
  start_col : Z;
  end_row : Z;
  end_col : Z
}.

(** The capacity of the local array [legal_moves]. *)
Definition legal_moves_capacity : Z := BOARD_SIZE * BOARD_SIZE.

(** The colour test of the scan: the piece belongs to the CPU. *)
Definition cpu_piece (w : world) (piece : Z) : bool :=
  (is_char (cpu w) "B" && (piece <? 0))
  || (is_char (cpu w) "W" && (0 <? piece)).

(** [if (counter < capacity) legal_moves[counter++] = m;] *)
Definition push (legal_moves : list struct_cpu_move) (m : struct_cpu_move)
    : list struct_cpu_move :=
  if Z.of_nat (length legal_moves) <? legal_moves_capacity
  then legal_moves ++ [m] else legal_moves.

(** The body of the innermost loop of the scan: [rnd i j k l] is the draw
    that this call of [cpu_legal_move] may make, the array [legal_moves]
    and its [counter] are the list of the entries written so far. *)
Definition try_pair (rnd : Z -> Z -> Z -> Z -> Z) (i j piece k l : Z)
    (legal_moves : list struct_cpu_move) (w : world)
    : option (list struct_cpu_move * world) :=
  do ' (ok, w1) <- cpu_legal_move (rnd i j k l) i j k l piece w ;;
  if ok then Some (push legal_moves (mk_cpu_move i j k l), w1)
  else Some (legal_moves, w1).

(** The body of the loop over [j]: the piece is read once, through the
    pointer, before the two loops over the destination. *)
Definition try_square (p : game_ptr) (rnd : Z -> Z -> Z -> Z -> Z) (i j : Z)
    (legal_moves : list struct_cpu_move) (w : world)
    : option (list struct_cpu_move * world) :=
  do piece <- cell (board (deref p w)) i j ;;
  if cpu_piece w piece then
    collect (fun k => collect (try_pair rnd i j piece k) indices) indices
      legal_moves w
  else Some (legal_moves, w).

(** The scan of [cpu_move]. *)
Definition cpu_scan (p : game_ptr) (rnd : Z -> Z -> Z -> Z -> Z) (w : world)
    : option (list struct_cpu_move * world) :=
  collect (fun i => collect (try_square p rnd i) indices) indices [] w.

(** [rand_val] is the draw that selects the move. *)
Definition cpu_move (p : game_ptr) (rnd : Z -> Z -> Z -> Z -> Z)
    (rand_val : Z) (w : world) : option world :=
  do ' (legal_moves, w1) <- cpu_scan p rnd w ;;
  let counter := Z.of_nat (length legal_moves) in
  if 0 <? counter then
    let rand_val := (rand_val mod two32) mod counter in
    do perform <- legal_moves !! Z.to_nat rand_val ;;
    do piece <- cell (board (deref p w1)) (start_row perform)
                  (start_col perform) ;;
    perform_move (start_row perform) (start_col perform) (end_row perform)
      (end_col perform) piece w1
  else Some w1.

(** ** cpu_checkmate *)

Definition cpu_checkmate (p : game_ptr) (rnd : Z -> Z -> Z -> Z -> Z)
    (w : world) : option (bool * world) :=
  checkmate_with p
    (fun start_row start_col end_row end_col piece =>
       cpu_legal_move (rnd start_row start_col end_row end_col)
         start_row start_col end_row end_col piece)
    w.

(** ** The callers in dev_write *)

(** The turn guard of commands 02 and 03 for the side with letter
    [side]: the command is refused when it is the other colour's turn. *)
Definition in_turn (side : ascii) (w : world) : bool :=
  negb (is_char side "W" && (current_turn (game w) =? -1))
  && negb (is_char side "B" && (current_turn (game w) =? 1)).

(** Command 02 from the test of [legal_move] to the call of
    [perform_move], which receives the piece found on the start square. *)
Definition submit_move (sr sc er ec piece : Z) (arr arr2 : string)
    (w : world) : option (bool * world) :=
  do ' (ok, w1) <- legal_move sr sc er ec piece arr arr2 w ;;
  if ok then
    do moved <- cell (board (game w1)) sr sc ;;
    do w2 <- perform_move sr sc er ec moved w1 ;;
    Some (true, w2)
  else Some (false, w1).

(** The states the game goes through: [board_init] after the colours are
    chosen, then moves of the human side accepted by [legal_move] and
    moves of the CPU, each in its turn and executed by [perform_move]. *)
Inductive reachable (w0 : world) : world -> Prop :=
  | reach_init : reachable w0 (board_init w0)
  | reach_human (w w' : world) (sr sc er ec piece : Z) (arr arr2 : string) :
      reachable w0 w ->
      in_turn (player w) w = true ->
      in_board sr sc = true -> in_board er ec = true ->
      cell (board (game w)) sr sc = Some piece ->
      own_piece (player w) piece = true ->
      submit_move sr sc er ec piece arr arr2 w = Some (true, w') ->
      reachable w0 w'
  | reach_cpu (w w' : world) (rnd : Z -> Z -> Z -> Z -> Z) (rand_val : Z) :
      reachable w0 w ->
      in_turn (cpu w) w = true ->
      cpu_move Live rnd rand_val w = Some w' ->
      game w' <> game w ->
      reachable w0 w'.

(** The king caches agree with the board, read with the convention of
    [board_init]: element 0 is the column, element 1 the row. *)
Definition king_cache_ok (g : chess_game) : Prop :=
  cell (board g) (snd (white_king g)) (fst (white_king g)) = Some KING
  /\ cell (board g) (snd (black_king g)) (fst (black_king g)) = Some (- KING).

(** ** piece_to_char *)

(** The text [sprintf] leaves in [buf]. *)
Definition piece_to_char (piece : Z) : string :=
  let player := if 0 <? piece then "W"%char else "B"%char in
  let piece := Z.abs piece in
  if piece =? PAWN then String player "P"
  else if piece =? KNIGHT then String player "N"
  else if piece =? BISHOP then String player "B"
  else if piece =? ROOK then String player "R"
  else if piece =? QUEEN then String player "Q"
  else if piece =? KING then String player "K"
  else "**"%string.

(** ** display_piece *)

(** [color] is assigned only for the letters W and B and read only by the
    final [return]; the [default] branch of the [switch] returns 0 before
    that.  The [switch] has the letters and values of the one in
    [valid_opponent_piece]. *)
Definition display_piece (piece_type : string) : option Z :=
  let color : option Z :=
    if is_char (char_at piece_type 0) "W" then Some 1
    else if is_char (char_at piece_type 0) "B" then Some (-1)
    else None in
  match kind_factor (char_at piece_type 1) with
  | None => Some 0
  | Some piece =>
      do color <- color ;;
      Some (color * piece)
  end.

(** ** char_check *)

(** [str] is the argument [string]; the loop ends at its first NUL. *)
Fixpoint char_check (c : ascii) (str : string) : Z :=
  match str with
  | EmptyString => 0
  | String d rest =>
      if is_char d Ascii.zero then 0
      else if is_char c d then 1
      else char_check c rest
  end.

(** ** board_state *)

(** The first [n] characters of a text. *)
Fixpoint str_take (n : nat) (s : string) : string :=
  match n, s with
  | S n', String c s' => String c (str_take n' s')
  | _, _ => EmptyString
  end.

(** [snprintf(buf + len, size - len, ...)] on an array of [size] bytes
    that was zeroed before the first write and holds the text [buf];
    [out] is the formatted text.  At most [size - len - 1] characters of
    [out] are stored at offset [len], followed by a NUL, and the length of
    [out] is returned; nothing is stored when [len] is [size], and a write
    behind the NUL that ends [buf] does not change the text.  The result
    is the new text of the array and the value returned; [None] when
    [len] exceeds [size] and the size argument, computed on [size_t],
    wraps around. *)
Definition snprintf_at (size : nat) (buf : string) (len : nat) (out : string)
    : option (string * nat) :=
  if (size <? len)%nat then None
  else if (len <? size)%nat && (len <=? String.length buf)%nat then
    Some ((str_take len buf ++ str_take (size - len - 1) out)%string,
          String.length out)
  else Some (buf, String.length out).

(** A [for] loop over local variables. *)
Fixpoint for_each {A S : Type} (body : A -> S -> option S) (l : list A)
    (s : S) : option S :=
  match l with
  | [] => Some s
  | a :: l' =>
      do s' <- body a s ;;
      for_each body l' s'
  end.

(** [piece_str] after the [if]: its initial text, or what [piece_to_char]
    has written over it. *)
Definition piece_str (v : Z) : string :=
  if negb (v =? EMPTY) then piece_to_char v else "**"%string.

(** The loop over [j]: the text of [line], and [line_len]. *)
Definition board_line (b : list Z) (i : Z) : option (string * nat) :=
  for_each
    (fun j '(line, line_len) =>
       do v <- cell b i j ;;
       do ' (line', n) <- snprintf_at 25 line line_len (piece_str v ++ " ") ;;
       Some (line', (line_len + n)%nat))
    indices (EmptyString, 0%nat).

(** The text of [message] when [board_state] returns. *)
Definition board_state (w : world) : option string :=
  do ' (message, msg_len) <-
       for_each
         (fun i '(message, msg_len) =>
            do ' (line, _) <- board_line (board (game w)) i ;;
            do ' (message', n) <-
                 snprintf_at 256 message msg_len (line ++ String "010" "") ;;
            Some (message', (msg_len + n)%nat))
         indices (EmptyString, 0%nat) ;;
  Some message.

(** ** dev_read *)

Definition two64 : Z := 2 ^ 64.

Definition EFAULT : Z := 14.

(** A value stored into a signed 64-bit type ([loff_t], [ssize_t]). *)
Definition to_int64 (u : Z) : Z :=
  if u mod two64 <? 2 ^ 63 then u mod two64 else u mod two64 - two64.

(** What a call of [dev_read] does: the value it returns, [*offset] when
    it returns, and the call [copy_to_user(buffer, message + from, count)]
    it has made, as [(from, count)]. *)
Record read_result : Type := mk_read_result {
  returned : Z;
  offset_after : Z;
  copied : option (Z * Z)
}.

(** [size_t] and [loff_t] are 64 bits wide: [size - *offset] and the
    comparison with [length] are computed on unsigned 64-bit values.
    [size] is the global, [copy_ok] tells whether [copy_to_user] copies
    all the bytes. *)
Definition dev_read (size : Z) (copy_ok : bool) (length offset : Z)
    : read_result :=
  let bytes_to_read := (size - offset) mod two64 in
  let copy (length : Z) :=
    if copy_ok then
      mk_read_result (to_int64 length) (to_int64 (offset + length))
        (Some (offset, length))
    else mk_read_result (- EFAULT) offset (Some (offset, length)) in
  if bytes_to_read <? length then copy bytes_to_read
  else if bytes_to_read =? 0 then mk_read_result 0 offset None
  else copy length.

(** ** dev_write *)

(** The globals of the module: those of the engine, the text held by
    [message] and [size]. *)
Record driver : Type := mk_driver {
  globals : world;
  message : string;
  size : Z
}.

(** The five buffers filled by the [sscanf] of command 02, all zeroed
    before the call. *)
Record scanned : Type := mk_scanned {
  piece_type : string;
  start_pos : string;
  end_pos : string;
  action1 : string;
  action2 : string
}.

(** What a call of [dev_write] takes from outside the module: whether
    [char] is an unsigned type, [player[0]] after the [sscanf] of command
    00, the buffers after the [sscanf] of command 02, the values
    delivered by [get_random_bytes] ([draws 0] during the scan of
    [cpu_move], [draws k] during the [k]-th call of [cpu_checkmate]) and
    the draw that selects the CPU's move. *)
Record externals : Type := mk_externals {
  char_unsigned : bool;
  scanned_player : ascii;
  scanned_move : scanned;
  draws : nat -> Z -> Z -> Z -> Z -> Z;
  move_draw : Z
}.

(** The newline that ends every reply. *)
Definition NL : string := String "010" EmptyString.

(** [strcpy(message, text); size = strlen(message);] *)
Definition strcpy_message (text : string) (w : world) : driver :=
  mk_driver w text (Z.of_nat (String.length text)).

(** An [int] stored into a [char]. *)
Definition to_char (char_unsigned : bool) (v : Z) : Z :=
  if char_unsigned then v mod 256 else (v + 128) mod 256 - 128.

Definition with_checkmate (w : world) (c : bool) : world :=
  mk_world (game w) (player w) (cpu w) (game_init w) c.

(** The [if]/[else if] chain that closes commands 02 and 03: [detect k]
    is the [k]-th call of the checkmate detector, made only when the test
    of [game.check] before it holds; when no branch is taken [message]
    and [size] stay as they are in [d]. *)
Definition verdict (detect : nat -> world -> option (bool * world))
    (d : driver) (w : world) : option driver :=
  do ' (first, w1) <-
       (if check (game w) then
          do ' (mate, w1) <- detect 1%nat w ;; Some (negb mate, w1)
        else Some (false, w)) ;;
  if first then Some (strcpy_message ("CHECK" ++ NL) w1)
  else
    do ' (second, w2) <-
         (if negb (check (game w1)) then
            do ' (mate, w2) <- detect 2%nat w1 ;; Some (negb mate, w2)
          else Some (false, w1)) ;;
    if second then Some (strcpy_message ("Move executed" ++ NL) w2)
    else
      do ' (mate, w3) <- detect 3%nat w2 ;;
      if mate then Some (strcpy_message ("MATE" ++ NL) (with_checkmate w3 true))
      else Some (mk_driver w3 (message d) (size d)).

Definition command_00 (ext : externals) (d : driver) : driver :=
  let w := globals d in
  let player' := scanned_player ext in
  let cpu' := if is_char player' "W" then "B"%char
              else if is_char player' "B" then "W"%char
              else cpu w in
  strcpy_message ("New game" ++ NL)
    (board_init (mk_world (game w) player' cpu' (game_init w) (checkmate w))).

Definition command_01 (d : driver) : option driver :=
  let w := globals d in
  if negb (game_init w) then Some (strcpy_message ("NOGAME" ++ NL) w)
  else
    do text <- board_state w ;;
    if checkmate w then Some (strcpy_message ("MATE" ++ NL) w)
    else Some (mk_driver w text (Z.of_nat (String.length text))).

(** The format test of command 02. *)
Definition invalid_format (s : scanned) : bool :=
  (char_check (char_at (start_pos s) 0) "abcdefgh" =? 0)
  || (char_check (char_at (start_pos s) 1) "12345678" =? 0)
  || (char_check (char_at (end_pos s) 0) "abcdefgh" =? 0)
  || (char_check (char_at (end_pos s) 1) "12345678" =? 0).

(** The value of a [char] of the 7-bit range as an [int]. *)
Definition code (c : ascii) : Z := Z.of_N (N_of_ascii c).

(** [pos[1] - '0' - 1] and [pos[0] - 'a'], computed once the format test
    has passed, on characters of the 7-bit range. *)
Definition row_of (pos : string) : Z := code (char_at pos 1) - code "0" - 1.

Definition col_of (pos : string) : Z := code (char_at pos 0) - code "a".

(** Command 02 from the call of [legal_move] on: [temp] is the copy of
    [game] taken between [legal_move] and [perform_move], and
    [perform_move] receives the piece found on the start square. *)
Definition play (sr sc er ec piece : Z) (arr arr2 : string) (d : driver)
    : option driver :=
  do ' (ok, w1) <- legal_move sr sc er ec piece arr arr2 (globals d) ;;
  if ok then
    let temp := game w1 in
    do moved <- cell (board (game w1)) sr sc ;;
    do w2 <- perform_move sr sc er ec moved w1 ;;
    verdict (fun _ => is_checkmate (Copy temp) arr arr2) d w2
  else Some (strcpy_message ("ILLMOVE" ++ NL) w1).

(** [length] is the value [dev_write] returns on the ordinary path.  The
    coordinates are assigned, and the start square is read, only for the
    colour letters W and B; with another letter [display_piece] reads its
    unassigned [color]. *)
Definition command_02 (ext : externals) (length : Z) (d : driver)
    : option (Z * driver) :=
  let w := globals d in
  let s := scanned_move ext in
  if negb (game_init w) then Some (length, strcpy_message ("NOGAME" ++ NL) w)
  else if checkmate w then Some (length, strcpy_message ("MATE" ++ NL) w)
  else if negb (in_turn (player w) w)
  then Some (length, strcpy_message ("OOT" ++ NL) w)
  else if invalid_format s
  then Some (length, strcpy_message ("INVFMT" ++ NL) w)
  else if negb (is_char (char_at (piece_type s) 0) (player w))
  then Some (length, strcpy_message ("ILLMOVE" ++ NL) w)
  else
    match kind_factor (char_at (piece_type s) 1) with
    | None => Some (0, d)
    | Some match_piece =>
        let sr := row_of (start_pos s) in
        let sc := col_of (start_pos s) in
        let er := row_of (end_pos s) in
        let ec := col_of (end_pos s) in
        do found <-
             (if is_char (char_at (piece_type s) 0) "W" then
                do v <- cell (board (game w)) sr sc ;;
                Some (v =? match_piece * 1)
              else if is_char (char_at (piece_type s) 0) "B" then
                do v <- cell (board (game w)) sr sc ;;
                Some (v =? match_piece * -1)
              else Some true) ;;
        if negb found then Some (length, strcpy_message ("ILLMOVE" ++ NL) w)
        else
          do piece <- display_piece (piece_type s) ;;
          do d' <- play sr sc er ec (to_char (char_unsigned ext) piece)
                     (action1 s) (action2 s) d ;;
          Some (length, d')
    end.

Definition command_03 (ext : externals) (d : driver) : option driver :=
  let w := globals d in
  if negb (game_init w) then Some (strcpy_message ("NOGAME" ++ NL) w)
  else if checkmate w then Some (strcpy_message ("MATE" ++ NL) w)
  else if negb (in_turn (cpu w) w) then Some (strcpy_message ("OOT" ++ NL) w)
  else
    do w1 <- cpu_move Live (draws ext 0%nat) (move_draw ext) w ;;
    verdict (fun k => cpu_checkmate Live (draws ext k)) d w1.

Definition command_04 (d : driver) : driver :=
  let w := globals d in
  if negb (game_init w) then strcpy_message ("NOGAME" ++ NL) w
  else if checkmate w then strcpy_message ("MATE" ++ NL) w
  else if negb (in_turn (player w) w) then strcpy_message ("OOT" ++ NL) w
  else
    let w1 := board_init w in
    strcpy_message ("OK" ++ NL)
      (mk_world (game w1) (player w1) (cpu w1) false (checkmate w1)).

(** [buffer] is the [length] bytes the user passes, [None] when
    [copy_from_user] fails.  The result is the value returned and the
    globals when the call returns. *)
Definition dev_write (ext : externals) (buffer : option string) (d : driver)
    : option (Z * driver) :=
  match buffer with
  | None => Some (- EFAULT, d)
  | Some bytes =>
      let length := Z.min (Z.of_nat (String.length bytes)) 255 in
      let cmd := str_take 255 bytes in
      if is_char (char_at cmd 0) "0" then
        if is_char (char_at cmd 1) "0" then Some (length, command_00 ext d)
        else if is_char (char_at cmd 1) "1" then
          do d' <- command_01 d ;; Some (length, d')
        else if is_char (char_at cmd 1) "2" then command_02 ext length d
        else if is_char (char_at cmd 1) "3" then
          do d' <- command_03 ext d ;; Some (length, d')
        else if is_char (char_at cmd 1) "4" then Some (length, command_04 d)
        else Some (length, d)
      else Some (length, d)
  end.

(** ** Vocabulary of the statements *)

(** A square is occupied, respectively vacant, on a board. *)
Definition occupied (b : list Z) (sq : Z * Z) : Prop :=
  exists v, cell b (fst sq) (snd sq) = Some v /\ v <> EMPTY.

Definition vacant (b : list Z) (sq : Z * Z) : Prop :=
  cell b (fst sq) (snd sq) = Some EMPTY.

(** Exactly one of same row, same column, equal absolute deltas. *)
Definition on_line (sr sc er ec : Z) : Prop :=
  (sr = er /\ sc <> ec /\ Z.abs (sr - er) <> Z.abs (sc - ec))
  \/ (sr <> er /\ sc = ec /\ Z.abs (sr - er) <> Z.abs (sc - ec))
  \/ (sr <> er /\ sc <> ec /\ Z.abs (sr - er) = Z.abs (sc - ec)).

(** The number of steps from start to end, and the square reached after
    [k] steps in the travel direction. *)
Definition line_length (sr sc er ec : Z) : Z :=
  Z.max (Z.abs (er - sr)) (Z.abs (ec - sc)).

Definition line_square (sr sc er ec k : Z) : Z * Z :=
  (sr + k * Z.sgn (er - sr), sc + k * Z.sgn (ec - sc)).

(** The base pawn code of a colour letter. *)
Definition pawn_of (side : ascii) : Z :=
  if is_char side "W" then PAWN else - PAWN.

(** The move from [(i, j)] to [(k, l)] passes [cpu_legal_move] in [w]. *)
Definition cpu_passes (w : world) (i j k l piece : Z) : bool :=
  match cpu_legal_move 0 i j k l piece w with
  | Some (true, _) => true
  | _ => false
  end.

(** The pairs starting on [(i, j)] that pass [cpu_legal_move], when that
    square holds a piece of the CPU's colour. *)
Definition candidates_from (w : world) (i j : Z) : list struct_cpu_move :=
  match cell (board (game w)) i j with
  | Some piece =>
      if cpu_piece w piece then
        flat_map (fun k =>
          flat_map (fun l =>
            if cpu_passes w i j k l piece then [mk_cpu_move i j k l] else [])
          indices)
        indices
      else []
  | None => []
  end.

(** Every (start, end) pair that passes [cpu_legal_move] for a piece of
    the CPU's colour, in the order of the scan. *)
Definition cpu_candidates (w : world) : list struct_cpu_move :=
  flat_map (fun i => flat_map (candidates_from w i) indices) indices.


(** What [king_check] needs of the cache of the king of colour [side]. *)
Definition king_cached (g : chess_game) (side : ascii) : Prop :=
  (side = "W"%char ->
   in_board (snd (white_king g)) (fst (white_king g)) = true)
  /\ (side = "B"%char ->
      in_board (snd (black_king g)) (fst (black_king g)) = true
      /\ 1 <= fst (black_king g) <= 6).

(** The states on which the CPU's side of the engine has defined
    behaviour: a full board, colour letters W or B, king caches naming
    squares of the board and, because [king_check] reads the two pawn
    squares of a black king without a bound on the column, the cached
    column of the black king off the edge files when the CPU is Black. *)
Definition cpu_defined (w : world) : Prop :=
  board_wf (board (game w))
  /\ (player w = "W"%char \/ player w = "B"%char)
  /\ (cpu w = "W"%char \/ cpu w = "B"%char)
  /\ in_board (snd (white_king (game w))) (fst (white_king (game w))) = true
  /\ in_board (snd (black_king (game w))) (fst (black_king (game w))) = true
  /\ (cpu w = "B"%char -> 1 <= fst (black_king (game w)) <= 6).

(** The number of squares of the board still ahead of coordinate [p]
    moving by [d], the square at [p] included. *)
Definition room (d p : Z) : Z :=
  if 0 <? d then BOARD_SIZE - p else if d <? 0 then p + 1 else BOARD_SIZE.

Definition squares_ahead (di dj i j : Z) : Z :=
  Z.min (room di i) (room dj j).

(** [cont] and [at_end] drive a walk of [N] steps from [(sr, sc)] in
    direction [(di, dj)] that stays on the board. *)
Definition walks (b : list Z) (cont at_end : Z -> Z -> bool)
    (sr sc di dj N : Z) : Prop :=
  (forall k, 1 <= k <= N ->
     cont (sr + k * di) (sc + k * dj) = true
     /\ at_end (sr + k * di) (sc + k * dj) = (k =? N)
     /\ exists v, cell b (sr + k * di) (sc + k * dj) = Some v)
  /\ cont (sr + (N + 1) * di) (sc + (N + 1) * dj) = false.

(** The direction of the pawns of the colour of [piece]. *)
Definition pawn_direction_of (piece : Z) : Z := if 0 <? piece then 1 else -1.

(** The move from [(sr, sc)] to [(er, ec)] has the geometry of the kind
    of [piece]: a rook along a row or a column, a bishop along a
    diagonal, a queen along either, a knight two squares one way and one
    the other, a king at most one square each way, a pawn one square
    forward, two squares forward from its start row, or one square
    forward in an adjacent column. *)
Definition move_shape (piece sr sc er ec : Z) : Prop :=
  (Z.abs piece = ROOK /\ (sr = er \/ sc = ec))
  \/ (Z.abs piece = BISHOP /\ Z.abs (sr - er) = Z.abs (sc - ec))
  \/ (Z.abs piece = QUEEN
      /\ (sr = er \/ sc = ec \/ Z.abs (sr - er) = Z.abs (sc - ec)))
  \/ (Z.abs piece = KNIGHT
      /\ ((Z.abs (sr - er) = 2 /\ Z.abs (sc - ec) = 1)
          \/ (Z.abs (sr - er) = 1 /\ Z.abs (sc - ec) = 2)))
  \/ (Z.abs piece = KING /\ Z.abs (sr - er) <= 1 /\ Z.abs (sc - ec) <= 1)
  \/ (Z.abs piece = PAWN
      /\ ((sc = ec /\ er = sr + pawn_direction_of piece)
          \/ (sc = ec /\ er = sr + 2 * pawn_direction_of piece
              /\ ((0 < piece /\ sr = 1) \/ (piece < 0 /\ sr = 6)))
          \/ (Z.abs (sc - ec) = 1 /\ er = sr + pawn_direction_of piece))).



(** The board after the piece on [(sr, sc)] has been put on [(er, ec)]. *)
Definition after_move (b : list Z) (sr sc er ec : Z) : option (list Z) :=
  do moved <- cell b sr sc ;;
  do b1 <- set_cell b er ec moved ;;
  set_cell b1 sr sc EMPTY.

(** [piece] is a piece of the other colour than [color]: the test of the
    ray loop of [king_check]. *)
Definition enemy_of (color : ascii) (piece : Z) : bool :=
  (is_char color "W" && (piece <? 0)) || (is_char color "B" && (0 <? piece)).

(** No piece of the other colour than [color] stands on the board. *)
Definition no_enemy_of (color : ascii) (b : list Z) : Prop :=
  forallb (fun v => negb (enemy_of color v)) b = true.

(** The text of the board, square by square: row [i] is its eight
    squares, two letters and a space each, and a newline. *)
Definition concat_text (l : list string) : string :=
  fold_right String.append EmptyString l.

Definition row_text (b : list Z) (i : Z) : string :=
  (concat_text
     (map (fun j => match cell b i j with
                    | Some v => (piece_str v ++ " ")%string
                    | None => EmptyString
                    end) indices)
   ++ String "010" "")%string.

Definition board_text (b : list Z) : string :=
  concat_text (map (row_text b) indices).

(** [size] is the length of the text of [message], which fits the array
    of 256 bytes with its terminating NUL. *)
Definition message_fits (d : driver) : Prop :=
  size d = Z.of_nat (String.length (message d))
  /\ (String.length (message d) < 256)%nat.

(** The reply of a refused command. *)
Definition refusal (w : world) : string :=
  ((if negb (game_init w) then "NOGAME"
    else if checkmate w then "MATE" else "OOT") ++ NL)%string.

(** ** Positions used as concrete inputs

    Boards are written rank by rank, row 0 (White's back rank) first.
    In all of them the human plays White and the CPU plays Black. *)

(** A draw oracle that always delivers 0. *)
Definition zero_draws : Z -> Z -> Z -> Z -> Z := fun _ _ _ _ => 0.

(** The globals before command 00 has run [board_init]. *)
Definition blank_game : chess_game :=
  mk_game (repeat 0 64) (0, 0) (0, 0) 0 false.

Definition new_game : world :=
  board_init (mk_world blank_game "W" "B" false false).

(** White to move and in check from the rook on e8; the CPU has just
    moved. *)
Definition rook_check_game : chess_game :=
  mk_game
    [ 0; 0; 0; 0; 6; 0; 0; 0;
      1; 0; 0; 0; 0; 0; 0; 0;
      0; 0; 0; 0; 0; 0; 0; 0;
      0; 0; 0; 0; 0; 0; 0; 0;
      0; 0; 0; 0; 0; 0; 0; 0;
      0; 0; 0; 0; 0; 0; 0; 0;
      0; 0; 0; 0; 0; 0; 0; 0;
      0; -6; 0; 0; -4; 0; 0; 0 ]
    (4, 0) (1, 7) 1 true.

Definition rook_check : world := mk_world rook_check_game "W" "B" true false.

(** The same check with a white bishop on f1 that can interpose on e2,
    and the game after White has played that move (Bf1-e2). *)
Definition bishop_block_before : chess_game :=
  mk_game
    [ 0; 0; 0; 0; 6; 3; 0; 0;
      0; 0; 0; 0; 0; 0; 0; 0;
      0; 0; 0; 0; 0; 0; 0; 0;
      0; 0; 0; 0; 0; 0; 0; 0;
      0; 0; 0; 0; 0; 0; 0; 0;
      0; 0; 0; 0; 0; 0; 0; 0;
      0; 0; 0; 0; 0; 0; 0; 0;
      0; -6; 0; 0; -4; 0; 0; 0 ]
    (4, 0) (1, 7) 1 true.

Definition bishop_block_after : world :=
  mk_world
    (mk_game
       [ 0; 0; 0; 0; 6; 0; 0; 0;
         0; 0; 0; 0; 3; 0; 0; 0;
         0; 0; 0; 0; 0; 0; 0; 0;
         0; 0; 0; 0; 0; 0; 0; 0;
         0; 0; 0; 0; 0; 0; 0; 0;
         0; 0; 0; 0; 0; 0; 0; 0;
         0; 0; 0; 0; 0; 0; 0; 0;
         0; -6; 0; 0; -4; 0; 0; 0 ]
       (4, 0) (1, 7) (-1) false)
    "W" "B" true false.

(** White, in check from the rook on h1, has a pawn on a7. *)
Definition promotion_in_check : world :=
  mk_world
    (mk_game
       [ 0; 0; 0; 0; 6; 0; 0; -4;
         0; 0; 0; 0; 0; 0; 0; 0;
         0; 0; 0; 0; 0; 0; 0; 0;
         0; 0; 0; 0; 0; 0; 0; 0;
         0; 0; 0; 0; 0; 0; 0; 0;
         0; 0; 0; 0; 0; 0; 0; 0;
         1; 0; 0; 0; 0; 0; 0; 0;
         0; 0; 0; 0; -6; 0; 0; 0 ]
       (4, 0) (4, 7) 1 true)
    "W" "B" true false.

(** The same pawn on a7 with no check on the board. *)
Definition promotion_free : world :=
  mk_world
    (mk_game
       [ 0; 0; 0; 0; 6; 0; 0; 0;
         0; 0; 0; 0; 0; 0; 0; 0;
         0; 0; 0; 0; 0; 0; 0; 0;
         0; 0; 0; 0; 0; 0; 0; 0;
         0; 0; 0; 0; 0; 0; 0; 0;
         0; 0; 0; 0; 0; 0; 0; 0;
         1; 0; 0; 0; 0; 0; 0; 0;
         0; 0; 0; 0; -6; 0; 0; 0 ]
       (4, 0) (4, 7) 1 false)
    "W" "B" true false.

(** The white king on e4 with a black pawn on d5, which attacks it. *)
Definition pawn_attack_game : chess_game :=
  mk_game
    [ 0; 0; 0; 0; 0; 0; 0; 0;
      0; 0; 0; 0; 0; 0; 0; 0;
      0; 0; 0; 0; 0; 0; 0; 0;
      0; 0; 0; 0; 6; 0; 0; 0;
      0; 0; 0; -1; 0; 0; 0; 0;
      0; 0; 0; 0; 0; 0; 0; 0;
      0; 0; 0; 0; 0; 0; 0; 0;
      0; 0; 0; 0; -6; 0; 0; 0 ]
    (4, 3) (4, 7) 1 false.

(** The new game after 1. e3, the CPU's reply a7-a5 and 2. Ke2. *)
Definition king_on_e2 : world :=
  mk_world
    (mk_game
       [ 4; 2; 3; 5; 0; 3; 2; 4;
         1; 1; 1; 1; 6; 1; 1; 1;
         0; 0; 0; 0; 1; 0; 0; 0;
         0; 0; 0; 0; 0; 0; 0; 0;
         -1; 0; 0; 0; 0; 0; 0; 0;
         0; 0; 0; 0; 0; 0; 0; 0;
         0; -1; -1; -1; -1; -1; -1; -1;
         -4; -2; -3; -5; -6; -3; -2; -4 ]
       (1, 4) (4, 7) (-1) false)
    "W" "B" true false.

(** Black (the CPU) to move with queen, rooks, bishops and knights on an
    open board: 83 pairs pass [cpu_legal_move]. *)
Definition open_board : world :=
  mk_world
    (mk_game
       [ 0; 0; 0; 0; 0; 0; 0; 6;
         0; 0; 0; 0; 0; 0; 1; 1;
         0; 0; -3; 0; 0; -3; 0; 0;
         0; 0; 0; -5; 0; 0; 0; 0;
         0; 0; -2; 0; 0; -2; 0; 0;
         0; 0; 0; 0; 0; 0; 0; -4;
         -4; 0; 0; 0; 0; 0; 0; 0;
         0; 0; 0; 0; -6; 0; 0; 0 ]
       (7, 0) (4, 7) (-1) false)
    "W" "B" true false.

(** Black (the CPU) to move with a lone king on e8, in check from the
    knight on f6. *)
Definition lone_king : world :=
  mk_world
    (mk_game
       [ 0; 0; 0; 0; 0; 0; 6; 0;
         0; 0; 0; 0; 0; 0; 0; 0;
         0; 0; 0; 0; 0; 0; 0; 0;
         0; 0; 0; 0; 0; 0; 0; 0;
         0; 0; 0; 0; 0; 0; 0; 0;
         0; 0; 0; 0; 0; 2; 0; 0;
         0; 0; 0; 0; 0; 0; 0; 0;
         0; 0; 0; 0; -6; 0; 0; 0 ]
       (6, 0) (4, 7) (-1) true)
    "W" "B" true false.

(** Black (the CPU) to move with a pawn on a2, one step from its far
    rank. *)
Definition cpu_pawn_on_a2 : world :=
  mk_world
    (mk_game
       [ 0; 0; 0; 0; 6; 0; 0; 0;
         -1; 0; 0; 0; 0; 0; 0; 0;
         0; 0; 0; 0; 0; 0; 0; 0;
         0; 0; 0; 0; 0; 0; 0; 0;
         0; 0; 0; 0; 0; 0; 0; 0;
         0; 0; 0; 0; 0; 0; 0; 0;
         0; 0; 0; 0; 0; 0; 0; 0;
         0; 0; 0; 0; -6; 0; 0; 0 ]
       (4, 0) (4, 7) (-1) false)
    "W" "B" true false.

(** The position after 1. e4 d5: a white pawn on e4, a black pawn on
    d5. *)
Definition pawns_face : world :=
  mk_world
    (mk_game
       [ 4; 2; 3; 5; 6; 3; 2; 4;
         1; 1; 1; 1; 0; 1; 1; 1;
         0; 0; 0; 0; 0; 0; 0; 0;
         0; 0; 0; 0; 1; 0; 0; 0;
         0; 0; 0; -1; 0; 0; 0; 0;
         0; 0; 0; 0; 0; 0; 0; 0;
         -1; -1; -1; 0; -1; -1; -1; -1;
         -4; -2; -3; -5; -6; -3; -2; -4 ]
       (4, 0) (4, 7) 1 false)
    "W" "B" true false.

(** White's pieces alone on the board. *)
Definition white_only : chess_game :=
  mk_game (take 16 initial_board ++ repeat 0 48) (4, 0) (4, 7) 1 false.

(** The module before any command: no game, an empty message. *)
Definition module_loaded : driver :=
  mk_driver (mk_world blank_game Ascii.zero Ascii.zero false false)
    EmptyString 0.

(** The externals of a call in which the user is White, the buffers of
    command 02 hold the move e2-e4 of a white pawn, and every draw
    delivers 0. *)
Definition e2e4 : externals :=
  mk_externals false "W" (mk_scanned "WP" "e2" "e4" "" "")
    (fun _ => zero_draws) 0.

(** The globals after command 00 for White, and after White's move
    e2-e4. *)
Definition game_started : driver := command_00 e2e4 module_loaded.

Definition after_e4 : driver :=
  match dev_write e2e4 (Some "02WPe2-e4"%string) game_started with
  | Some (_, d) => d
  | None => game_started
  end.

(** ** Proof tools *)

(** Split the first binding of a successful computation. *)
Ltac bind_inv H :=
  match type of H with
  | obind ?m _ = Some _ =>
      let a := fresh "a" in
      let Ha := fresh "Hbind" in
      destruct m as [a|] eqn:Ha; [cbn [obind] in H|discriminate H]
  end.

(** Decide the comparisons of the goal. *)
Ltac bool_to_prop :=
  repeat match goal with
  | |- context [Z.eqb ?a ?b] => destruct (Z.eqb_spec a b)
  | |- context [Z.leb ?a ?b] => destruct (Z.leb_spec a b)
  | |- context [Z.ltb ?a ?b] => destruct (Z.ltb_spec a b)
  end.

(** The two halves of [walks] for the loop conditions of [clear_path]. *)
Ltac walk_conditions :=
  split;
  [ intros k Hk; split; [|split; [|auto]]; cbn beta; bool_to_prop; auto;
    exfalso; lia
  | cbn beta; bool_to_prop; auto; exfalso; lia ].

(** The reply is a short text, copied by [strcpy] with its length in
    [size]. *)
Ltac short_reply := split; [reflexivity|simpl; lia].

(** Turn the boolean tests of the hypotheses into propositions. *)
Ltac shape_bools :=
  repeat match goal with
  | H : (_ && _) = true |- _ => apply andb_true_iff in H; destruct H
  | H : (_ || _) = true |- _ => apply orb_true_iff in H; destruct H
  | H : (_ =? _) = true |- _ => apply Z.eqb_eq in H
  | H : (_ <=? _) = true |- _ => apply Z.leb_le in H
  | H : (_ <? _) = true |- _ => apply Z.ltb_lt in H
  | H : negb _ = true |- _ => apply negb_true_iff in H
  | H : negb _ = false |- _ => apply negb_false_iff in H
  | H : (_ =? _) = false |- _ => apply Z.eqb_neq in H
  end.

(** * Properties *)

(** ** Reading and writing squares *)

Lemma with_game_id (w : world) : with_game w (game w) = w.
Proof. destruct w; reflexivity. Qed.

Lemma with_board_id (g : chess_game) : with_board g (board g) = g.
Proof. destruct g; reflexivity. Qed.

Lemma cell_lookup b r c v :
  cell b r c = Some v -> in_board r c = true /\ b !! offset r c = Some v.
Proof. unfold cell. destruct (in_board r c); [auto|discriminate]. Qed.

Lemma set_cell_Some b r c v b' :
  set_cell b r c v = Some b' -> b' = <[offset r c := v]> b.
Proof.
  unfold set_cell. destruct (in_board r c); [|discriminate].
  destruct (_ <? _)%nat; [|discriminate]. congruence.
Qed.

Lemma set_cell_id b r c v b' :
  cell b r c = Some v -> set_cell b r c v = Some b' -> b' = b.
Proof.
  intros Hc Hs. apply cell_lookup in Hc as [_ Hl].
  apply set_cell_Some in Hs. subst. apply list_insert_id. exact Hl.
Qed.

(** The two squares come back: the block leaves the world as it found it. *)
Lemma self_check_restores side sr sc er ec piece w r w' :
  self_check side sr sc er ec piece w = Some (r, w') -> w' = w.
Proof.
  unfold self_check. intros H.
  bind_inv H. rename a into temp_piece, Hbind into Htemp.
  bind_inv H. rename a into moved, Hbind into Hmoved.
  bind_inv H. rename a into b1, Hbind into Hb1.
  bind_inv H. rename a into b2, Hbind into Hb2.
  bind_inv H. clear Hbind.
  bind_inv H. rename a0 into back, Hbind into Hback.
  bind_inv H. rename a0 into b3, Hbind into Hb3.
  bind_inv H. rename a0 into b4, Hbind into Hb4.
  injection H as _ <-.
  apply cell_lookup in Htemp as [_ Htemp].
  apply cell_lookup in Hmoved as [_ Hmoved].
  apply cell_lookup in Hback as [_ Hback].
  apply set_cell_Some in Hb1, Hb2, Hb3, Hb4.
  assert (Hlen : (offset er ec < length (board (game w)))%nat)
    by (eapply lookup_lt_Some; eauto).
  assert (Hlen' : (offset sr sc < length (board (game w)))%nat)
    by (eapply lookup_lt_Some; eauto).
  assert (b4 = board (game w)) as ->;
    [|rewrite with_board_id; apply with_game_id].
  subst b4 b3 b2 b1.
  destruct (decide (offset sr sc = offset er ec)) as [Heq|Hne].
  - rewrite Heq in *.
    rewrite list_insert_insert_eq.
    rewrite list_insert_insert_eq.
    rewrite list_insert_insert_eq.
    apply list_insert_id. exact Htemp.
  - rewrite list_lookup_insert_ne in Hback by done.
    rewrite list_lookup_insert_eq in Hback by done.
    injection Hback as <-.
    rewrite list_insert_insert_eq.
    rewrite list_insert_insert_ne by done.
    rewrite list_insert_insert_eq.
    rewrite (list_insert_id _ (offset er ec)) by done.
    apply list_insert_id. exact Hmoved.
Qed.

Lemma guarded_restores side sr sc er ec piece ok w r w' :
  guarded side sr sc er ec piece ok w = Some (r, w') -> w' = w.
Proof.
  unfold guarded. destruct ok; [|congruence].
  intros H. bind_inv H. destruct a as [inCheck w1].
  apply self_check_restores in Hbind. congruence.
Qed.

Lemma cpu_finish_restores sr sc er ec piece ok w r w' :
  cpu_finish sr sc er ec piece ok w = Some (r, w') -> w' = w.
Proof.
  unfold cpu_finish. intros H. bind_inv H. destruct a as [ok1 w1].
  apply guarded_restores in Hbind. bind_inv H. congruence.
Qed.

(** The value stored by the promotion block does not depend on the draw. *)
Lemma cpu_promotion_value rnd side :
  is_char side "W" || is_char side "B" = true ->
  cpu_promotion rnd side = if is_char side "W" then PAWN else - PAWN.
Proof.
  unfold cpu_promotion. destruct (is_char side "W"); [reflexivity|].
  simpl. intros ->. reflexivity.
Qed.

Lemma far_rank_side side er :
  far_rank side er = true -> is_char side "W" || is_char side "B" = true.
Proof.
  unfold far_rank. destruct (is_char side "W"), (is_char side "B"); auto.
  rewrite !andb_false_r. discriminate.
Qed.


(** ** Squares of the board *)

Lemma in_board_iff r c : in_board r c = true <-> 0 <= r < 8 /\ 0 <= c < 8.
Proof.
  unfold in_board, BOARD_SIZE.
  rewrite !andb_true_iff, !Z.leb_le, !Z.ltb_lt. lia.
Qed.

Lemma cell_is_Some b r c :
  board_wf b -> in_board r c = true -> exists v, cell b r c = Some v.
Proof.
  intros Hwf Hin. unfold cell. rewrite Hin.
  apply in_board_iff in Hin.
  destruct (lookup_lt_is_Some_2 b (offset r c)) as [v Hv]; [|eauto].
  unfold board_wf in Hwf. rewrite Hwf. unfold offset, BOARD_SIZE. lia.
Qed.

(** ** The bound on the walking loops *)

Lemma squares_ahead_bound di dj i j :
  in_board i j = true -> 1 <= squares_ahead di dj i j <= 8.
Proof.
  intros H. apply in_board_iff in H. unfold squares_ahead, room, BOARD_SIZE.
  destruct (0 <? di), (di <? 0), (0 <? dj), (dj <? 0); lia.
Qed.

Lemma squares_ahead_step di dj i j :
  di <> 0 \/ dj <> 0 ->
  in_board i j = true -> in_board (i + di) (j + dj) = true ->
  squares_ahead di dj (i + di) (j + dj) <= squares_ahead di dj i j - 1.
Proof.
  intros Hd H H'. apply in_board_iff in H. apply in_board_iff in H'.
  unfold squares_ahead, room, BOARD_SIZE.
  destruct (Z.ltb_spec 0 di), (Z.ltb_spec di 0), (Z.ltb_spec 0 dj),
    (Z.ltb_spec dj 0); lia.
Qed.

Lemma cell_outside b i j : in_board i j = false -> cell b i j = None.
Proof. unfold cell. intros ->. reflexivity. Qed.

Section Fuel.
Variables (b : list Z) (di dj : Z).
Hypothesis moving : di <> 0 \/ dj <> 0.

Lemma path_loop_fuel cont at_end x (n : nat) : forall f1 f2 i j,
  (in_board i j = true -> squares_ahead di dj i j <= Z.of_nat n) ->
  (n < f1)%nat -> (n < f2)%nat ->
  path_loop f1 b cont at_end x di dj i j
  = path_loop f2 b cont at_end x di dj i j.
Proof using moving.
  induction n as [|n IH]; intros f1 f2 i j Hroom H1 H2;
    (destruct f1 as [|f1]; [lia|]); (destruct f2 as [|f2]; [lia|]);
    simpl; destruct (cont i j); try reflexivity;
    destruct (in_board i j) eqn:Hin;
    try (rewrite (cell_outside b i j Hin); reflexivity).
  - pose proof (squares_ahead_bound di dj i j Hin).
    specialize (Hroom eq_refl). lia.
  - destruct (cell b i j) as [v|]; [simpl|reflexivity].
    destruct (negb (v =? EMPTY)); [reflexivity|].
    apply IH; [|lia|lia].
    intros Hin'. pose proof (squares_ahead_step di dj i j moving Hin Hin').
    specialize (Hroom eq_refl). lia.
Qed.

Lemma cpu_path_loop_fuel cont (n : nat) : forall f1 f2 i j,
  (in_board i j = true -> squares_ahead di dj i j <= Z.of_nat n) ->
  (n < f1)%nat -> (n < f2)%nat ->
  cpu_path_loop f1 b cont di dj i j = cpu_path_loop f2 b cont di dj i j.
Proof using moving.
  induction n as [|n IH]; intros f1 f2 i j Hroom H1 H2;
    (destruct f1 as [|f1]; [lia|]); (destruct f2 as [|f2]; [lia|]);
    simpl; destruct (cont i j); try reflexivity;
    destruct (in_board i j) eqn:Hin;
    try (rewrite (cell_outside b i j Hin); reflexivity).
  - pose proof (squares_ahead_bound di dj i j Hin).
    specialize (Hroom eq_refl). lia.
  - destruct (cell b i j) as [v|]; [simpl|reflexivity].
    destruct (negb (v =? EMPTY)); [reflexivity|].
    apply IH; [|lia|lia].
    intros Hin'. pose proof (squares_ahead_step di dj i j moving Hin Hin').
    specialize (Hroom eq_refl). lia.
Qed.

Lemma ray_walk_fuel color (n : nat) : forall f1 f2 x y,
  (in_board x y = true -> squares_ahead di dj x y <= Z.of_nat n) ->
  (n < f1)%nat -> (n < f2)%nat ->
  ray_walk f1 b color di dj x y = ray_walk f2 b color di dj x y.
Proof using moving.
  induction n as [|n IH]; intros f1 f2 x y Hroom H1 H2;
    (destruct f1 as [|f1]; [lia|]); (destruct f2 as [|f2]; [lia|]);
    simpl; fold (in_board x y);
    destruct (in_board x y) eqn:Hin; try reflexivity.
  - pose proof (squares_ahead_bound di dj x y Hin).
    specialize (Hroom eq_refl). lia.
  - destruct (cell b x y) as [v|]; [simpl|reflexivity].
    destruct (negb (v =? EMPTY)); [reflexivity|].
    apply IH; [|lia|lia].
    intros Hin'. pose proof (squares_ahead_step di dj x y moving Hin Hin').
    specialize (Hroom eq_refl). lia.
Qed.

(** More than nine iterations are never needed. *)
Lemma nine_iterations_suffice cont at_end x color i j (extra : nat) :
  path_loop (9 + extra) b cont at_end x di dj i j
  = path_loop 9 b cont at_end x di dj i j
  /\ cpu_path_loop (9 + extra) b cont di dj i j
     = cpu_path_loop 9 b cont di dj i j
  /\ ray_walk (9 + extra) b color di dj i j = ray_walk 9 b color di dj i j.
Proof using moving.
  assert (Hroom : in_board i j = true -> squares_ahead di dj i j <= Z.of_nat 8).
  { intros Hin. pose proof (squares_ahead_bound di dj i j Hin). lia. }
  split; [|split].
  - apply (path_loop_fuel cont at_end x 8); auto; lia.
  - apply (cpu_path_loop_fuel cont 8); auto; lia.
  - apply (ray_walk_fuel color 8); auto; lia.
Qed.
End Fuel.

(** ** The walks of clear_path *)

(** The square one step further along a walk, named by its step count. *)
Lemma step_succ (i d : Z) (k : nat) :
  i + d + Z.of_nat k * d = i + Z.of_nat (S k) * d.
Proof. lia. Qed.

Lemma step_next (s d k : Z) : s + d + k * d = s + (k + 1) * d.
Proof. lia. Qed.

Section PathLoop.
Variables (b : list Z) (cont at_end : Z -> Z -> bool) (x : bool) (di dj : Z).

Lemma path_loop_blocked (n : nat) : forall (fuel : nat) (i j : Z),
  (n < fuel)%nat ->
  (forall k : nat, (k < n)%nat ->
     cont (i + Z.of_nat k * di) (j + Z.of_nat k * dj) = true
     /\ at_end (i + Z.of_nat k * di) (j + Z.of_nat k * dj) = (S k =? n)%nat
     /\ exists v,
          cell b (i + Z.of_nat k * di) (j + Z.of_nat k * dj) = Some v) ->
  (exists k : nat, (S k < n)%nat /\
     cell b (i + Z.of_nat k * di) (j + Z.of_nat k * dj) <> Some EMPTY) ->
  path_loop fuel b cont at_end x di dj i j = Some false.
Proof.
  induction n as [|n IH]; intros fuel i j Hfuel Hsq [k [Hk Hocc]]; [lia|].
  destruct fuel as [|fuel]; [lia|]. simpl.
  destruct (Hsq 0%nat ltac:(lia)) as (Hc & He & v & Hv).
  rewrite Z.mul_0_l, !Z.add_0_r in Hc, He, Hv.
  rewrite Hc, Hv. simpl.
  destruct (Z.eqb_spec v EMPTY) as [->|Hne]; simpl.
  - apply IH; [lia| |].
    + intros k' Hk'. specialize (Hsq (S k') ltac:(lia)).
      rewrite !step_succ.
      destruct Hsq as (? & Hend & ?). repeat split; auto.
    + destruct k as [|k].
      * rewrite Z.mul_0_l, !Z.add_0_r in Hocc. contradiction.
      * exists k. split; [lia|].
        rewrite !step_succ.
        exact Hocc.
  - rewrite He. destruct (Nat.eqb_spec 1 (S n)); [lia|reflexivity].
Qed.

Lemma path_loop_clear (n : nat) : forall (fuel : nat) (i j : Z) (v : Z),
  (S n < fuel)%nat ->
  (forall k : nat, (k <= n)%nat ->
     cont (i + Z.of_nat k * di) (j + Z.of_nat k * dj) = true
     /\ at_end (i + Z.of_nat k * di) (j + Z.of_nat k * dj) = (k =? n)%nat) ->
  cont (i + Z.of_nat (S n) * di) (j + Z.of_nat (S n) * dj) = false ->
  (forall k : nat, (k < n)%nat ->
     cell b (i + Z.of_nat k * di) (j + Z.of_nat k * dj) = Some EMPTY) ->
  cell b (i + Z.of_nat n * di) (j + Z.of_nat n * dj) = Some v ->
  path_loop fuel b cont at_end x di dj i j
  = Some (if v =? EMPTY then true else x).
Proof.
  induction n as [|n IH]; intros fuel i j v Hfuel Hsq Hout Hfree Hv.
  - destruct fuel as [|[|fuel]]; [lia|lia|].
    destruct (Hsq 0%nat ltac:(lia)) as (Hc & He).
    rewrite Z.mul_0_l, !Z.add_0_r in Hc, He, Hv.
    change (Z.of_nat 1) with 1 in Hout. rewrite !Z.mul_1_l in Hout.
    simpl. rewrite Hc, Hv. simpl.
    destruct (Z.eqb_spec v EMPTY); simpl.
    + rewrite Hout. reflexivity.
    + rewrite He. reflexivity.
  - destruct fuel as [|fuel]; [lia|].
    destruct (Hsq 0%nat ltac:(lia)) as (Hc & He).
    pose proof (Hfree 0%nat ltac:(lia)) as H0.
    rewrite Z.mul_0_l, !Z.add_0_r in Hc, He, H0.
    simpl. rewrite Hc, H0. simpl.
    apply IH; [lia| | | |].
    + intros k Hk. specialize (Hsq (S k) ltac:(lia)).
      rewrite !step_succ.
      exact Hsq.
    + rewrite !step_succ.
      exact Hout.
    + intros k Hk. specialize (Hfree (S k) ltac:(lia)).
      rewrite !step_succ.
      exact Hfree.
    + rewrite !step_succ.
      exact Hv.
Qed.
End PathLoop.

Lemma walk_blocked b cont at_end x sr sc di dj N :
  2 <= N <= 7 -> walks b cont at_end sr sc di dj N ->
  (exists k, 0 < k < N /\ occupied b (sr + k * di, sc + k * dj)) ->
  path_loop 9 b cont at_end x di dj (sr + di) (sc + dj) = Some false.
Proof.
  intros HN [Hw _] (k & Hk & v & Hv & Hne).
  apply (path_loop_blocked b cont at_end x di dj (Z.to_nat N)); [lia| |].
  - intros k' Hk'.
    destruct (Hw (Z.of_nat k' + 1) ltac:(lia)) as (Hc & He & Hs).
    rewrite !step_next.
    repeat split; auto. rewrite He. clear - HN Hk'.
    destruct (Z.eqb_spec (Z.of_nat k' + 1) N),
      (Nat.eqb_spec (S k') (Z.to_nat N)); try reflexivity; exfalso; lia.
  - exists (Z.to_nat (k - 1)). split; [lia|].
    rewrite Z2Nat.id by lia.
    replace (sr + di + (k - 1) * di) with (sr + k * di) by lia.
    replace (sc + dj + (k - 1) * dj) with (sc + k * dj) by lia.
    simpl in Hv. rewrite Hv. intros [= ->]. auto.
Qed.

Lemma walk_clear b cont at_end x sr sc di dj N v :
  2 <= N <= 7 -> walks b cont at_end sr sc di dj N ->
  (forall k, 0 < k < N -> vacant b (sr + k * di, sc + k * dj)) ->
  cell b (sr + N * di) (sc + N * dj) = Some v ->
  path_loop 9 b cont at_end x di dj (sr + di) (sc + dj)
  = Some (if v =? EMPTY then true else x).
Proof.
  intros HN [Hw Hout] Hfree Hv.
  apply (path_loop_clear b cont at_end x di dj (Z.to_nat (N - 1)));
    [lia| | | |].
  - intros k' Hk'.
    destruct (Hw (Z.of_nat k' + 1) ltac:(lia)) as (Hc & He & Hs).
    rewrite !step_next.
    split; auto. rewrite He. clear - HN Hk'.
    destruct (Z.eqb_spec (Z.of_nat k' + 1) N),
      (Nat.eqb_spec k' (Z.to_nat (N - 1))); try reflexivity; exfalso; lia.
  - rewrite Nat2Z.inj_succ, Z2Nat.id by lia.
    replace (sr + di + Z.succ (N - 1) * di) with (sr + (N + 1) * di) by lia.
    replace (sc + dj + Z.succ (N - 1) * dj) with (sc + (N + 1) * dj) by lia.
    exact Hout.
  - intros k' Hk'. specialize (Hfree (Z.of_nat k' + 1) ltac:(lia)).
    unfold vacant in Hfree. simpl in Hfree.
    rewrite !step_next.
    exact Hfree.
  - rewrite Z2Nat.id by lia.
    replace (sr + di + (N - 1) * di) with (sr + N * di) by lia.
    replace (sc + dj + (N - 1) * dj) with (sc + N * dj) by lia.
    exact Hv.
Qed.

(** On a line of length at least two, [clear_path] is one of its walking
    loops, started one step from the start square. *)
Lemma clear_path_walks w sr sc er ec arr :
  board_wf (board (game w)) ->
  in_board sr sc = true -> in_board er ec = true ->
  on_line sr sc er ec ->
  2 <= line_length sr sc er ec ->
  exists cont at_end,
    walks (board (game w)) cont at_end sr sc (Z.sgn (er - sr)) (Z.sgn (ec - sc))
      (line_length sr sc er ec)
    /\ clear_path w sr sc er ec arr
       = path_loop 9 (board (game w)) cont at_end (is_char (char_at arr 0) "x")
           (Z.sgn (er - sr)) (Z.sgn (ec - sc))
           (sr + Z.sgn (er - sr)) (sc + Z.sgn (ec - sc)).
Proof.
  intros Hwf Hs He Hline Hlen.
  apply in_board_iff in Hs. apply in_board_iff in He.
  unfold line_length in *. unfold clear_path.
  assert (Hcell : forall k,
            1 <= k <= Z.max (Z.abs (er - sr)) (Z.abs (ec - sc)) ->
            exists v, cell (board (game w)) (sr + k * Z.sgn (er - sr))
                        (sc + k * Z.sgn (ec - sc)) = Some v).
  { intros k Hk. apply cell_is_Some; auto. apply in_board_iff.
    destruct Hline as [(?&?&?)|[(?&?&?)|(?&?&?)]]; nia. }
  destruct Hline as [(Hr&Hc&_)|[(Hr&Hc&_)|(Hr&Hc&Hd)]].
  - (* same row *)
    subst er. rewrite Z.eqb_refl. cbn [negb andb orb].
    destruct (Z.eqb_spec sc ec); [lia|]. cbn [negb andb orb].
    destruct (Z.eqb_spec (Z.abs (ec - sc)) 1); [lia|].
    destruct (Z.ltb_spec 0 (ec - sc)).
    + replace (Z.sgn (ec - sc)) with 1 in * by lia.
      replace (Z.sgn (sr - sr)) with 0 in * by lia.
      destruct (Z.ltb_spec 1 (ec - sc)); [|lia]. cbn [negb andb orb].
      eexists _, _. split; [|rewrite Z.add_0_r; reflexivity].
      walk_conditions.
    + replace (Z.sgn (ec - sc)) with (-1) in * by lia.
      replace (Z.sgn (sr - sr)) with 0 in * by lia.
      destruct (Z.ltb_spec 1 (ec - sc)); [lia|].
      destruct (Z.ltb_spec (ec - sc) (-1)); [|lia]. cbn [negb andb orb].
      eexists _, _. split; [|rewrite Z.add_0_r; reflexivity].
      walk_conditions.
  - (* same column *)
    subst ec. destruct (Z.eqb_spec sr er); [lia|]. rewrite Z.eqb_refl.
    cbn [negb andb orb].
    destruct (Z.eqb_spec (Z.abs (er - sr)) 1); [lia|].
    destruct (Z.ltb_spec 0 (er - sr)).
    + replace (Z.sgn (er - sr)) with 1 in * by lia.
      replace (Z.sgn (sc - sc)) with 0 in * by lia.
      destruct (Z.ltb_spec 1 (er - sr)); [|lia]. cbn [negb andb orb].
      eexists _, _. split; [|rewrite Z.add_0_r; reflexivity].
      walk_conditions.
    + replace (Z.sgn (er - sr)) with (-1) in * by lia.
      replace (Z.sgn (sc - sc)) with 0 in * by lia.
      destruct (Z.ltb_spec 1 (er - sr)); [lia|].
      destruct (Z.ltb_spec (er - sr) (-1)); [|lia]. cbn [negb andb orb].
      eexists _, _. split; [|rewrite Z.add_0_r; reflexivity].
      walk_conditions.
  - (* diagonal *)
    destruct (Z.eqb_spec sr er); [lia|]. destruct (Z.eqb_spec sc ec); [lia|].
    cbn [negb andb orb].
    destruct (Z.eqb_spec (Z.abs (er - sr)) 1); [lia|]. cbn [negb andb orb].
    destruct (Z.ltb_spec 0 (er - sr)), (Z.ltb_spec 0 (ec - sc)).
    all: first [ replace (Z.sgn (er - sr)) with 1 in * by lia
               | replace (Z.sgn (er - sr)) with (-1) in * by lia ].
    all: first [ replace (Z.sgn (ec - sc)) with 1 in * by lia
               | replace (Z.sgn (ec - sc)) with (-1) in * by lia ].
    all: eexists _, _; split; [|reflexivity]; walk_conditions.
Qed.

Lemma clear_path_adjacent w sr sc er ec arr :
  on_line sr sc er ec ->
  line_length sr sc er ec = 1 ->
  clear_path w sr sc er ec arr
  = dest_rule (board (game w)) er ec (is_char (char_at arr 0) "x").
Proof.
  intros Hline Hlen. unfold line_length in Hlen. unfold clear_path.
  destruct Hline as [(Hr&Hc&_)|[(Hr&Hc&_)|(Hr&Hc&Hd)]].
  - subst er. rewrite Z.eqb_refl. destruct (Z.eqb_spec sc ec); [lia|].
    cbn [negb andb orb].
    destruct (Z.eqb_spec (Z.abs (ec - sc)) 1); [reflexivity|lia].
  - subst ec. rewrite Z.eqb_refl. destruct (Z.eqb_spec sr er); [lia|].
    cbn [negb andb orb].
    destruct (Z.eqb_spec (Z.abs (er - sr)) 1); [reflexivity|lia].
  - destruct (Z.eqb_spec sr er); [lia|]. destruct (Z.eqb_spec sc ec); [lia|].
    cbn [negb andb orb].
    destruct (Z.eqb_spec (Z.abs (er - sr)) 1); [|lia].
    destruct (Z.eqb_spec (Z.abs (ec - sc)) 1); [reflexivity|lia].
Qed.

Lemma line_square_end sr sc er ec :
  on_line sr sc er ec ->
  line_square sr sc er ec (line_length sr sc er ec) = (er, ec).
Proof.
  unfold on_line, line_square, line_length. intros H. f_equal; nia.
Qed.

Lemma line_length_pos sr sc er ec :
  on_line sr sc er ec -> 1 <= line_length sr sc er ec.
Proof. unfold on_line, line_length. lia. Qed.

(** C9.  For a start and an end square of the board on one straight or
    diagonal line: [clear_path] fails as soon as a square strictly between
    them is occupied; with these squares empty and the destination
    occupied it succeeds exactly under the capture directive [x]; with
    the destination empty it succeeds whatever the directive; and between
    adjacent squares it applies the destination rule without any walk. *)
Theorem clear_path_spec (w : world) (sr sc er ec : Z) (arr : string) :
  board_wf (board (game w)) ->
  in_board sr sc = true -> in_board er ec = true ->
  on_line sr sc er ec ->
  let b := board (game w) in
  let n := line_length sr sc er ec in
  let x := is_char (char_at arr 0) "x" in
  ((exists k, 0 < k < n /\ occupied b (line_square sr sc er ec k)) ->
     clear_path w sr sc er ec arr = Some false)
  /\ ((forall k, 0 < k < n -> vacant b (line_square sr sc er ec k)) ->
      occupied b (er, ec) ->
      clear_path w sr sc er ec arr = Some x)
  /\ ((forall k, 0 < k < n -> vacant b (line_square sr sc er ec k)) ->
      vacant b (er, ec) ->
      clear_path w sr sc er ec arr = Some true)
  /\ (n = 1 -> clear_path w sr sc er ec arr = dest_rule b er ec x).
Proof.
  intros Hwf Hs He Hline b n x.
  pose proof (line_length_pos _ _ _ _ Hline) as Hpos.
  pose proof (line_square_end _ _ _ _ Hline) as Hend.
  assert (Hn7 : n <= 7).
  { apply in_board_iff in Hs. apply in_board_iff in He.
    unfold n, line_length. lia. }
  destruct (Z.eq_dec n 1) as [H1|H1].
  - (* adjacent squares: the destination rule alone *)
    rewrite (clear_path_adjacent w sr sc er ec arr Hline H1).
    fold b x. unfold dest_rule.
    split; [|split; [|split]].
    + intros (k & Hk & _). lia.
    + intros _ (v & Hv & Hne). simpl in Hv. rewrite Hv. simpl.
      destruct (Z.eqb_spec v EMPTY); [contradiction|]. simpl.
      destruct x; reflexivity.
    + intros _ Hv. unfold vacant in Hv. simpl in Hv. rewrite Hv. reflexivity.
    + reflexivity.
  - (* a walk of at least two steps *)
    assert (Hlong : 2 <= line_length sr sc er ec) by (fold n; lia).
    destruct (clear_path_walks w sr sc er ec arr Hwf Hs He Hline Hlong)
      as (cont & at_end & Hwalk & ->).
    fold b n x in Hwalk |- *.
    unfold line_square in *. injection Hend as Hr Hc. fold n in Hr, Hc.
    split; [|split; [|split]].
    + intros Hocc. eapply walk_blocked; eauto; lia.
    + intros Hfree (v & Hv & Hne). simpl in Hv.
      rewrite (walk_clear b cont at_end x sr sc _ _ n v); auto; try lia.
      * destruct (Z.eqb_spec v EMPTY); [contradiction|reflexivity].
      * rewrite Hr, Hc. exact Hv.
    + intros Hfree Hv. unfold vacant in Hv. simpl in Hv.
      rewrite (walk_clear b cont at_end x sr sc _ _ n EMPTY); auto; try lia.
      rewrite Hr, Hc. exact Hv.
    + intros; contradiction.
Qed.

(** On the opening position the rook on a1 cannot reach a4: the pawn on
    a2 stands in between. *)
Lemma clear_path_spec_witness :
  clear_path new_game 0 0 3 0 "" = Some false.
Proof.
  refine (proj1 (clear_path_spec new_game 0 0 3 0 "" _ _ _ _) _).
  - reflexivity.
  - reflexivity.
  - reflexivity.
  - right; left. vm_compute. repeat split; discriminate.
  - exists 1. split; [vm_compute; split; reflexivity|].
    exists PAWN. split; [reflexivity|discriminate].
Defined.

(** ** The CPU validator and the scan of cpu_move *)

Lemma cpu_promote_frame rnd sr sc er ok w w1 :
  cpu_promote rnd sr sc er ok w = Some w1 ->
  w1 = w
  \/ (far_rank (cpu w) er = true
      /\ exists b', set_cell (board (game w)) sr sc (pawn_of (cpu w)) = Some b'
                    /\ w1 = with_game w (with_board (game w) b')).
Proof.
  unfold cpu_promote. destruct ok; simpl; [|left; congruence].
  destruct (far_rank (cpu w) er) eqn:Hfar; [|left; congruence].
  intros H. bind_inv H. right. split; [reflexivity|].
  rewrite (cpu_promotion_value rnd (cpu w) (far_rank_side _ _ Hfar)) in Hbind.
  exists a. split; [exact Hbind|congruence].
Qed.

(** [cpu_legal_move] leaves the world as it found it, but for the
    promotion write of a pawn move to the far rank. *)
Lemma cpu_legal_move_frame rnd sr sc er ec piece w ok w' :
  cpu_legal_move rnd sr sc er ec piece w = Some (ok, w') ->
  w' = w
  \/ (Z.abs piece = PAWN /\ far_rank (cpu w) er = true
      /\ exists b', set_cell (board (game w)) sr sc (pawn_of (cpu w)) = Some b'
                    /\ w' = with_game w (with_board (game w) b')).
Proof.
  unfold cpu_legal_move.
  destruct (Z.abs piece =? ROOK).
  { intros H. bind_inv H. left. eapply cpu_finish_restores; eauto. }
  destruct (Z.eqb_spec (Z.abs piece) PAWN) as [Hpawn|_].
  { intros H. bind_inv H. rename a into direction.
    destruct (_ && _).
    { bind_inv H. bind_inv H. apply cpu_finish_restores in H. subst w'.
      apply cpu_promote_frame in Hbind1 as [->|(Hfar & b' & Hb' & ->)];
        [left; reflexivity|right; eauto 6]. }
    destruct (_ && _).
    { bind_inv H. left. eapply cpu_finish_restores; eauto. }
    destruct (_ && _); [|left; congruence].
    bind_inv H. bind_inv H. bind_inv H.
    apply cpu_finish_restores in H. subst w'.
    apply cpu_promote_frame in Hbind2 as [->|(Hfar & b' & Hb' & ->)];
      [left; reflexivity|right; eauto 6]. }
  destruct (Z.abs piece =? KNIGHT).
  { intros H. left. eapply cpu_finish_restores; eauto. }
  destruct (Z.abs piece =? BISHOP).
  { intros H. bind_inv H. left. eapply cpu_finish_restores; eauto. }
  destruct (Z.abs piece =? QUEEN).
  { destruct (_ || _); [|left; congruence].
    intros H. bind_inv H. left. eapply cpu_finish_restores; eauto. }
  destruct (Z.abs piece =? KING).
  { destruct (_ && _); [|left; congruence].
    intros H. bind_inv H. left. eapply cpu_finish_restores; eauto. }
  left. congruence.
Qed.

(** The colour test of the scan of [cpu_move]. *)
Lemma is_char_eq c d : is_char c d = true -> c = d.
Proof. apply Ascii.eqb_eq. Qed.

(** Called as the scan calls it, on a piece of the CPU standing on the
    start square, [cpu_legal_move] changes nothing. *)
Lemma cpu_legal_move_pure rnd sr sc er ec piece w ok w' :
  cell (board (game w)) sr sc = Some piece ->
  cpu_piece w piece = true ->
  cpu_legal_move rnd sr sc er ec piece w = Some (ok, w') ->
  w' = w.
Proof.
  intros Hcell Hown H.
  apply cpu_legal_move_frame in H as [->|(Hpawn & Hfar & b' & Hb' & ->)];
    [reflexivity|].
  assert (piece = pawn_of (cpu w)) as Hp.
  { unfold cpu_piece in Hown. unfold pawn_of, PAWN in *.
    destruct (is_char (cpu w) "W") eqn:HW, (is_char (cpu w) "B") eqn:HB.
    - apply is_char_eq in HW, HB. congruence.
    - destruct (Z.ltb_spec 0 piece); [lia|discriminate].
    - destruct (Z.ltb_spec piece 0); [lia|discriminate].
    - discriminate. }
  rewrite Hp in Hcell.
  rewrite (set_cell_id _ _ _ _ _ Hcell Hb').
  rewrite with_board_id. apply with_game_id.
Qed.

Lemma cpu_promote_rnd rnd1 rnd2 sr sc er ok w :
  cpu_promote rnd1 sr sc er ok w = cpu_promote rnd2 sr sc er ok w.
Proof.
  unfold cpu_promote.
  destruct (ok && far_rank (cpu w) er) eqn:H; [|reflexivity].
  apply andb_true_iff in H as [_ H]. apply far_rank_side in H.
  rewrite !cpu_promotion_value by exact H. reflexivity.
Qed.

(** The draw has no influence on [cpu_legal_move]. *)
Lemma cpu_legal_move_rnd rnd1 rnd2 sr sc er ec piece w :
  cpu_legal_move rnd1 sr sc er ec piece w
  = cpu_legal_move rnd2 sr sc er ec piece w.
Proof.
  unfold cpu_legal_move.
  repeat rewrite (cpu_promote_rnd rnd1 rnd2).
  assert (forall b1 b2, (forall b, b1 b = b2 b) ->
    forall m : option bool, obind m b1 = @obind _ (bool * world) m b2) as Hext.
  { intros b1 b2 Hb [x|]; simpl; auto. }
  destruct (Z.abs piece =? ROOK); [reflexivity|].
  destruct (Z.abs piece =? PAWN); [|reflexivity].
  destruct (if 0 <? piece then Some 1
            else if piece <? 0 then Some (-1) else None)
    as [direction|]; [simpl|reflexivity].
  destruct (_ && _).
  { apply Hext. intros b. rewrite (cpu_promote_rnd rnd1 rnd2). reflexivity. }
  destruct (_ && _); [reflexivity|].
  destruct (_ && _); [|reflexivity].
  destruct (if is_char (cpu w) "W" then _ else _) as [b1|]; [simpl|reflexivity].
  destruct (if is_char (cpu w) "B" then _ else _) as [b2|]; [simpl|reflexivity].
  rewrite (cpu_promote_rnd rnd1 rnd2). reflexivity.
Qed.

(** *** Defined behaviour *)

Lemma obind_defined {A B} (m : option A) (k : A -> option B) :
  is_Some m -> (forall a, m = Some a -> is_Some (k a)) -> is_Some (obind m k).
Proof. intros [a ->] Hk. simpl. apply Hk. reflexivity. Qed.

Lemma cell_defined b r c :
  board_wf b -> in_board r c = true -> is_Some (cell b r c).
Proof.
  intros Hwf Hin. destruct (cell_is_Some b r c Hwf Hin) as [v ->]. eauto.
Qed.

Lemma if_defined {A} (c : bool) (x y : option A) :
  (c = true -> is_Some x) -> (c = false -> is_Some y) ->
  is_Some (if c then x else y).
Proof. destruct c; auto. Qed.

Lemma first_hit_defined {A} (body : A -> option bool) (l : list A) :
  (forall a, In a l -> is_Some (body a)) -> is_Some (first_hit body l).
Proof.
  induction l as [|a l IH]; intros Hbody; simpl; [eauto|].
  apply obind_defined; [apply Hbody; left; reflexivity|].
  intros [] _; [eauto|]. apply IH. intros a' Ha'. apply Hbody. right. exact Ha'.
Qed.

Lemma ray_walk_defined b color dx dy :
  board_wf b -> dx <> 0 \/ dy <> 0 ->
  forall x y, is_Some (ray_walk 9 b color dx dy x y).
Proof.
  intros Hwf Hmove.
  assert (Hgen : forall (n : nat) fuel x y,
             (in_board x y = true -> squares_ahead dx dy x y <= Z.of_nat n) ->
             (n < fuel)%nat ->
             is_Some (ray_walk fuel b color dx dy x y)).
  { induction n as [|n IH]; intros fuel x y Hroom Hfuel;
      (destruct fuel as [|fuel]; [lia|]); simpl; fold (in_board x y);
      destruct (in_board x y) eqn:Hin; eauto.
    - pose proof (squares_ahead_bound dx dy x y Hin).
      specialize (Hroom eq_refl). lia.
    - apply obind_defined; [apply cell_defined; auto|]. intros v _.
      destruct (negb (v =? EMPTY)); [destruct (_ || _); eauto|].
      apply IH; [|lia]. intros Hin'.
      pose proof (squares_ahead_step dx dy x y Hmove Hin Hin').
      specialize (Hroom eq_refl). lia. }
  intros x y. apply (Hgen 8%nat); [|lia].
  intros Hin. pose proof (squares_ahead_bound dx dy x y Hin). lia.
Qed.

Lemma and_then_defined (a : bool) (m : option bool) :
  (a = true -> is_Some m) -> is_Some (and_then a m).
Proof. unfold and_then. destruct a; eauto. Qed.

Lemma or_else_defined (a b0 : option bool) :
  is_Some a -> is_Some b0 -> is_Some (or_else a b0).
Proof. intros [[] ->] Hb; simpl; eauto. Qed.

Lemma read_test_defined b r c (test : Z -> bool) :
  board_wf b -> in_board r c = true ->
  is_Some (do v <- cell b r c ;; Some (test v)).
Proof. intros. apply obind_defined; [apply cell_defined; auto|eauto]. Qed.

Lemma holds_enemy_defined b color kind x y :
  board_wf b -> is_Some (holds_enemy b color kind x y).
Proof.
  intros Hwf. unfold holds_enemy. fold (in_board x y).
  destruct (in_board x y) eqn:Hin; [|eauto].
  apply or_else_defined; apply and_then_defined; intros _;
    apply read_test_defined; auto.
Qed.

Lemma pawn_test_defined b color guard pawn_row col :
  board_wf b ->
  (is_char color "B" = true -> in_board pawn_row col = true) ->
  (guard = true -> is_char color "W" = true -> in_board pawn_row col = true) ->
  is_Some (pawn_test b color guard pawn_row col).
Proof.
  intros Hwf HB HW. unfold pawn_test.
  apply or_else_defined; repeat (apply and_then_defined; intros ?);
    apply read_test_defined; auto.
Qed.

Lemma king_check_defined w g kr kc color :
  board_wf (board g) ->
  player w = "W"%char \/ player w = "B"%char ->
  (color = "W"%char ->
   in_board (snd (white_king g)) (fst (white_king g)) = true) ->
  (color = "B"%char ->
   in_board (snd (black_king g)) (fst (black_king g)) = true
   /\ 1 <= fst (black_king g) <= 6) ->
  is_Some (king_check w g kr kc color).
Proof.
  intros Hwf Hplayer HW HB. unfold king_check.
  set (kp := if is_char color "W" then _ else _).
  apply obind_defined.
  { apply first_hit_defined. intros [dx dy] Hd.
    apply ray_walk_defined; [exact Hwf|]. simpl in Hd |- *.
    repeat (destruct Hd as [[= <- <-]|Hd]; [lia|]). contradiction. }
  intros [] _; [eauto|].
  apply obind_defined.
  { apply first_hit_defined. intros d _. apply holds_enemy_defined. exact Hwf. }
  intros [] _; [eauto|].
  apply obind_defined.
  { destruct Hplayer as [-> | ->]; simpl; eauto. }
  intros pd _.
  apply obind_defined.
  { apply if_defined; [|eauto]. intros Hrow.
    apply andb_true_iff in Hrow as [Hr1 Hr2].
    apply Z.leb_le in Hr1. apply Z.ltb_lt in Hr2. unfold BOARD_SIZE in *.
    apply or_else_defined; apply pawn_test_defined; try exact Hwf.
    - intros HcB. apply is_char_eq in HcB. subst color.
      destruct (HB eq_refl) as [Hin ?]. apply in_board_iff in Hin.
      apply in_board_iff. subst kp. simpl in *. lia.
    - intros Hg HcW. apply is_char_eq in HcW. subst color.
      specialize (HW eq_refl). apply in_board_iff in HW.
      apply Z.ltb_lt in Hg. apply in_board_iff. subst kp. simpl in *. lia.
    - intros HcB. apply is_char_eq in HcB. subst color.
      destruct (HB eq_refl) as [Hin ?]. apply in_board_iff in Hin.
      apply in_board_iff. subst kp. simpl in *. lia.
    - intros Hg HcW. apply is_char_eq in HcW. subst color.
      specialize (HW eq_refl). apply in_board_iff in HW.
      apply Z.ltb_lt in Hg. apply in_board_iff. subst kp. simpl in *. lia. }
  intros [] _; [eauto|].
  apply first_hit_defined. intros d _. apply holds_enemy_defined. exact Hwf.
Qed.

Lemma set_cell_defined b r c v :
  board_wf b -> in_board r c = true ->
  exists b', set_cell b r c v = Some b' /\ board_wf b'.
Proof.
  intros Hwf Hin. unfold set_cell. rewrite Hin.
  assert (offset r c < length b)%nat as Hlt.
  { apply in_board_iff in Hin. unfold board_wf in Hwf. rewrite Hwf.
    unfold offset, BOARD_SIZE. lia. }
  apply Nat.ltb_lt in Hlt. rewrite Hlt. eexists. split; [reflexivity|].
  unfold board_wf. rewrite length_insert. exact Hwf.
Qed.

Lemma own_king_attacked_defined w side piece er ec :
  board_wf (board (game w)) ->
  player w = "W"%char \/ player w = "B"%char ->
  side = "W"%char \/ side = "B"%char ->
  king_cached (game w) side ->
  is_Some (own_king_attacked w side piece er ec).
Proof.
  intros Hwf Hplayer Hside [HW HB]. unfold own_king_attacked.
  destruct (piece =? KING); [apply king_check_defined; auto|].
  apply obind_defined; [destruct Hside as [-> | ->]; simpl; eauto|].
  intros [kr kc] _. apply king_check_defined; auto.
Qed.

Lemma self_check_defined side sr sc er ec piece w :
  board_wf (board (game w)) ->
  player w = "W"%char \/ player w = "B"%char ->
  side = "W"%char \/ side = "B"%char ->
  king_cached (game w) side ->
  in_board sr sc = true -> in_board er ec = true ->
  is_Some (self_check side sr sc er ec piece w).
Proof.
  intros Hwf Hplayer Hside Hking Hs He. unfold self_check.
  destruct (cell_is_Some _ er ec Hwf He) as [temp_piece ->].
  destruct (cell_is_Some _ sr sc Hwf Hs) as [moved ->]. cbn [obind].
  destruct (set_cell_defined _ er ec moved Hwf He) as (b1 & -> & Hwf1).
  cbn [obind].
  destruct (set_cell_defined b1 sr sc EMPTY Hwf1 Hs) as (b2 & -> & Hwf2).
  cbn [obind].
  apply obind_defined.
  { apply own_king_attacked_defined; auto. }
  intros inCheck _.
  destruct (cell_is_Some b2 er ec Hwf2 He) as [back ->]. cbn [obind].
  destruct (set_cell_defined b2 sr sc back Hwf2 Hs) as (b3 & -> & Hwf3).
  cbn [obind].
  destruct (set_cell_defined b3 er ec temp_piece Hwf3 He) as (b4 & -> & _).
  cbn [obind]. eauto.
Qed.

Lemma guarded_defined side sr sc er ec piece ok w :
  board_wf (board (game w)) ->
  player w = "W"%char \/ player w = "B"%char ->
  side = "W"%char \/ side = "B"%char ->
  king_cached (game w) side ->
  in_board sr sc = true -> in_board er ec = true ->
  is_Some (guarded side sr sc er ec piece ok w).
Proof.
  intros. unfold guarded. destruct ok; [|eauto].
  apply obind_defined; [apply self_check_defined; auto|].
  intros [inCheck w'] _. eauto.
Qed.

Lemma cpu_path_loop_defined b cont di dj (n : nat) : forall fuel i j,
  board_wf b -> (n < fuel)%nat ->
  (forall k : nat, (k < n)%nat ->
     in_board (i + Z.of_nat k * di) (j + Z.of_nat k * dj) = true) ->
  cont (i + Z.of_nat n * di) (j + Z.of_nat n * dj) = false ->
  is_Some (cpu_path_loop fuel b cont di dj i j).
Proof.
  induction n as [|n IH]; intros fuel i j Hwf Hfuel Hin Hout;
    (destruct fuel as [|fuel]; [lia|]); simpl.
  - rewrite Z.mul_0_l, !Z.add_0_r in Hout. rewrite Hout. eauto.
  - destruct (cont i j); [|eauto].
    apply obind_defined.
    { apply cell_defined; [exact Hwf|].
      specialize (Hin 0%nat ltac:(lia)).
      rewrite Z.mul_0_l, !Z.add_0_r in Hin. exact Hin. }
    intros v _. destruct (negb (v =? EMPTY)); [eauto|].
    apply IH; [exact Hwf|lia| |].
    + intros k Hk. specialize (Hin (S k) ltac:(lia)).
      rewrite !step_succ.
      exact Hin.
    + rewrite !step_succ.
      exact Hout.
Qed.

Lemma cpu_dest_ok_defined w er ec :
  board_wf (board (game w)) -> in_board er ec = true ->
  is_Some (cpu_dest_ok w er ec).
Proof.
  intros Hwf He. unfold cpu_dest_ok.
  apply obind_defined; [apply cell_defined; auto|].
  intros v _. destruct (negb _); [destruct (_ || _)|]; eauto.
Qed.

Lemma cpu_clear_path_defined w sr sc er ec :
  board_wf (board (game w)) ->
  in_board sr sc = true -> in_board er ec = true ->
  is_Some (cpu_clear_path w sr sc er ec).
Proof.
  intros Hwf Hs He. unfold cpu_clear_path.
  pose proof Hs as Hs'. pose proof He as He'.
  apply in_board_iff in Hs'. apply in_board_iff in He'.
  assert (Hdest : forall free : bool,
            is_Some (if free then cpu_dest_ok w er ec else Some false)).
  { intros []; [apply cpu_dest_ok_defined; auto|eauto]. }
  destruct (Z.eqb_spec sr er) as [Hr|Hr], (Z.eqb_spec sc ec) as [Hc|Hc];
    cbn [negb andb]; [eauto| | |].
  - (* along the row *)
    apply obind_defined; [|intros; apply Hdest].
    apply (cpu_path_loop_defined _ _ _ _ (Z.to_nat (Z.abs (ec - sc) - 1)));
      [exact Hwf|lia| |].
    + intros k Hk. apply in_board_iff.
      destruct (Z.ltb_spec 0 (ec - sc)); lia.
    + rewrite Z2Nat.id by lia. apply negb_false_iff, Z.eqb_eq.
      destruct (Z.ltb_spec 0 (ec - sc)); lia.
  - (* along the column *)
    apply obind_defined; [|intros; apply Hdest].
    apply (cpu_path_loop_defined _ _ _ _ (Z.to_nat (Z.abs (er - sr) - 1)));
      [exact Hwf|lia| |].
    + intros k Hk. apply in_board_iff.
      destruct (Z.ltb_spec 0 (er - sr)); lia.
    + rewrite Z2Nat.id by lia. apply negb_false_iff, Z.eqb_eq.
      destruct (Z.ltb_spec 0 (er - sr)); lia.
  - (* both coordinates move *)
    apply obind_defined; [|intros; apply Hdest].
    apply (cpu_path_loop_defined _ _ _ _
             (Z.to_nat (Z.min (Z.abs (er - sr)) (Z.abs (ec - sc)) - 1)));
      [exact Hwf|lia| |].
    + intros k Hk. apply in_board_iff.
      destruct (Z.ltb_spec 0 (er - sr)), (Z.ltb_spec 0 (ec - sc)); lia.
    + rewrite Z2Nat.id by lia. apply andb_false_iff.
      rewrite !negb_false_iff, !Z.eqb_eq.
      destruct (Z.ltb_spec 0 (er - sr)), (Z.ltb_spec 0 (ec - sc)); lia.
Qed.

Lemma cpu_defined_king_cached w : cpu_defined w -> king_cached (game w) (cpu w).
Proof. intros (_ & _ & _ & HW & HB & Hcol). split; auto. Qed.

Lemma cpu_defined_with_board w b' :
  cpu_defined w -> board_wf b' ->
  cpu_defined (with_game w (with_board (game w) b')).
Proof.
  intros (_ & ? & ? & ? & ? & ?) Hwf. unfold cpu_defined. simpl. auto 10.
Qed.

Lemma cpu_not_own_dest_defined er ec ok w :
  board_wf (board (game w)) -> in_board er ec = true ->
  is_Some (cpu_not_own_dest er ec ok w).
Proof.
  intros Hwf He. unfold cpu_not_own_dest.
  apply obind_defined.
  { apply and_then_defined. intros _. apply read_test_defined; auto. }
  intros own_w _. apply obind_defined.
  { apply and_then_defined. intros _. apply read_test_defined; auto. }
  intros own_b _. eauto.
Qed.

Lemma cpu_finish_defined sr sc er ec piece ok w :
  cpu_defined w -> in_board sr sc = true -> in_board er ec = true ->
  is_Some (cpu_finish sr sc er ec piece ok w).
Proof.
  intros Hdef Hs He. pose proof (cpu_defined_king_cached w Hdef) as Hking.
  destruct Hdef as (Hwf & Hplayer & Hcpu & _). unfold cpu_finish.
  apply obind_defined; [apply guarded_defined; auto|].
  intros [ok1 w1] Hg. apply guarded_restores in Hg as ->.
  apply obind_defined; [apply cpu_not_own_dest_defined; auto|]. eauto.
Qed.

Lemma cpu_promote_defined rnd sr sc er ok w :
  cpu_defined w -> in_board sr sc = true ->
  exists w1, cpu_promote rnd sr sc er ok w = Some w1 /\ cpu_defined w1.
Proof.
  intros Hdef Hs. unfold cpu_promote.
  destruct (ok && far_rank (cpu w) er); [|eauto].
  destruct (set_cell_defined (board (game w)) sr sc
              (cpu_promotion rnd (cpu w)) (proj1 Hdef) Hs) as (b' & -> & Hwf').
  cbn [obind]. eexists. split; [reflexivity|].
  apply cpu_defined_with_board; auto.
Qed.

(** On a state with defined behaviour, [cpu_legal_move] returns for all
    squares of the board. *)
Lemma cpu_legal_move_defined rnd sr sc er ec piece w :
  cpu_defined w -> in_board sr sc = true -> in_board er ec = true ->
  is_Some (cpu_legal_move rnd sr sc er ec piece w).
Proof.
  intros Hdef Hs He. pose proof (proj1 Hdef) as Hwf. unfold cpu_legal_move.
  assert (Hpath : is_Some (cpu_clear_path w sr sc er ec))
    by (apply cpu_clear_path_defined; auto).
  assert (Hfin : forall ok, is_Some (cpu_finish sr sc er ec piece ok w))
    by (intros; apply cpu_finish_defined; auto).
  destruct (Z.abs piece =? ROOK).
  { apply obind_defined; [exact Hpath|]. intros; apply Hfin. }
  destruct (Z.eqb_spec (Z.abs piece) PAWN) as [Hpawn|_].
  { apply obind_defined.
    { unfold PAWN in Hpawn.
      destruct (Z.ltb_spec 0 piece); [eauto|].
      destruct (Z.ltb_spec piece 0); [eauto|lia]. }
    intros direction _.
    destruct (_ && _).
    { apply obind_defined; [exact Hpath|]. intros ok _.
      destruct (cpu_promote_defined rnd sr sc er ok w Hdef Hs)
        as (w1 & -> & Hdef1).
      cbn [obind]. apply cpu_finish_defined; auto. }
    destruct (_ && _).
    { apply obind_defined; [exact Hpath|]. intros; apply Hfin. }
    destruct ((Z.abs (sc - ec) =? 1) && (er =? sr + direction)) eqn:Hdiag;
      [|eauto].
    apply andb_true_iff in Hdiag as [_ Hrow]. apply Z.eqb_eq in Hrow.
    rewrite <- Hrow.
    apply obind_defined.
    { apply if_defined; [|eauto]. intros _. apply read_test_defined; auto. }
    intros ok1 _. apply obind_defined.
    { apply if_defined; [|eauto]. intros _. apply read_test_defined; auto. }
    intros ok _.
    destruct (cpu_promote_defined rnd sr sc er ok w Hdef Hs)
        as (w1 & -> & Hdef1).
    cbn [obind]. apply cpu_finish_defined; auto. }
  destruct (Z.abs piece =? KNIGHT); [apply Hfin|].
  destruct (Z.abs piece =? BISHOP).
  { apply obind_defined; [exact Hpath|]. intros; apply Hfin. }
  destruct (Z.abs piece =? QUEEN).
  { destruct (_ || _); [|eauto].
    apply obind_defined; [exact Hpath|]. intros; apply Hfin. }
  destruct (Z.abs piece =? KING); [|eauto].
  destruct (_ && _); [|eauto].
  apply obind_defined; [apply cell_defined; auto|]. intros; apply Hfin.
Qed.

Lemma In_indices k : In k indices -> 0 <= k < 8.
Proof. simpl. intuition lia. Qed.

(** *** The scan *)

Section Collect.
Context {A : Type}.
Variables (body : A -> list struct_cpu_move -> world
                  -> option (list struct_cpu_move * world))
          (F : A -> list struct_cpu_move) (w : world).
Hypothesis body_pushes : forall a acc acc' w',
  body a acc w = Some (acc', w') -> w' = w /\ acc' = fold_left push (F a) acc.

Lemma collect_pushes (l : list A) : forall acc acc' w',
  collect body l acc w = Some (acc', w') ->
  w' = w /\ acc' = fold_left push (flat_map F l) acc.
Proof using body_pushes.
  induction l as [|a l IH]; intros acc acc' w' H; simpl in H.
  - injection H as <- <-. auto.
  - bind_inv H. destruct a0 as [acc1 w1].
    apply body_pushes in Hbind as [-> ->].
    apply IH in H as [-> ->]. split; [reflexivity|].
    simpl. rewrite fold_left_app. reflexivity.
Qed.

Lemma collect_defined (l : list A) :
  (forall a acc, In a l -> is_Some (body a acc w)) ->
  forall acc, is_Some (collect body l acc w).
Proof using body_pushes.
  induction l as [|a l IH]; intros Hruns acc; simpl; [eauto|].
  apply obind_defined; [apply Hruns; left; reflexivity|].
  intros [acc1 w1] Hstep. apply body_pushes in Hstep as [-> _].
  apply IH. intros a0 acc0 Ha0. apply Hruns. right. exact Ha0.
Qed.
End Collect.

Lemma try_pair_pushes rnd i j piece k l w acc acc' w' :
  cell (board (game w)) i j = Some piece ->
  cpu_piece w piece = true ->
  try_pair rnd i j piece k l acc w = Some (acc', w') ->
  w' = w
  /\ acc' = fold_left push
              (if cpu_passes w i j k l piece then [mk_cpu_move i j k l] else [])
              acc.
Proof.
  intros Hcell Hown H. unfold try_pair in H.
  bind_inv H. destruct a as [ok w1].
  unfold cpu_passes. rewrite (cpu_legal_move_rnd 0 (rnd i j k l)), Hbind.
  apply (cpu_legal_move_pure _ _ _ _ _ _ _ _ _ Hcell Hown) in Hbind as ->.
  destruct ok; injection H as <- <-; auto.
Qed.

Lemma try_square_pushes rnd i j w acc acc' w' :
  try_square Live rnd i j acc w = Some (acc', w') ->
  w' = w /\ acc' = fold_left push (candidates_from w i j) acc.
Proof.
  unfold try_square, candidates_from. cbn [deref]. intros H.
  bind_inv H. rename a into piece.
  destruct (cpu_piece w piece) eqn:Hown; [|injection H as <- <-; auto].
  revert acc acc' w' H.
  apply collect_pushes. intros k.
  apply collect_pushes. intros l acc acc' w'.
  apply try_pair_pushes; assumption.
Qed.

Lemma cpu_scan_spec rnd w moves w' :
  cpu_scan Live rnd w = Some (moves, w') ->
  w' = w /\ moves = fold_left push (cpu_candidates w) [].
Proof.
  unfold cpu_scan, cpu_candidates.
  apply collect_pushes. intros i.
  apply collect_pushes. intros j acc acc' w1.
  apply try_square_pushes.
Qed.

Lemma try_square_defined rnd i j w acc :
  cpu_defined w -> In i indices -> In j indices ->
  is_Some (try_square Live rnd i j acc w).
Proof.
  intros Hdef Hi Hj. unfold try_square. cbn [deref].
  assert (Hin : in_board i j = true)
    by (apply in_board_iff; auto using In_indices).
  destruct (cell_is_Some _ i j (proj1 Hdef) Hin) as [piece Hcell].
  rewrite Hcell. cbn [obind].
  destruct (cpu_piece w piece) eqn:Hown; [|eauto].
  apply (collect_defined _
           (fun k => flat_map (fun l =>
              if cpu_passes w i j k l piece then [mk_cpu_move i j k l] else [])
              indices)).
  - intros k acc0 acc' w'.
    apply collect_pushes. intros l acc1 acc1' w1.
    apply try_pair_pushes; assumption.
  - intros k acc0 Hk.
    apply (collect_defined _
             (fun l => if cpu_passes w i j k l piece
                       then [mk_cpu_move i j k l] else [])).
    + intros l acc1 acc1' w1. apply try_pair_pushes; assumption.
    + intros l acc1 Hl. unfold try_pair.
      apply obind_defined.
      * apply cpu_legal_move_defined; auto.
        apply in_board_iff; auto using In_indices.
      * intros [[] w1] _; eauto.
Qed.

(** On a state with defined behaviour the scan of [cpu_move] returns. *)
Lemma cpu_scan_defined rnd w :
  cpu_defined w -> is_Some (cpu_scan Live rnd w).
Proof.
  intros Hdef. unfold cpu_scan.
  apply (collect_defined _ (fun i => flat_map (candidates_from w i) indices)).
  - intros i acc acc' w'.
    apply collect_pushes. intros j acc0 acc0' w0. apply try_square_pushes.
  - intros i acc Hi.
    apply (collect_defined _ (candidates_from w i)).
    + intros j acc0 acc0' w0. apply try_square_pushes.
    + intros j acc0 Hj. apply try_square_defined; assumption.
Qed.







(** C7.  When no pair passes [cpu_legal_move] for the CPU's colour,
    [cpu_move] executes nothing: the board, the king caches, the turn and
    the check flag, as all the other globals, are what they were.  The
    call returns on every state with defined behaviour. *)
Theorem cpu_move_no_candidates rnd rand_val w :
  cpu_candidates w = [] ->
  (cpu_defined w -> cpu_move Live rnd rand_val w = Some w)
  /\ (forall w', cpu_move Live rnd rand_val w = Some w' -> w' = w).
Proof.
  intros Hnone.
  assert (Hrun : forall w', cpu_move Live rnd rand_val w = Some w' -> w' = w).
  { intros w' H. unfold cpu_move in H.
    bind_inv H. destruct a as [moves w1].
    apply cpu_scan_spec in Hbind as [-> ->].
    rewrite Hnone in H. simpl in H. congruence. }
  split; [|exact Hrun].
  intros Hdef. destruct (cpu_scan_defined rnd w Hdef) as [[moves w1] Hscan].
  unfold cpu_move. rewrite Hscan. cbn [obind].
  apply cpu_scan_spec in Hscan as [-> ->].
  rewrite Hnone. reflexivity.
Qed.

(** The lone black king in check has no move that passes, and [cpu_move]
    returns with the game untouched. *)
Lemma cpu_move_no_candidates_witness :
  cpu_move Live zero_draws 0 lone_king = Some lone_king.
Proof.
  assert (Hnone : cpu_candidates lone_king = []) by (vm_compute; reflexivity).
  apply (proj1 (cpu_move_no_candidates zero_draws 0 lone_king Hnone)).
  repeat split; try reflexivity; try (intros [=]).
  - left. reflexivity.
  - right. reflexivity.
Defined.

(** C8.  In a pawn move of the CPU to its far rank, the value the
    promotion block computes is the base pawn code of the CPU's colour
    whatever the draw, and the call, which returns on every state with
    defined behaviour, changes at most the start square, to that value. *)
Theorem cpu_promotion_writes_pawn rnd sr sc er ec piece w :
  Z.abs piece = PAWN ->
  far_rank (cpu w) er = true ->
  cpu_promotion rnd (cpu w) = pawn_of (cpu w)
  /\ (cpu_defined w -> in_board sr sc = true -> in_board er ec = true ->
      is_Some (cpu_legal_move rnd sr sc er ec piece w))
  /\ (forall ok w',
        cpu_legal_move rnd sr sc er ec piece w = Some (ok, w') ->
        w' = w
        \/ exists b',
             set_cell (board (game w)) sr sc (pawn_of (cpu w)) = Some b'
             /\ w' = with_game w (with_board (game w) b')).
Proof.
  intros _ Hfar. split; [|split].
  - apply cpu_promotion_value. exact (far_rank_side _ _ Hfar).
  - apply cpu_legal_move_defined.
  - intros ok w' H.
    apply cpu_legal_move_frame in H as [->|(_ & _ & b' & Hb' & ->)]; eauto.
Qed.

(** Under the draw 7 the promotion block of a black CPU yields the black
    pawn: the pawn on a2 that steps to a1 stays a pawn. *)
Lemma cpu_promotion_writes_pawn_witness :
  cpu_promotion 7 "B" = - PAWN
  /\ cpu_legal_move 7 1 0 0 0 (- PAWN) cpu_pawn_on_a2
     = Some (true, cpu_pawn_on_a2).
Proof.
  split; [|vm_compute; reflexivity].
  refine (proj1 (cpu_promotion_writes_pawn 7 1 0 0 0 (- PAWN) cpu_pawn_on_a2
                   _ _)).
  - reflexivity.
  - reflexivity.
Defined.

(** ** king_check *)

(** C10.  [king_check] ignores its coordinate arguments: the square it
    examines comes from the king cache of the game it is given, so the
    self-check block gets the same answer whichever destination square
    it passes. *)
Theorem king_check_ignores_position :
  (forall w g r1 c1 r2 c2 color,
     king_check w g r1 c1 color = king_check w g r2 c2 color)
  /\ (forall w side piece er ec er' ec',
        own_king_attacked w side piece er ec
        = own_king_attacked w side piece er' ec').
Proof.
  split.
  - intros. reflexivity.
  - intros. unfold own_king_attacked. destruct (piece =? KING); reflexivity.
Qed.

(** C3 fails on the code: the pawn rows are chosen by the human player's
    letter.  With the human playing White, the black pawn on d5 that
    attacks the white king on e4 goes unseen; on the same board with the
    human playing Black the same test of the same king answers "check". *)
Lemma king_check_pawn_direction_follows_player :
  king_check (mk_world pawn_attack_game "W" "B" true false)
    pawn_attack_game 3 4 "W" = Some false
  /\ king_check (mk_world pawn_attack_game "B" "W" true false)
       pawn_attack_game 3 4 "W" = Some true.
Proof. split; vm_compute; reflexivity. Qed.

(** ** legal_move *)

Lemma pawn_promotion_frame sr sc er d stray isLegal w isLegal' w1 :
  pawn_promotion sr sc er d stray isLegal w = Some (isLegal', w1) ->
  w1 = w
  \/ (far_rank (player w) er = true /\ isLegal' = true
      /\ exists sign b',
           set_cell (board (game w)) sr sc (promotion_value sign (char_at d 2))
           = Some b'
           /\ w1 = with_game w (with_board (game w) b')).
Proof.
  unfold pawn_promotion.
  destruct (isLegal && far_rank (player w) er && is_char (char_at d 0) "y"
            && negb (is_char (char_at d 2) "P")
            && negb (is_char (char_at d 2) "K")
            && is_char (char_at d 1) (player w)) eqn:Hpromo.
  - intros H. bind_inv H. rename a into sign. bind_inv H.
    injection H as <- <-. right.
    rewrite !andb_true_iff in Hpromo.
    destruct Hpromo as [[[[[-> Hfar] _] _] _] _]. eauto 8.
  - repeat match goal with
           | |- (if ?c then _ else _) = _ -> _ => destruct c
           end; intros [= <- <-]; auto.
Qed.

(** [legal_move] leaves the world as it found it, but for the promotion
    write of a pawn move to the far rank. *)
Lemma legal_move_frame sr sc er ec piece arr arr2 w ok w' :
  legal_move sr sc er ec piece arr arr2 w = Some (ok, w') ->
  w' = w
  \/ (Z.abs piece = PAWN /\ far_rank (player w) er = true
      /\ exists v b',
           set_cell (board (game w)) sr sc v = Some b'
           /\ w' = with_game w (with_board (game w) b')).
Proof.
  unfold legal_move.
  destruct (Z.abs piece =? ROOK).
  { intros H. bind_inv H. left. eapply guarded_restores; eauto. }
  destruct (Z.eqb_spec (Z.abs piece) PAWN) as [Hpawn|_].
  { destruct (_ && _).
    { intros H. bind_inv H. bind_inv H. destruct a0 as [isLegal w1].
      apply guarded_restores in H. subst w'.
      apply pawn_promotion_frame in Hbind0
        as [->|(Hfar & _ & sign & b' & Hb' & ->)]; [left|right]; eauto 8. }
    destruct (_ && _).
    { intros H. bind_inv H. left. eapply guarded_restores; eauto. }
    destruct (_ && _); [|left; congruence].
    intros H. bind_inv H. bind_inv H. destruct a0 as [isLegal w1].
    apply guarded_restores in H. subst w'.
    apply pawn_promotion_frame in Hbind0
      as [->|(Hfar & _ & sign & b' & Hb' & ->)]; [left|right]; eauto 8. }
  destruct (Z.abs piece =? KNIGHT).
  { destruct (_ || _); [|left; congruence].
    intros H. bind_inv H. bind_inv H. left. eapply guarded_restores; eauto. }
  destruct (Z.abs piece =? BISHOP).
  { intros H. bind_inv H. left. eapply guarded_restores; eauto. }
  destruct (Z.abs piece =? QUEEN).
  { destruct (_ || _); [|left; congruence].
    intros H. bind_inv H. left. eapply guarded_restores; eauto. }
  destruct (Z.abs piece =? KING).
  { destruct (_ && _); [|left; congruence].
    intros H. bind_inv H.
    destruct (_ && _); [bind_inv H; left; congruence|].
    destruct (_ && _); [left; congruence|].
    left. eapply guarded_restores; eauto. }
  left. congruence.
Qed.

(** C2 fails on the code: White, in check, asks for a7-a8 with promotion
    to a queen.  [legal_move] rejects the move, and the pawn on a7 has
    become a queen. *)
Lemma legal_move_rejection_keeps_promotion :
  exists w',
    legal_move 6 0 7 0 PAWN "yWQ" "" promotion_in_check = Some (false, w')
    /\ cell (board (game promotion_in_check)) 6 0 = Some PAWN
    /\ cell (board (game w')) 6 0 = Some QUEEN.
Proof. eexists. repeat split; vm_compute; reflexivity. Qed.

(** C5 fails on the code: the directive [yWX] names no piece kind, the
    move a7-a8 is accepted all the same, and a white pawn stands on a8. *)
Lemma legal_move_accepts_unknown_promotion_kind :
  far_rank "W" 7 = true
  /\ exists w',
       submit_move 6 0 7 0 PAWN "yWX" "" promotion_free = Some (true, w')
       /\ cell (board (game w')) 7 0 = Some PAWN.
Proof. split; [reflexivity|]. eexists. split; vm_compute; reflexivity. Qed.

(** ** perform_move and the king caches *)

Lemma new_game_king_cache_ok : king_cache_ok (game new_game).
Proof. split; reflexivity. Qed.

(** C4 fails on the code: after 1. e3 a5 2. Ke2 the white king stands on
    row 1, column 4, and its cache holds (1, 4), row first, where
    [board_init] wrote the column first; read as [king_check] reads it,
    the cache names the empty square of row 4, column 1. *)
Lemma king_cache_diverges_after_king_move :
  reachable (mk_world blank_game "W" "B" false false) king_on_e2
  /\ cell (board (game king_on_e2)) 1 4 = Some KING
  /\ white_king (game king_on_e2) = (1, 4)
  /\ ~ king_cache_ok (game king_on_e2).
Proof.
  split; [|split; [reflexivity|split; [reflexivity|]]].
  - pose (w1 := match submit_move 1 4 2 4 PAWN "" "" new_game with
                | Some (_, w) => w
                | None => new_game
                end).
    pose (w2 := match cpu_move Live zero_draws 0 w1 with
                | Some w => w
                | None => new_game
                end).
    apply (reach_human _ w2 king_on_e2 0 4 1 4 KING "" "");
      try (vm_compute; reflexivity).
    apply (reach_cpu _ w1 w2 zero_draws 0);
      try (vm_compute; reflexivity); [|vm_compute; discriminate].
    apply (reach_human _ new_game w1 1 4 2 4 PAWN "" "");
      try (vm_compute; reflexivity).
    apply reach_init.
  - intros [Hwhite _]. vm_compute in Hwhite. discriminate.
Qed.

(** ** The checkmate detectors *)

(** C1 fails on the code: both detectors execute the moves they try on
    the global game.  [cpu_checkmate], run on the live game with White
    in check, answers "no mate" and leaves the white king on d1 instead
    of e1.  [is_checkmate], run as [dev_write] runs it, on the copy taken
    before White's interposing bishop move, answers "mate" and leaves
    three white kings on the live board. *)
Lemma checkmate_search_mutates_game :
  (exists w',
     cpu_checkmate Live zero_draws rook_check = Some (false, w')
     /\ cell (board (game rook_check)) 0 4 = Some KING
     /\ cell (board (game w')) 0 4 = Some EMPTY
     /\ cell (board (game w')) 0 3 = Some KING)
  /\ submit_move 0 5 1 4 BISHOP "" ""
       (mk_world bishop_block_before "W" "B" true false)
     = Some (true, bishop_block_after)
  /\ (exists w',
        is_checkmate (Copy bishop_block_before) "" "" bishop_block_after
        = Some (true, w')
        /\ cell (board (game w')) 0 3 = Some KING
        /\ cell (board (game w')) 1 3 = Some KING
        /\ cell (board (game w')) 1 5 = Some KING
        /\ game w' <> game bishop_block_after).
Proof.
  split; [|split].
  - eexists. repeat split; vm_compute; reflexivity.
  - vm_compute. reflexivity.
  - eexists. split; [vm_compute; reflexivity|].
    repeat split; try (vm_compute; reflexivity).
    vm_compute. discriminate.
Qed.

(** * Further properties of the engine and of the driver *)

(** ** The geometry of accepted moves *)

Lemma guarded_true side sr sc er ec piece ok w w' :
  guarded side sr sc er ec piece ok w = Some (true, w') -> ok = true.
Proof. unfold guarded. destruct ok; [reflexivity|]. intros [= ]. Qed.

Lemma cpu_finish_true sr sc er ec piece ok w w' :
  cpu_finish sr sc er ec piece ok w = Some (true, w') -> ok = true.
Proof.
  unfold cpu_finish. intros H. bind_inv H. destruct a as [ok1 w1].
  bind_inv H. injection H as -> _.
  unfold cpu_not_own_dest in Hbind0.
  bind_inv Hbind0. bind_inv Hbind0. injection Hbind0 as Hok.
  destruct a0; [discriminate|]. destruct a; [discriminate|]. subst ok1.
  destruct ok; [reflexivity|].
  unfold guarded in Hbind. discriminate.
Qed.

Lemma kinds piece :
  1 <= Z.abs piece <= 6 ->
  Z.abs piece = ROOK \/ Z.abs piece = PAWN \/ Z.abs piece = KNIGHT
  \/ Z.abs piece = BISHOP \/ Z.abs piece = QUEEN \/ Z.abs piece = KING.
Proof. unfold ROOK, PAWN, KNIGHT, BISHOP, QUEEN, KING. lia. Qed.

(** *** [legal_move], kind by kind *)

Lemma legal_move_rook sr sc er ec piece arr arr2 w :
  Z.abs piece = ROOK ->
  legal_move sr sc er ec piece arr arr2 w
  = do beforeCheck <-
         (if negb (sr =? er) && negb (sc =? ec) then Some false
          else slider_directives w sr sc er ec piece arr arr2) ;;
    guarded (player w) sr sc er ec piece beforeCheck w.
Proof. intros Hp. unfold legal_move. rewrite Hp. reflexivity. Qed.

Lemma legal_move_pawn sr sc er ec piece arr arr2 w :
  Z.abs piece = PAWN ->
  legal_move sr sc er ec piece arr arr2 w
  = let direction := if 0 <? piece then 1 else -1 in
    if (sc =? ec) && (er =? sr + direction) then
      do isLegal <- clear_path w sr sc er ec arr ;;
      do ' (isLegal, w1) <-
           pawn_promotion sr sc er arr
             (is_char (char_at arr 0) "x" || is_char (char_at arr 0) "y"
              || is_char (char_at arr2 0) "y") isLegal w ;;
      guarded (player w) sr sc er ec piece isLegal w1
    else if (sc =? ec) && (er =? sr + 2 * direction)
            && (((0 <? piece) && (sr =? 1)) || ((piece <? 0) && (sr =? 6)))
    then
      do isLegal <- clear_path w sr sc er ec arr ;;
      let isLegal :=
        if isLegal && (is_char (char_at arr 0) "y"
                       || is_char (char_at arr 0) "x"
                       || is_char (char_at arr2 0) "y")
        then false else isLegal in
      guarded (player w) sr sc er ec piece isLegal w
    else if (Z.abs (sc - ec) =? 1) && (er =? sr + direction)
            && is_char (char_at arr 0) "x"
    then
      do isLegal <- valid_opponent_piece w (sr + direction) ec piece
                      (str_from 1 arr) ;;
      do ' (isLegal, w1) <-
           pawn_promotion sr sc er arr2 (is_char (char_at arr2 0) "y")
             isLegal w ;;
      guarded (player w) sr sc er ec piece isLegal w1
    else Some (false, w).
Proof. intros Hp. unfold legal_move. rewrite Hp. reflexivity. Qed.

Lemma legal_move_knight sr sc er ec piece arr arr2 w :
  Z.abs piece = KNIGHT ->
  legal_move sr sc er ec piece arr arr2 w
  = if ((Z.abs (sr - er) =? 2) && (Z.abs (sc - ec) =? 1))
       || ((Z.abs (sr - er) =? 1) && (Z.abs (sc - ec) =? 2))
    then
      do dest <- cell (board (game w)) er ec ;;
      do beforeCheck <-
           (if (dest =? EMPTY)
               && (is_char (char_at arr 0) "x" || is_char (char_at arr2 0) "y"
                   || is_char (char_at arr 0) "y")
            then Some false
            else if negb (dest =? EMPTY) && is_char (char_at arr 0) "x"
                    && negb (is_char (char_at arr2 0) "y")
            then valid_opponent_piece w er ec piece (str_from 1 arr)
            else if negb (dest =? EMPTY) then Some false
            else Some true) ;;
      guarded (player w) sr sc er ec piece beforeCheck w
    else Some (false, w).
Proof. intros Hp. unfold legal_move. rewrite Hp. reflexivity. Qed.

Lemma legal_move_bishop sr sc er ec piece arr arr2 w :
  Z.abs piece = BISHOP ->
  legal_move sr sc er ec piece arr arr2 w
  = do beforeCheck <-
         (if negb (Z.abs (sr - er) =? Z.abs (sc - ec)) then Some false
          else slider_directives w sr sc er ec piece arr arr2) ;;
    guarded (player w) sr sc er ec piece beforeCheck w.
Proof. intros Hp. unfold legal_move. rewrite Hp. reflexivity. Qed.

Lemma legal_move_queen sr sc er ec piece arr arr2 w :
  Z.abs piece = QUEEN ->
  legal_move sr sc er ec piece arr arr2 w
  = if (sr =? er) || (sc =? ec) || (Z.abs (sr - er) =? Z.abs (sc - ec))
    then
      do beforeCheck <- slider_directives w sr sc er ec piece arr arr2 ;;
      guarded (player w) sr sc er ec piece beforeCheck w
    else Some (false, w).
Proof. intros Hp. unfold legal_move. rewrite Hp. reflexivity. Qed.

Lemma legal_move_king sr sc er ec piece arr arr2 w :
  Z.abs piece = KING ->
  legal_move sr sc er ec piece arr arr2 w
  = if (Z.abs (sr - er) <=? 1) && (Z.abs (sc - ec) <=? 1) then
      do dest <- cell (board (game w)) er ec ;;
      if negb (dest =? EMPTY) && is_char (char_at arr 0) "x"
         && negb (is_char (char_at arr2 0) "y")
      then
        do r <- valid_opponent_piece w er ec piece (str_from 1 arr) ;;
        Some (r, w)
      else if negb (dest =? EMPTY)
              && (negb (is_char (char_at arr 0) "x")
                  || is_char (char_at arr2 0) "y")
      then Some (false, w)
      else guarded (player w) sr sc er ec piece true w
    else Some (false, w).
Proof. intros Hp. unfold legal_move. rewrite Hp. reflexivity. Qed.

(** *** [cpu_legal_move], kind by kind *)

Lemma cpu_legal_move_rook rnd sr sc er ec piece w :
  Z.abs piece = ROOK ->
  cpu_legal_move rnd sr sc er ec piece w
  = let beforeCheck :=
      if negb (sr =? er) && negb (sc =? ec) then false else true in
    do cp <- cpu_clear_path w sr sc er ec ;;
    let beforeCheck := if negb cp then false else beforeCheck in
    cpu_finish sr sc er ec piece beforeCheck w.
Proof. intros Hp. unfold cpu_legal_move. rewrite Hp. reflexivity. Qed.

Lemma cpu_legal_move_pawn rnd sr sc er ec piece w :
  Z.abs piece = PAWN ->
  cpu_legal_move rnd sr sc er ec piece w
  = do direction <- (if 0 <? piece then Some 1
                     else if piece <? 0 then Some (-1)
                     else None) ;;
    if (sc =? ec) && (er =? sr + direction) then
      do beforeCheck <- cpu_clear_path w sr sc er ec ;;
      do w1 <- cpu_promote rnd sr sc er beforeCheck w ;;
      cpu_finish sr sc er ec piece beforeCheck w1
    else if (sc =? ec) && (er =? sr + 2 * direction)
            && (((0 <? piece) && (sr =? 1)) || ((piece <? 0) && (sr =? 6)))
    then
      do beforeCheck <- cpu_clear_path w sr sc er ec ;;
      cpu_finish sr sc er ec piece beforeCheck w
    else if (Z.abs (sc - ec) =? 1) && (er =? sr + direction)
    then
      do beforeCheck <-
           (if is_char (cpu w) "W" then
              do v <- cell (board (game w)) (sr + direction) ec ;;
              Some (negb (0 <=? v))
            else Some true) ;;
      do beforeCheck <-
           (if is_char (cpu w) "B" then
              do v <- cell (board (game w)) (sr + direction) ec ;;
              Some (negb (v <=? 0))
            else Some beforeCheck) ;;
      do w1 <- cpu_promote rnd sr sc er beforeCheck w ;;
      cpu_finish sr sc er ec piece beforeCheck w1
    else Some (false, w).
Proof. intros Hp. unfold cpu_legal_move. rewrite Hp. reflexivity. Qed.

Lemma cpu_legal_move_knight rnd sr sc er ec piece w :
  Z.abs piece = KNIGHT ->
  cpu_legal_move rnd sr sc er ec piece w
  = cpu_finish sr sc er ec piece
      (((Z.abs (sr - er) =? 2) && (Z.abs (sc - ec) =? 1))
       || ((Z.abs (sr - er) =? 1) && (Z.abs (sc - ec) =? 2))) w.
Proof. intros Hp. unfold cpu_legal_move. rewrite Hp. reflexivity. Qed.

Lemma cpu_legal_move_bishop rnd sr sc er ec piece w :
  Z.abs piece = BISHOP ->
  cpu_legal_move rnd sr sc er ec piece w
  = let beforeCheck :=
      if negb (Z.abs (sr - er) =? Z.abs (sc - ec)) then false else true in
    do cp <- cpu_clear_path w sr sc er ec ;;
    let beforeCheck := if negb cp then false else beforeCheck in
    cpu_finish sr sc er ec piece beforeCheck w.
Proof. intros Hp. unfold cpu_legal_move. rewrite Hp. reflexivity. Qed.

Lemma cpu_legal_move_queen rnd sr sc er ec piece w :
  Z.abs piece = QUEEN ->
  cpu_legal_move rnd sr sc er ec piece w
  = if (sr =? er) || (sc =? ec) || (Z.abs (sr - er) =? Z.abs (sc - ec))
    then
      do cp <- cpu_clear_path w sr sc er ec ;;
      cpu_finish sr sc er ec piece cp w
    else Some (false, w).
Proof. intros Hp. unfold cpu_legal_move. rewrite Hp. reflexivity. Qed.

Lemma cpu_legal_move_king rnd sr sc er ec piece w :
  Z.abs piece = KING ->
  cpu_legal_move rnd sr sc er ec piece w
  = if (Z.abs (sr - er) <=? 1) && (Z.abs (sc - ec) <=? 1) then
      do dest <- cell (board (game w)) er ec ;;
      let beforeCheck :=
        if negb (dest =? EMPTY)
           && ((is_char (cpu w) "W" && (0 <? dest))
               || (is_char (cpu w) "B" && (dest <? 0)))
        then false else true in
      cpu_finish sr sc er ec piece beforeCheck w
    else Some (false, w).
Proof. intros Hp. unfold cpu_legal_move. rewrite Hp. reflexivity. Qed.

Lemma cpu_pawn_direction piece direction :
  (if 0 <? piece then Some 1 else if piece <? 0 then Some (-1) else None)
  = Some direction ->
  direction = pawn_direction_of piece /\ (direction = 1 \/ direction = -1).
Proof.
  unfold pawn_direction_of.
  destruct (0 <? piece); [intros [= <-]; auto|].
  destruct (piece <? 0); [intros [= <-]; auto|discriminate].
Qed.

Lemma legal_move_shape sr sc er ec piece arr arr2 w w' :
  1 <= Z.abs piece <= 6 ->
  legal_move sr sc er ec piece arr arr2 w = Some (true, w') ->
  move_shape piece sr sc er ec.
Proof.
  intros Hkind H. unfold move_shape, pawn_direction_of.
  destruct (kinds piece Hkind) as [Hp|[Hp|[Hp|[Hp|[Hp|Hp]]]]].
  - rewrite legal_move_rook in H by exact Hp.
    bind_inv H. apply guarded_true in H. subst a.
    destruct (negb (sr =? er) && negb (sc =? ec)) eqn:Hs; [discriminate|].
    left. split; [exact Hp|].
    destruct (Z.eqb_spec sr er), (Z.eqb_spec sc ec); auto; discriminate.
  - rewrite legal_move_pawn in H by exact Hp. cbv zeta in H.
    do 5 right. split; [exact Hp|].
    destruct ((sc =? ec) && (er =? sr + (if 0 <? piece then 1 else -1)))
      eqn:H1; [shape_bools; auto|].
    destruct ((sc =? ec) && (er =? sr + 2 * (if 0 <? piece then 1 else -1))
              && ((0 <? piece) && (sr =? 1) || (piece <? 0) && (sr =? 6)))
      eqn:H2; [shape_bools; auto 10|].
    destruct ((Z.abs (sc - ec) =? 1)
              && (er =? sr + (if 0 <? piece then 1 else -1))
              && is_char (char_at arr 0) "x") eqn:H3; [|discriminate].
    shape_bools; auto.
  - rewrite legal_move_knight in H by exact Hp.
    do 3 right. left. split; [exact Hp|].
    destruct ((Z.abs (sr - er) =? 2) && (Z.abs (sc - ec) =? 1)
              || (Z.abs (sr - er) =? 1) && (Z.abs (sc - ec) =? 2)) eqn:Hs;
      [|discriminate].
    shape_bools; auto.
  - rewrite legal_move_bishop in H by exact Hp.
    bind_inv H. apply guarded_true in H. subst a.
    destruct (negb (Z.abs (sr - er) =? Z.abs (sc - ec))) eqn:Hs;
      [discriminate|].
    right. left. shape_bools. auto.
  - rewrite legal_move_queen in H by exact Hp.
    do 2 right. left. split; [exact Hp|].
    destruct ((sr =? er) || (sc =? ec)
              || (Z.abs (sr - er) =? Z.abs (sc - ec))) eqn:Hs; [|discriminate].
    shape_bools; auto.
  - rewrite legal_move_king in H by exact Hp.
    do 4 right. left. split; [exact Hp|].
    destruct ((Z.abs (sr - er) <=? 1) && (Z.abs (sc - ec) <=? 1)) eqn:Hs;
      [|discriminate].
    shape_bools; auto.
Qed.

(** X1.  [legal_move] accepts a move of a rook, bishop, queen, knight,
    king or pawn only if the move has the geometry of that kind of piece;
    for a pawn the direction follows the sign of the piece code and the
    double step starts on row 1 (White) or row 6 (Black). *)
Theorem legal_move_accepts_only_piece_geometry
    sr sc er ec piece arr arr2 w w' :
  1 <= Z.abs piece <= 6 ->
  legal_move sr sc er ec piece arr arr2 w = Some (true, w') ->
  move_shape piece sr sc er ec.
Proof. apply legal_move_shape. Qed.

(** The knight move b1-c3 of the opening position is accepted. *)
Lemma legal_move_accepts_only_piece_geometry_witness :
  move_shape KNIGHT 0 1 2 2.
Proof.
  destruct (legal_move 0 1 2 2 KNIGHT "" "" new_game) as [[[] w']|] eqn:H;
    try (vm_compute in H; discriminate).
  apply (legal_move_accepts_only_piece_geometry 0 1 2 2 KNIGHT "" ""
           new_game w'); [unfold KNIGHT; lia|exact H].
Defined.

Lemma cpu_legal_move_shape rnd sr sc er ec piece w w' :
  1 <= Z.abs piece <= 6 ->
  cpu_legal_move rnd sr sc er ec piece w = Some (true, w') ->
  move_shape piece sr sc er ec.
Proof.
  intros Hkind H. unfold move_shape.
  destruct (kinds piece Hkind) as [Hp|[Hp|[Hp|[Hp|[Hp|Hp]]]]].
  - rewrite cpu_legal_move_rook in H by exact Hp. cbv zeta in H.
    bind_inv H. apply cpu_finish_true in H.
    destruct (negb (sr =? er) && negb (sc =? ec)) eqn:Hs;
      [destruct (negb a); discriminate|].
    left. split; [exact Hp|].
    destruct (Z.eqb_spec sr er), (Z.eqb_spec sc ec); auto; discriminate.
  - rewrite cpu_legal_move_pawn in H by exact Hp.
    do 5 right. split; [exact Hp|].
    bind_inv H. rename a into direction.
    apply cpu_pawn_direction in Hbind as [<- _].
    destruct ((sc =? ec) && (er =? sr + direction)) eqn:H1;
      [shape_bools; auto|].
    destruct ((sc =? ec) && (er =? sr + 2 * direction)
              && ((0 <? piece) && (sr =? 1) || (piece <? 0) && (sr =? 6)))
      eqn:H2; [shape_bools; auto 10|].
    destruct ((Z.abs (sc - ec) =? 1) && (er =? sr + direction)) eqn:H3;
      [|discriminate].
    shape_bools; auto.
  - rewrite cpu_legal_move_knight in H by exact Hp.
    apply cpu_finish_true in H.
    do 3 right. left. split; [exact Hp|]. shape_bools; auto.
  - rewrite cpu_legal_move_bishop in H by exact Hp. cbv zeta in H.
    bind_inv H. apply cpu_finish_true in H.
    destruct (negb (Z.abs (sr - er) =? Z.abs (sc - ec))) eqn:Hs;
      [destruct (negb a); discriminate|].
    right. left. shape_bools. auto.
  - rewrite cpu_legal_move_queen in H by exact Hp.
    do 2 right. left. split; [exact Hp|].
    destruct ((sr =? er) || (sc =? ec)
              || (Z.abs (sr - er) =? Z.abs (sc - ec))) eqn:Hs; [|discriminate].
    shape_bools; auto.
  - rewrite cpu_legal_move_king in H by exact Hp.
    do 4 right. left. split; [exact Hp|].
    destruct ((Z.abs (sr - er) <=? 1) && (Z.abs (sc - ec) <=? 1)) eqn:Hs;
      [|discriminate].
    shape_bools; auto.
Qed.

(** X7.  [cpu_legal_move] accepts a move of a rook, bishop, queen,
    knight, king or pawn only if the move has the geometry of that kind
    of piece. *)
Theorem cpu_legal_move_accepts_only_piece_geometry
    rnd sr sc er ec piece w w' :
  1 <= Z.abs piece <= 6 ->
  cpu_legal_move rnd sr sc er ec piece w = Some (true, w') ->
  move_shape piece sr sc er ec.
Proof. apply cpu_legal_move_shape. Qed.

(** The knight move b8-c6 of the opening position passes. *)
Lemma cpu_legal_move_accepts_only_piece_geometry_witness :
  move_shape (- KNIGHT) 7 1 5 2.
Proof.
  destruct (cpu_legal_move 0 7 1 5 2 (- KNIGHT) new_game) as [[[] w']|] eqn:H;
    try (vm_compute in H; discriminate).
  apply (cpu_legal_move_accepts_only_piece_geometry 0 7 1 5 2 (- KNIGHT)
           new_game w'); [unfold KNIGHT; lia|exact H].
Defined.

(** ** What perform_move writes *)

Lemma offset_inj r c r' c' :
  in_board r c = true -> in_board r' c' = true ->
  offset r c = offset r' c' -> r = r' /\ c = c'.
Proof.
  intros H H' Heq. apply in_board_iff in H. apply in_board_iff in H'.
  unfold offset, BOARD_SIZE in Heq. lia.
Qed.

Lemma set_cell_same b r c v b' :
  set_cell b r c v = Some b' -> cell b' r c = Some v.
Proof.
  unfold set_cell, cell. destruct (in_board r c); [|discriminate].
  destruct (Nat.ltb_spec (offset r c) (length b)); [|discriminate].
  intros [= <-]. apply list_lookup_insert_eq. exact H.
Qed.

Lemma set_cell_other b r c v b' r' c' :
  set_cell b r c v = Some b' -> (r', c') <> (r, c) ->
  cell b' r' c' = cell b r' c'.
Proof.
  intros Hs Hne. unfold cell.
  destruct (in_board r' c') eqn:Hin'; [|reflexivity].
  pose proof Hs as Hs'. unfold set_cell in Hs'.
  destruct (in_board r c) eqn:Hin; [|discriminate].
  apply set_cell_Some in Hs. subst b'.
  apply list_lookup_insert_ne. intros Heq.
  destruct (offset_inj _ _ _ _ Hin Hin' Heq). congruence.
Qed.

Lemma set_cell_length b r c v b' :
  set_cell b r c v = Some b' -> length b' = length b.
Proof. intros H. apply set_cell_Some in H. subst. apply length_insert. Qed.

Lemma perform_move_frame sr sc er ec piece w w' :
  perform_move sr sc er ec piece w = Some w' ->
  cell (board (game w')) sr sc = Some EMPTY
  /\ ((sr, sc) <> (er, ec) -> cell (board (game w')) er ec = Some piece)
  /\ (forall r c, (r, c) <> (sr, sc) -> (r, c) <> (er, ec) ->
        cell (board (game w')) r c = cell (board (game w)) r c)
  /\ length (board (game w')) = length (board (game w))
  /\ current_turn (game w') = - current_turn (game w)
  /\ player w' = player w /\ cpu w' = cpu w
  /\ game_init w' = game_init w /\ checkmate w' = checkmate w.
Proof.
  unfold perform_move. intros H.
  bind_inv H. bind_inv H. rename a0 into b1, Hbind0 into Hb1.
  bind_inv H. rename a0 into b2, Hbind0 into Hb2.
  bind_inv H. bind_inv H. destruct a1 as [king_row king_col].
  bind_inv H. injection H as <-. cbn.
  split; [eapply set_cell_same; eauto|].
  split.
  { intros Hne. rewrite (set_cell_other _ _ _ _ _ _ _ Hb2) by congruence.
    eapply set_cell_same; eauto. }
  split.
  { intros r c Hs He.
    rewrite (set_cell_other _ _ _ _ _ _ _ Hb2) by assumption.
    apply (set_cell_other _ _ _ _ _ _ _ Hb1). assumption. }
  split.
  { rewrite (set_cell_length _ _ _ _ _ Hb2). eapply set_cell_length; eauto. }
  repeat split; reflexivity.
Qed.

(** X5.  [perform_move] empties the start square, puts [piece] on the end
    square when it is another square, leaves every other square, the
    colour letters, [game_init] and [checkmate] as they are, and negates
    the turn. *)
Theorem perform_move_effect sr sc er ec piece w w' :
  perform_move sr sc er ec piece w = Some w' ->
  cell (board (game w')) sr sc = Some EMPTY
  /\ ((sr, sc) <> (er, ec) -> cell (board (game w')) er ec = Some piece)
  /\ (forall r c, (r, c) <> (sr, sc) -> (r, c) <> (er, ec) ->
        cell (board (game w')) r c = cell (board (game w)) r c)
  /\ length (board (game w')) = length (board (game w))
  /\ current_turn (game w') = - current_turn (game w)
  /\ player w' = player w /\ cpu w' = cpu w
  /\ game_init w' = game_init w /\ checkmate w' = checkmate w.
Proof. apply perform_move_frame. Qed.

(** The move e2-e4 on the opening position. *)
Lemma perform_move_effect_witness :
  exists w', perform_move 1 4 3 4 PAWN new_game = Some w'
    /\ cell (board (game w')) 1 4 = Some EMPTY
    /\ cell (board (game w')) 3 4 = Some PAWN
    /\ current_turn (game w') = -1.
Proof.
  destruct (perform_move 1 4 3 4 PAWN new_game) as [w'|] eqn:H;
    [|vm_compute in H; discriminate].
  exists w'. split; [reflexivity|].
  destruct (perform_move_effect 1 4 3 4 PAWN new_game w' H)
    as (Hs & He & _ & _ & Ht & _).
  split; [exact Hs|]. split; [apply He; discriminate|exact Ht].
Defined.

Lemma legal_move_turn sr sc er ec piece arr arr2 w ok w' :
  legal_move sr sc er ec piece arr arr2 w = Some (ok, w') ->
  current_turn (game w') = current_turn (game w)
  /\ white_king (game w') = white_king (game w)
  /\ black_king (game w') = black_king (game w)
  /\ check (game w') = check (game w)
  /\ player w' = player w /\ cpu w' = cpu w
  /\ game_init w' = game_init w /\ checkmate w' = checkmate w
  /\ length (board (game w')) = length (board (game w)).
Proof.
  intros H.
  apply legal_move_frame in H as [->|(_ & _ & v & b' & Hb' & ->)].
  - repeat split; reflexivity.
  - cbn. repeat split; try reflexivity. eapply set_cell_length; eauto.
Qed.

(** X6.  A move from a square to the same square, once [legal_move] has
    accepted it, makes command 02 erase the piece: [perform_move] leaves
    the square empty and passes the turn. *)
Theorem null_move_erases_piece r c piece arr arr2 w w' :
  submit_move r c r c piece arr arr2 w = Some (true, w') ->
  cell (board (game w')) r c = Some EMPTY
  /\ current_turn (game w') = - current_turn (game w).
Proof.
  unfold submit_move. intros H. bind_inv H. destruct a as [ok w1].
  destruct ok; [|discriminate].
  bind_inv H. bind_inv H. injection H as <-.
  apply legal_move_turn in Hbind as (Ht & _).
  apply perform_move_frame in Hbind1 as (Hs & _ & _ & _ & Ht' & _).
  split; [exact Hs|]. rewrite Ht', Ht. reflexivity.
Qed.

(** The rook on a1 of the opening position, moved from a1 to a1. *)
Lemma null_move_erases_piece_witness :
  cell (board (game new_game)) 0 0 = Some ROOK
  /\ exists w', submit_move 0 0 0 0 ROOK "" "" new_game = Some (true, w')
       /\ cell (board (game w')) 0 0 = Some EMPTY
       /\ current_turn (game w') = -1.
Proof.
  split; [reflexivity|].
  destruct (submit_move 0 0 0 0 ROOK "" "" new_game) as [[[] w']|] eqn:H;
    try (vm_compute in H; discriminate).
  exists w'. split; [reflexivity|].
  exact (null_move_erases_piece 0 0 ROOK "" "" new_game w' H).
Defined.

(** ** Paths and captures of legal_move *)

Lemma between_vacant_or_occupied b sr sc di dj (n : nat) :
  (forall k, 0 < k < Z.of_nat n + 1 ->
     exists v, cell b (sr + k * di) (sc + k * dj) = Some v) ->
  (forall k, 0 < k < Z.of_nat n + 1 -> vacant b (sr + k * di, sc + k * dj))
  \/ (exists k, 0 < k < Z.of_nat n + 1
                /\ occupied b (sr + k * di, sc + k * dj)).
Proof.
  induction n as [|n IH]; intros Hcells.
  - left. intros k Hk. lia.
  - destruct IH as [Hfree|(k & Hk & Hocc)].
    + intros k Hk. apply Hcells. lia.
    + destruct (Hcells (Z.of_nat (S n))) as [v Hv]; [lia|].
      destruct (Z.eq_dec v EMPTY) as [->|Hne].
      * left. intros k Hk.
        destruct (Z.eq_dec k (Z.of_nat (S n))) as [->|]; [exact Hv|].
        apply Hfree. lia.
      * right. exists (Z.of_nat (S n)). split; [lia|]. exists v. auto.
    + right. exists k. split; [lia|exact Hocc].
Qed.

(** What a successful [clear_path] has found on the board. *)
Lemma clear_path_true w sr sc er ec arr :
  board_wf (board (game w)) ->
  in_board sr sc = true -> in_board er ec = true ->
  on_line sr sc er ec ->
  clear_path w sr sc er ec arr = Some true ->
  (forall k, 0 < k < line_length sr sc er ec ->
     vacant (board (game w)) (line_square sr sc er ec k))
  /\ (vacant (board (game w)) (er, ec)
      \/ is_char (char_at arr 0) "x" = true).
Proof.
  intros Hwf Hs He Hline Hcp.
  pose proof (line_length_pos _ _ _ _ Hline) as Hpos.
  pose proof (line_square_end _ _ _ _ Hline) as Hend.
  destruct (cell_is_Some _ er ec Hwf He) as [v Hv].
  assert (Hn7 : line_length sr sc er ec <= 7).
  { apply in_board_iff in Hs. apply in_board_iff in He.
    unfold line_length. lia. }
  destruct (Z.eq_dec (line_length sr sc er ec) 1) as [H1|H1].
  - rewrite (clear_path_adjacent w sr sc er ec arr Hline H1) in Hcp.
    split; [intros k Hk; lia|].
    unfold dest_rule in Hcp. rewrite Hv in Hcp. cbn [obind] in Hcp.
    injection Hcp as Hcp. unfold vacant. cbn [fst snd]. rewrite Hv.
    destruct (Z.eqb_spec v EMPTY) as [Hv0|Hv0]; [left; congruence|].
    right. destruct (is_char (char_at arr 0) "x"); [reflexivity|discriminate].
  - assert (Hlong : 2 <= line_length sr sc er ec) by lia.
    destruct (clear_path_walks w sr sc er ec arr Hwf Hs He Hline Hlong)
      as (cont & at_end & Hwalk & Heq).
    rewrite Heq in Hcp. clear Heq.
    unfold line_square in *. injection Hend as Hr Hc.
    set (n := line_length sr sc er ec) in *.
    destruct (between_vacant_or_occupied (board (game w)) sr sc
                (Z.sgn (er - sr)) (Z.sgn (ec - sc)) (Z.to_nat (n - 1)))
      as [Hfree|Hocc].
    + intros k Hk. destruct Hwalk as [Hw _].
      destruct (Hw k) as (_ & _ & Hc'); [clear - Hk Hlong; lia|exact Hc'].
    + assert (Hfree' : forall k, 0 < k < n ->
                vacant (board (game w))
                  (sr + k * Z.sgn (er - sr), sc + k * Z.sgn (ec - sc))).
      { intros k Hk. apply Hfree. clear - Hk Hlong. lia. }
      split; [exact Hfree'|].
      rewrite (walk_clear _ cont at_end _ sr sc _ _ n v) in Hcp;
        auto; [|rewrite Hr, Hc; exact Hv].
      unfold vacant. cbn [fst snd]. rewrite Hv.
      destruct (Z.eqb_spec v EMPTY) as [Hv0|Hv0]; [left; congruence|].
      right. congruence.
    + exfalso.
      assert (Hocc' : exists k, 0 < k < n /\
                occupied (board (game w))
                  (sr + k * Z.sgn (er - sr), sc + k * Z.sgn (ec - sc))).
      { destruct Hocc as (k & Hk & Ho). exists k.
        split; [clear - Hk Hlong; lia|exact Ho]. }
      rewrite (walk_blocked _ cont at_end _ sr sc _ _ n) in Hcp; auto.
      discriminate.
Qed.

Lemma slider_directives_true w sr sc er ec piece arr arr2 :
  slider_directives w sr sc er ec piece arr arr2 = Some true ->
  clear_path w sr sc er ec arr = Some true
  /\ (is_char (char_at arr 0) "x" = true ->
      valid_opponent_piece w er ec piece (str_from 1 arr) = Some true).
Proof.
  unfold slider_directives. intros H. bind_inv H.
  destruct a; [|discriminate]. cbn [negb] in H.
  split; [reflexivity|]. intros Hx. rewrite Hx in H.
  destruct (is_char (char_at arr 0) "y" || is_char (char_at arr2 0) "y")
    eqn:Hy; [discriminate|].
  apply orb_false_iff in Hy as [_ Hy]. rewrite Hy in H. exact H.
Qed.

Lemma shape_on_line piece sr sc er ec :
  Z.abs piece <> KNIGHT -> (sr, sc) <> (er, ec) ->
  move_shape piece sr sc er ec -> on_line sr sc er ec.
Proof.
  unfold move_shape, on_line, pawn_direction_of, KNIGHT, ROOK, BISHOP, QUEEN,
    KING, PAWN.
  intros Hk Hne Hshape.
  assert (sr <> er \/ sc <> ec) as Hd.
  { destruct (Z.eq_dec sr er), (Z.eq_dec sc ec); auto. congruence. }
  destruct (0 <? piece); lia.
Qed.

(** X2.  A rook, bishop, queen, king or pawn move between two squares of
    the board that [legal_move] accepts passes over vacant squares only. *)
Theorem legal_move_never_jumps sr sc er ec piece arr arr2 w w' :
  board_wf (board (game w)) ->
  in_board sr sc = true -> in_board er ec = true ->
  1 <= Z.abs piece <= 6 -> Z.abs piece <> KNIGHT ->
  (sr, sc) <> (er, ec) ->
  legal_move sr sc er ec piece arr arr2 w = Some (true, w') ->
  forall k, 0 < k < line_length sr sc er ec ->
    vacant (board (game w)) (line_square sr sc er ec k).
Proof.
  intros Hwf Hs He Hkind Hnk Hne H.
  pose proof (legal_move_shape _ _ _ _ _ _ _ _ _ Hkind H) as Hshape.
  pose proof (shape_on_line _ _ _ _ _ Hnk Hne Hshape) as Hline.
  assert (Hcp : clear_path w sr sc er ec arr = Some true
                \/ line_length sr sc er ec = 1).
  { clear Hshape.
    destruct (kinds piece Hkind) as [Hp|[Hp|[Hp|[Hp|[Hp|Hp]]]]].
    - rewrite legal_move_rook in H by exact Hp.
      bind_inv H. apply guarded_true in H. subst a.
      destruct (negb (sr =? er) && negb (sc =? ec)); [discriminate|].
      left. apply slider_directives_true in Hbind. tauto.
    - rewrite legal_move_pawn in H by exact Hp. cbv zeta in H.
      destruct ((sc =? ec) && (er =? sr + (if 0 <? piece then 1 else -1)))
        eqn:H1.
      { right. shape_bools. unfold line_length. destruct (0 <? piece); lia. }
      destruct ((sc =? ec) && (er =? sr + 2 * (if 0 <? piece then 1 else -1))
                && ((0 <? piece) && (sr =? 1) || (piece <? 0) && (sr =? 6)))
        eqn:H2.
      { left. bind_inv H. apply guarded_true in H.
        destruct a; [reflexivity|discriminate]. }
      destruct ((Z.abs (sc - ec) =? 1)
                && (er =? sr + (if 0 <? piece then 1 else -1))
                && is_char (char_at arr 0) "x") eqn:H3; [|discriminate].
      right. shape_bools. unfold line_length. destruct (0 <? piece); lia.
    - contradiction.
    - rewrite legal_move_bishop in H by exact Hp.
      bind_inv H. apply guarded_true in H. subst a.
      destruct (negb (Z.abs (sr - er) =? Z.abs (sc - ec))); [discriminate|].
      left. apply slider_directives_true in Hbind. tauto.
    - rewrite legal_move_queen in H by exact Hp.
      destruct ((sr =? er) || (sc =? ec)
                || (Z.abs (sr - er) =? Z.abs (sc - ec))); [|discriminate].
      bind_inv H. apply guarded_true in H. subst a.
      left. apply slider_directives_true in Hbind. tauto.
    - rewrite legal_move_king in H by exact Hp.
      destruct ((Z.abs (sr - er) <=? 1) && (Z.abs (sc - ec) <=? 1)) eqn:Hs1;
        [|discriminate].
      right. shape_bools. unfold line_length, on_line in *. lia. }
  destruct Hcp as [Hcp|H1]; [|intros k Hk; lia].
  apply (clear_path_true w sr sc er ec arr Hwf Hs He Hline Hcp).
Qed.

(** The bishop move f1-c4 after 1. e4 d5 passes over e2 and d3. *)
Lemma legal_move_never_jumps_witness :
  vacant (board (game pawns_face)) (line_square 0 5 3 2 1)
  /\ vacant (board (game pawns_face)) (line_square 0 5 3 2 2).
Proof.
  destruct (legal_move 0 5 3 2 BISHOP "" "" pawns_face) as [[[] w']|] eqn:H;
    try (vm_compute in H; discriminate).
  assert (Hfree : forall k, 0 < k < line_length 0 5 3 2 ->
            vacant (board (game pawns_face)) (line_square 0 5 3 2 k)).
  { apply (legal_move_never_jumps 0 5 3 2 BISHOP "" "" pawns_face w').
    - reflexivity.
    - reflexivity.
    - reflexivity.
    - unfold BISHOP. lia.
    - discriminate.
    - discriminate.
    - exact H. }
  split; apply Hfree; vm_compute; split; reflexivity.
Defined.

Lemma char_at_str_from (k : nat) : forall (s : string) (n : nat),
  char_at (str_from k s) n = char_at s (k + n).
Proof.
  induction k as [|k IH]; intros s n; [reflexivity|].
  destruct s as [|c s]; [destruct n; reflexivity|].
  simpl. rewrite IH. reflexivity.
Qed.








(** ** The self-check test in both validators *)

Lemma guarded_accepts side sr sc er ec piece ok w w' :
  guarded side sr sc er ec piece ok w = Some (true, w') ->
  ok = true /\ w' = w
  /\ exists b2,
       after_move (board (game w)) sr sc er ec = Some b2
       /\ own_king_attacked (with_game w (with_board (game w) b2)) side
            piece er ec = Some false.
Proof.
  intros H. split; [eapply guarded_true; eauto|].
  split; [eapply guarded_restores; eauto|].
  unfold guarded in H. destruct ok; [|discriminate].
  bind_inv H. destruct a as [inCheck w1]. injection H as Hin _.
  destruct inCheck; [discriminate|].
  unfold self_check in Hbind.
  bind_inv Hbind. bind_inv Hbind. bind_inv Hbind. bind_inv Hbind.
  bind_inv Hbind. bind_inv Hbind. bind_inv Hbind. bind_inv Hbind.
  injection Hbind as -> _.
  exists a2. split; [|exact Hbind4].
  unfold after_move. rewrite Hbind1. cbn [obind]. rewrite Hbind2.
  cbn [obind]. exact Hbind3.
Qed.



(** X10.  Every move that [cpu_legal_move] accepts has passed the
    self-check test: on the board with the move applied, [king_check]
    finds the CPU's king not attacked. *)
Theorem cpu_legal_move_keeps_king_safe rnd sr sc er ec piece w w' :
  1 <= Z.abs piece <= 6 ->
  cpu_legal_move rnd sr sc er ec piece w = Some (true, w') ->
  exists b2,
    after_move (board (game w')) sr sc er ec = Some b2
    /\ own_king_attacked (with_game w' (with_board (game w') b2)) (cpu w')
         piece er ec = Some false.
Proof.
  intros Hkind H.
  assert (Hf : forall ok w1,
            cpu_finish sr sc er ec piece ok w1 = Some (true, w') ->
            exists b2,
              after_move (board (game w')) sr sc er ec = Some b2
              /\ own_king_attacked (with_game w' (with_board (game w') b2))
                   (cpu w') piece er ec = Some false).
  { intros ok w1 Hfin. unfold cpu_finish in Hfin. bind_inv Hfin.
    destruct a as [ok1 w2]. bind_inv Hfin. injection Hfin as -> <-.
    assert (ok1 = true) as ->.
    { unfold cpu_not_own_dest in Hbind0. bind_inv Hbind0. bind_inv Hbind0.
      injection Hbind0 as H0. destruct a0; [discriminate|].
      destruct a; [discriminate|]. exact H0. }
    apply guarded_accepts in Hbind as (_ & -> & b2 & Hb & Ha). eauto. }
  destruct (kinds piece Hkind) as [Hp|[Hp|[Hp|[Hp|[Hp|Hp]]]]].
  - rewrite cpu_legal_move_rook in H by exact Hp. cbv zeta in H.
    bind_inv H. eauto.
  - rewrite cpu_legal_move_pawn in H by exact Hp.
    bind_inv H. rename a into direction.
    destruct ((sc =? ec) && (er =? sr + direction)).
    { bind_inv H. bind_inv H. eauto. }
    destruct ((sc =? ec) && (er =? sr + 2 * direction)
              && ((0 <? piece) && (sr =? 1) || (piece <? 0) && (sr =? 6))).
    { bind_inv H. eauto. }
    destruct ((Z.abs (sc - ec) =? 1) && (er =? sr + direction));
      [|discriminate].
    bind_inv H. bind_inv H. bind_inv H. eauto.
  - rewrite cpu_legal_move_knight in H by exact Hp. eauto.
  - rewrite cpu_legal_move_bishop in H by exact Hp. cbv zeta in H.
    bind_inv H. eauto.
  - rewrite cpu_legal_move_queen in H by exact Hp.
    destruct (_ || _) in H; [|discriminate].
    bind_inv H. eauto.
  - rewrite cpu_legal_move_king in H by exact Hp.
    destruct (_ && _) in H; [|discriminate].
    bind_inv H. cbv zeta in H. eauto.
Qed.

(** The knight move b8-c6 of the opening position. *)
Lemma cpu_legal_move_keeps_king_safe_witness :
  exists b2,
    after_move (board (game new_game)) 7 1 5 2 = Some b2
    /\ own_king_attacked (with_game new_game (with_board (game new_game) b2))
         "B" (- KNIGHT) 5 2 = Some false.
Proof.
  destruct (cpu_legal_move 0 7 1 5 2 (- KNIGHT) new_game) as [[[] w']|] eqn:H;
    try (vm_compute in H; discriminate).
  assert (w' = new_game) as Hw.
  { vm_compute in H. injection H as <-. reflexivity. }
  rewrite Hw in H.
  apply (cpu_legal_move_keeps_king_safe 0 7 1 5 2 (- KNIGHT) new_game
           new_game); [unfold KNIGHT; lia|exact H].
Defined.

(** ** Destinations and paths of cpu_legal_move *)

Lemma cpu_finish_accepts sr sc er ec piece ok w w' :
  cpu_finish sr sc er ec piece ok w = Some (true, w') ->
  ok = true /\ w' = w
  /\ forall v, cell (board (game w)) er ec = Some v -> cpu_piece w v = false.
Proof.
  intros H. split; [eapply cpu_finish_true; eauto|].
  split; [eapply cpu_finish_restores; eauto|].
  unfold cpu_finish in H. bind_inv H. destruct a as [ok1 w1].
  apply guarded_restores in Hbind. subst w1.
  bind_inv H. injection H as -> _.
  intros v Hv. unfold cpu_not_own_dest in Hbind.
  rewrite Hv in Hbind. cbn [obind] in Hbind. unfold cpu_piece.
  destruct (is_char (cpu w) "W"), (is_char (cpu w) "B");
    cbn [and_then obind andb orb] in *;
    destruct (0 <? v), (v <? 0); try reflexivity; discriminate.
Qed.

(** X9.  [cpu_legal_move] accepts no move onto a piece of the CPU's
    colour. *)
Theorem cpu_legal_move_spares_own_pieces rnd sr sc er ec piece w w' v :
  1 <= Z.abs piece <= 6 ->
  cell (board (game w)) er ec = Some v ->
  cpu_legal_move rnd sr sc er ec piece w = Some (true, w') ->
  cpu_piece w v = false.
Proof.
  intros Hkind Hv H.
  assert (Hpromo : forall ok w1,
            sr <> er ->
            cpu_promote rnd sr sc er ok w = Some w1 ->
            cpu_finish sr sc er ec piece ok w1 = Some (true, w') ->
            cpu_piece w v = false).
  { intros ok w1 Hne Hp Hf.
    apply cpu_finish_accepts in Hf as (_ & _ & Hown).
    apply cpu_promote_frame in Hp as [->|(_ & b' & Hb' & ->)]; [auto|].
    apply (Hown v). cbn.
    rewrite (set_cell_other _ _ _ _ _ er ec Hb') by congruence. exact Hv. }
  assert (Hfinish : forall ok,
            cpu_finish sr sc er ec piece ok w = Some (true, w') ->
            cpu_piece w v = false).
  { intros ok Hf. apply cpu_finish_accepts in Hf as (_ & _ & Hown). auto. }
  destruct (kinds piece Hkind) as [Hp|[Hp|[Hp|[Hp|[Hp|Hp]]]]].
  - rewrite cpu_legal_move_rook in H by exact Hp. cbv zeta in H.
    bind_inv H. eauto.
  - rewrite cpu_legal_move_pawn in H by exact Hp.
    bind_inv H. rename a into direction.
    apply cpu_pawn_direction in Hbind as [_ Hdir].
    destruct ((sc =? ec) && (er =? sr + direction)) eqn:H1.
    { bind_inv H. bind_inv H. shape_bools.
      eapply Hpromo; [|eassumption|eassumption]; lia. }
    destruct ((sc =? ec) && (er =? sr + 2 * direction)
              && ((0 <? piece) && (sr =? 1) || (piece <? 0) && (sr =? 6)))
      eqn:H2.
    { bind_inv H. eauto. }
    destruct ((Z.abs (sc - ec) =? 1) && (er =? sr + direction)) eqn:H3;
      [|discriminate].
    bind_inv H. bind_inv H. bind_inv H. shape_bools.
    eapply Hpromo; [|eassumption|eassumption]; lia.
  - rewrite cpu_legal_move_knight in H by exact Hp. eauto.
  - rewrite cpu_legal_move_bishop in H by exact Hp. cbv zeta in H.
    bind_inv H. eauto.
  - rewrite cpu_legal_move_queen in H by exact Hp.
    destruct (_ || _) in H; [|discriminate].
    bind_inv H. eauto.
  - rewrite cpu_legal_move_king in H by exact Hp.
    destruct (_ && _) in H; [|discriminate].
    rewrite Hv in H. cbn [obind] in H. cbv zeta in H. eauto.
Qed.

(** On the open board the rook on h6 may take the white pawn on h2. *)
Lemma cpu_legal_move_spares_own_pieces_witness :
  cpu_piece open_board PAWN = false.
Proof.
  destruct (cpu_legal_move 0 5 7 1 7 (- ROOK) open_board) as [[[] w']|] eqn:H;
    try (vm_compute in H; discriminate).
  apply (cpu_legal_move_spares_own_pieces 0 5 7 1 7 (- ROOK) open_board w'
           PAWN); [unfold ROOK; lia|reflexivity|exact H].
Defined.

Lemma cpu_path_loop_true b cont di dj : forall (fuel : nat) (i j : Z),
  cpu_path_loop fuel b cont di dj i j = Some true ->
  forall k : nat,
    (forall k' : nat, (k' <= k)%nat ->
       cont (i + Z.of_nat k' * di) (j + Z.of_nat k' * dj) = true) ->
    cell b (i + Z.of_nat k * di) (j + Z.of_nat k * dj) = Some EMPTY.
Proof.
  induction fuel as [|fuel IH]; intros i j H k Hcont; [discriminate|].
  simpl in H.
  pose proof (Hcont 0%nat ltac:(lia)) as H0.
  rewrite !Z.mul_0_l, !Z.add_0_r in H0. rewrite H0 in H.
  bind_inv H. rename a into v.
  destruct (Z.eqb_spec v EMPTY) as [->|]; [|discriminate].
  cbn [negb] in H.
  destruct k as [|k].
  - rewrite !Z.mul_0_l, !Z.add_0_r. exact Hbind.
  - rewrite <- !step_succ. apply IH; [exact H|].
    intros k' Hk'. rewrite !step_succ. apply Hcont. lia.
Qed.

(** What a successful [cpu_clear_path] has found on the board. *)
Lemma cpu_clear_path_true w sr sc er ec :
  on_line sr sc er ec ->
  cpu_clear_path w sr sc er ec = Some true ->
  forall k, 0 < k < line_length sr sc er ec ->
    vacant (board (game w)) (line_square sr sc er ec k).
Proof.
  intros Hline H k Hk. unfold vacant, line_square, line_length in *.
  cbn [fst snd]. unfold cpu_clear_path in H.
  assert (Hloop : forall cont di dj,
            cpu_path_loop 9 (board (game w)) cont di dj (sr + di) (sc + dj)
            = Some true ->
            di = Z.sgn (er - sr) -> dj = Z.sgn (ec - sc) ->
            (forall k', 0 < k' < Z.max (Z.abs (er - sr)) (Z.abs (ec - sc)) ->
               cont (sr + k' * di) (sc + k' * dj) = true) ->
            cell (board (game w)) (sr + k * Z.sgn (er - sr))
              (sc + k * Z.sgn (ec - sc)) = Some EMPTY).
  { intros cont di dj Hl -> -> Hcont.
    pose proof (cpu_path_loop_true _ _ _ _ _ _ _ Hl (Z.to_nat (k - 1))) as Hc.
    rewrite Z2Nat.id in Hc by lia.
    replace (sr + Z.sgn (er - sr) + (k - 1) * Z.sgn (er - sr))
      with (sr + k * Z.sgn (er - sr)) in Hc by lia.
    replace (sc + Z.sgn (ec - sc) + (k - 1) * Z.sgn (ec - sc))
      with (sc + k * Z.sgn (ec - sc)) in Hc by lia.
    apply Hc. intros k' Hk'. rewrite !step_next. apply Hcont. lia. }
  destruct Hline as [(Hr&Hc&_)|[(Hr&Hc&_)|(Hr&Hc&Hd)]].
  - subst er. rewrite Z.eqb_refl in H. cbn [negb andb] in H.
    destruct (Z.eqb_spec sc ec); [lia|]. cbn [negb] in H.
    bind_inv H. destruct a; [|discriminate].
    rewrite <- (Z.add_0_r sr) in Hbind at 1.
    eapply Hloop; [exact Hbind| | |].
    + rewrite Z.sub_diag. reflexivity.
    + destruct (Z.ltb_spec 0 (ec - sc)); lia.
    + intros k' Hk'. cbn beta. destruct (Z.eqb_spec (sc + k' *
        (if 0 <? ec - sc then 1 else -1)) ec); [|reflexivity].
      exfalso. destruct (Z.ltb_spec 0 (ec - sc)); lia.
  - subst ec. destruct (Z.eqb_spec sr er); [lia|].
    rewrite Z.eqb_refl in H. cbn [negb andb] in H.
    bind_inv H. destruct a; [|discriminate].
    rewrite <- (Z.add_0_r sc) in Hbind at 1.
    eapply Hloop; [exact Hbind| | |].
    + destruct (Z.ltb_spec 0 (er - sr)); lia.
    + rewrite Z.sub_diag. reflexivity.
    + intros k' Hk'. cbn beta. destruct (Z.eqb_spec (sr + k' *
        (if 0 <? er - sr then 1 else -1)) er); [|reflexivity].
      exfalso. destruct (Z.ltb_spec 0 (er - sr)); lia.
  - destruct (Z.eqb_spec sr er); [lia|]. destruct (Z.eqb_spec sc ec); [lia|].
    cbn [negb andb] in H.
    bind_inv H. destruct a; [|discriminate].
    eapply Hloop; [exact Hbind| | |].
    + destruct (Z.ltb_spec 0 (er - sr)); lia.
    + destruct (Z.ltb_spec 0 (ec - sc)); lia.
    + intros k' Hk'. cbn beta.
      destruct (Z.eqb_spec (sr + k' * (if 0 <? er - sr then 1 else -1)) er);
        [exfalso; destruct (Z.ltb_spec 0 (er - sr)); lia|].
      destruct (Z.eqb_spec (sc + k' * (if 0 <? ec - sc then 1 else -1)) ec);
        [exfalso; destruct (Z.ltb_spec 0 (ec - sc)); lia|].
      reflexivity.
Qed.

(** X8.  A rook, bishop, queen, king or pawn move that [cpu_legal_move]
    accepts passes over vacant squares only. *)
Theorem cpu_legal_move_never_jumps rnd sr sc er ec piece w w' :
  1 <= Z.abs piece <= 6 -> Z.abs piece <> KNIGHT ->
  (sr, sc) <> (er, ec) ->
  cpu_legal_move rnd sr sc er ec piece w = Some (true, w') ->
  forall k, 0 < k < line_length sr sc er ec ->
    vacant (board (game w)) (line_square sr sc er ec k).
Proof.
  intros Hkind Hnk Hne H.
  pose proof (cpu_legal_move_shape _ _ _ _ _ _ _ _ Hkind H) as Hshape.
  pose proof (shape_on_line _ _ _ _ _ Hnk Hne Hshape) as Hline.
  assert (Hcp : cpu_clear_path w sr sc er ec = Some true
                \/ line_length sr sc er ec = 1).
  { clear Hshape.
    destruct (kinds piece Hkind) as [Hp|[Hp|[Hp|[Hp|[Hp|Hp]]]]].
    - rewrite cpu_legal_move_rook in H by exact Hp. cbv zeta in H.
      bind_inv H. apply cpu_finish_true in H.
      destruct a; [left; reflexivity|discriminate].
    - rewrite cpu_legal_move_pawn in H by exact Hp.
      bind_inv H. rename a into direction.
      apply cpu_pawn_direction in Hbind as [_ Hdir].
      destruct ((sc =? ec) && (er =? sr + direction)) eqn:H1.
      { right. shape_bools. unfold line_length. lia. }
      destruct ((sc =? ec) && (er =? sr + 2 * direction)
                && ((0 <? piece) && (sr =? 1) || (piece <? 0) && (sr =? 6)))
        eqn:H2.
      { left. bind_inv H. apply cpu_finish_true in H. congruence. }
      destruct ((Z.abs (sc - ec) =? 1) && (er =? sr + direction)) eqn:H3;
        [|discriminate].
      right. shape_bools. unfold line_length. lia.
    - contradiction.
    - rewrite cpu_legal_move_bishop in H by exact Hp. cbv zeta in H.
      bind_inv H. apply cpu_finish_true in H.
      destruct a; [left; reflexivity|discriminate].
    - rewrite cpu_legal_move_queen in H by exact Hp.
      destruct (_ || _) in H; [|discriminate].
      bind_inv H. apply cpu_finish_true in H. left. congruence.
    - rewrite cpu_legal_move_king in H by exact Hp.
      destruct ((Z.abs (sr - er) <=? 1) && (Z.abs (sc - ec) <=? 1)) eqn:Hs1;
        [|discriminate].
      right. shape_bools. unfold line_length, on_line in *. lia. }
  destruct Hcp as [Hcp|H1]; [|intros k Hk; lia].
  apply (cpu_clear_path_true w sr sc er ec Hline Hcp).
Qed.

(** On the open board the rook move a7-a1 passes over a4. *)
Lemma cpu_legal_move_never_jumps_witness :
  vacant (board (game open_board)) (line_square 6 0 0 0 3).
Proof.
  destruct (cpu_legal_move 0 6 0 0 0 (- ROOK) open_board) as [[[] w']|] eqn:H;
    try (vm_compute in H; discriminate).
  apply (cpu_legal_move_never_jumps 0 6 0 0 0 (- ROOK) open_board w').
  - unfold ROOK. lia.
  - unfold ROOK, KNIGHT. lia.
  - discriminate.
  - exact H.
  - vm_compute. split; reflexivity.
Defined.

(** ** king_check and the checkmate detectors *)

Lemma no_enemy_cell color b r c v :
  no_enemy_of color b -> cell b r c = Some v ->
  (is_char color "W" = true -> 0 <= v)
  /\ (is_char color "B" = true -> v <= 0).
Proof.
  intros Hno Hv. apply cell_lookup in Hv as [_ Hv].
  apply list_elem_of_lookup_2, list_elem_of_In in Hv.
  unfold no_enemy_of in Hno. rewrite forallb_forall in Hno.
  specialize (Hno v Hv). unfold enemy_of in Hno.
  destruct (is_char color "W"), (is_char color "B"),
    (Z.ltb_spec v 0), (Z.ltb_spec 0 v); try discriminate;
    split; intros; try discriminate; lia.
Qed.

Lemma first_hit_none {A} (body : A -> option bool) (l : list A) r :
  (forall a x, body a = Some x -> x = false) ->
  first_hit body l = Some r -> r = false.
Proof.
  intros Hbody. induction l as [|a l IH]; simpl; [congruence|].
  intros H. bind_inv H. rewrite (Hbody _ _ Hbind) in H. auto.
Qed.

Lemma ray_walk_none b color dx dy :
  no_enemy_of color b ->
  forall (fuel : nat) x y r,
    ray_walk fuel b color dx dy x y = Some r -> r = false.
Proof.
  intros Hno. induction fuel as [|fuel IH]; intros x y r H; [discriminate|].
  simpl in H. destruct (_ && _); [|congruence].
  bind_inv H. rename a into v.
  destruct (no_enemy_cell _ _ _ _ _ Hno Hbind) as [HW HB].
  destruct (negb (v =? EMPTY)); [|eauto].
  destruct (is_char color "W"), (is_char color "B"),
    (Z.ltb_spec v 0), (Z.ltb_spec 0 v);
    cbn [andb orb] in H; try congruence;
    try (specialize (HW eq_refl)); try (specialize (HB eq_refl)); lia.
Qed.

Lemma holds_enemy_none b color kind x y r :
  no_enemy_of color b -> 0 < kind ->
  holds_enemy b color kind x y = Some r -> r = false.
Proof.
  intros Hno Hk. unfold holds_enemy, or_else, and_then.
  destruct (_ && _); [|congruence].
  destruct (cell b x y) as [v|] eqn:Hv.
  - destruct (no_enemy_cell _ _ _ _ _ Hno Hv) as [HW HB]. cbn [obind].
    destruct (is_char color "W"), (is_char color "B"); cbn [obind].
    + destruct (Z.eqb_spec v (- kind)); [specialize (HW eq_refl); lia|].
      destruct (Z.eqb_spec v kind); [specialize (HB eq_refl); lia|].
      congruence.
    + destruct (Z.eqb_spec v (- kind)); [specialize (HW eq_refl); lia|].
      congruence.
    + destruct (Z.eqb_spec v kind); [specialize (HB eq_refl); lia|].
      congruence.
    + congruence.
  - cbn [obind].
    destruct (is_char color "W"), (is_char color "B"); cbn [obind];
      congruence.
Qed.

Lemma pawn_test_none b color guard pawn_row col r :
  no_enemy_of color b ->
  pawn_test b color guard pawn_row col = Some r -> r = false.
Proof.
  intros Hno. unfold pawn_test, or_else, and_then, PAWN.
  destruct (cell b pawn_row col) as [v|] eqn:Hv.
  - destruct (no_enemy_cell _ _ _ _ _ Hno Hv) as [HW HB]. cbn [obind].
    destruct guard, (is_char color "W"), (is_char color "B"); cbn [obind];
      try congruence;
      repeat match goal with
      | |- context [Z.eqb ?a ?b] => destruct (Z.eqb_spec a b)
      end; try congruence;
      try (specialize (HW eq_refl)); try (specialize (HB eq_refl)); lia.
  - cbn [obind].
    destruct guard, (is_char color "W"), (is_char color "B"); cbn [obind];
      congruence.
Qed.

(** X11.  [king_check] reports a check only if a piece of the other colour
    than the king stands on the board. *)
Theorem king_check_needs_an_enemy w g kr kc color r :
  no_enemy_of color (board g) ->
  king_check w g kr kc color = Some r -> r = false.
Proof.
  intros Hno H. unfold king_check in H.
  bind_inv H.
  assert (a = false) as ->.
  { eapply first_hit_none; [|exact Hbind].
    intros d x. apply ray_walk_none. exact Hno. }
  bind_inv H.
  assert (a = false) as ->.
  { eapply first_hit_none; [|exact Hbind0].
    intros d x. apply holds_enemy_none; [exact Hno|unfold KNIGHT; lia]. }
  bind_inv H. bind_inv H.
  assert (a0 = false) as ->.
  { destruct (_ && _); [|congruence].
    unfold or_else in Hbind2. bind_inv Hbind2.
    match goal with
    | Hp : pawn_test _ _ _ _ _ = Some ?x |- _ =>
        apply pawn_test_none in Hp; [subst x|exact Hno]
    end.
    eapply pawn_test_none; eauto. }
  eapply first_hit_none; [|exact H].
  intros d x. apply holds_enemy_none; [exact Hno|unfold KING; lia].
Qed.

(** White's king among white pieces only. *)
Lemma king_check_needs_an_enemy_witness :
  king_check new_game white_only 0 4 "W" = Some false.
Proof.
  destruct (king_check new_game white_only 0 4 "W") as [r|] eqn:H;
    [|vm_compute in H; discriminate].
  f_equal.
  apply (king_check_needs_an_enemy new_game white_only 0 4 "W" r);
    [reflexivity|exact H].
Defined.

Lemma checkmate_with_no_check p validator w color kr kc :
  turn_color (deref p w) = Some color ->
  king_check w (deref p w) kr kc color = Some false ->
  checkmate_with p validator w = Some (false, w).
Proof.
  intros Hturn Hcheck. unfold checkmate_with. rewrite Hturn. cbn [obind].
  unfold king_check in *. rewrite Hcheck. reflexivity.
Qed.

Lemma checkmate_with_mate p validator w w' color kr kc :
  turn_color (deref p w) = Some color ->
  checkmate_with p validator w = Some (true, w') ->
  king_check w (deref p w) kr kc color = Some true.
Proof.
  intros Hturn H. unfold checkmate_with in H. rewrite Hturn in H.
  cbn [obind] in H. bind_inv H.
  destruct a; [exact Hbind|discriminate].
Qed.

(** X12.  Without a check there is no mate: when [king_check] finds the
    king of the side to move not attacked, [is_checkmate] and
    [cpu_checkmate] answer [false] and leave the game as it is; and they
    answer [true] only for a king that [king_check] finds attacked. *)
Theorem no_check_no_mate p w color kr kc :
  turn_color (deref p w) = Some color ->
  (king_check w (deref p w) kr kc color = Some false ->
   (forall arr arr2, is_checkmate p arr arr2 w = Some (false, w))
   /\ (forall rnd, cpu_checkmate p rnd w = Some (false, w)))
  /\ (forall w',
        (exists arr arr2, is_checkmate p arr arr2 w = Some (true, w'))
        \/ (exists rnd, cpu_checkmate p rnd w = Some (true, w')) ->
        king_check w (deref p w) kr kc color = Some true).
Proof.
  intros Hturn. split.
  - intros Hcheck. split; intros; eapply checkmate_with_no_check; eauto.
  - intros w' [(arr & arr2 & H)|(rnd & H)];
      eapply checkmate_with_mate; eauto.
Qed.

(** The opening position. *)
Lemma no_check_no_mate_witness :
  is_checkmate Live "" "" new_game = Some (false, new_game)
  /\ cpu_checkmate Live zero_draws new_game = Some (false, new_game).
Proof.
  destruct (no_check_no_mate Live new_game "W" 0 4 eq_refl) as [H _].
  destruct (H eq_refl) as [H1 H2].
  split; [apply H1|apply H2].
Defined.

(** ** The states of a game *)



(** ** Piece codes and their text *)

(** X14.  [display_piece] reads the text [piece_to_char] writes for a
    piece back to the code of that piece. *)
Theorem piece_to_char_display_piece piece :
  1 <= Z.abs piece <= 6 ->
  display_piece (piece_to_char piece) = Some piece.
Proof.
  intros H. unfold piece_to_char, PAWN, KNIGHT, BISHOP, ROOK, QUEEN, KING.
  assert (Hcases : Z.abs piece = 1 \/ Z.abs piece = 2 \/ Z.abs piece = 3
                   \/ Z.abs piece = 4 \/ Z.abs piece = 5 \/ Z.abs piece = 6)
    by lia.
  destruct (Z.ltb_spec 0 piece);
    destruct Hcases as [Hc|[Hc|[Hc|[Hc|[Hc|Hc]]]]]; rewrite Hc; cbn;
    f_equal; lia.
Qed.

(** The black queen. *)
Lemma piece_to_char_display_piece_witness :
  display_piece (piece_to_char (- QUEEN)) = Some (- QUEEN).
Proof. apply piece_to_char_display_piece. unfold QUEEN. lia. Defined.

Lemma kind_factor_inv c k :
  kind_factor c = Some k ->
  (c = "P"%char /\ k = 1) \/ (c = "N"%char /\ k = 2)
  \/ (c = "B"%char /\ k = 3) \/ (c = "R"%char /\ k = 4)
  \/ (c = "Q"%char /\ k = 5) \/ (c = "K"%char /\ k = 6).
Proof.
  unfold kind_factor.
  repeat match goal with
  | |- (if is_char c ?d then _ else _) = _ -> _ =>
      destruct (is_char c d) eqn:?H
  end; intros [= <-];
  match goal with H : is_char _ _ = true |- _ => apply is_char_eq in H end;
  auto 10.
Qed.

(** X15.  The other way round: a two-letter text that [display_piece]
    reads as a piece is the text [piece_to_char] writes for that piece. *)
Theorem display_piece_piece_to_char c1 c2 piece :
  display_piece (String c1 (String c2 "")) = Some piece ->
  piece <> 0 ->
  piece_to_char piece = String c1 (String c2 "").
Proof.
  unfold display_piece. cbn [char_at String.get].
  destruct (kind_factor c2) as [k|] eqn:Hk; [|intros [= <-]; contradiction].
  intros H _.
  assert (Hc1 : (c1 = "W"%char /\ piece = k) \/ (c1 = "B"%char /\ piece = - k)).
  { destruct (is_char c1 "W") eqn:HW.
    - apply is_char_eq in HW. injection H as <-. left. split; [auto|lia].
    - destruct (is_char c1 "B") eqn:HB; [|discriminate].
      apply is_char_eq in HB. injection H as <-. right. split; [auto|lia]. }
  apply kind_factor_inv in Hk.
  destruct Hc1 as [[-> ->]|[-> ->]];
    destruct Hk as [[-> ->]|[[-> ->]|[[-> ->]|[[-> ->]|[[-> ->]|[-> ->]]]]]];
    reflexivity.
Qed.

(** The text BN. *)
Lemma display_piece_piece_to_char_witness :
  piece_to_char (- KNIGHT) = "BN"%string.
Proof.
  apply (display_piece_piece_to_char "B" "N" (- KNIGHT));
    [reflexivity|discriminate].
Defined.

(** ** The text of the board *)

Lemma str_take_all s n :
  (String.length s <= n)%nat -> str_take n s = s.
Proof.
  revert n. induction s as [|c s IH]; intros n H; destruct n; simpl in *;
    try reflexivity; try lia.
  rewrite IH by lia. reflexivity.
Qed.

Lemma str_take_app s t : str_take (String.length s) (s ++ t) = s.
Proof.
  induction s as [|c s IH]; simpl; [destruct t|rewrite IH]; reflexivity.
Qed.

Lemma str_take_length s : str_take (String.length s) s = s.
Proof. apply str_take_all. lia. Qed.

Lemma length_append s t :
  String.length (s ++ t) = (String.length s + String.length t)%nat.
Proof.
  induction s as [|c s IH]; simpl; [reflexivity|rewrite IH; reflexivity].
Qed.

(** A write that fits is an append. *)
Lemma snprintf_at_fits size buf out :
  (String.length buf + String.length out < size)%nat ->
  snprintf_at size buf (String.length buf) out
  = Some ((buf ++ out)%string, String.length out).
Proof.
  intros H. unfold snprintf_at.
  destruct (Nat.ltb_spec size (String.length buf)); [lia|].
  destruct (Nat.ltb_spec (String.length buf) size); [|lia].
  destruct (Nat.leb_spec (String.length buf) (String.length buf)); [|lia].
  cbn [andb]. rewrite str_take_length, str_take_all by lia. reflexivity.
Qed.

Lemma piece_str_length v : String.length (piece_str v) = 2%nat.
Proof.
  unfold piece_str, piece_to_char.
  destruct (negb (v =? EMPTY)); [|reflexivity].
  repeat match goal with
  | |- context [if ?c then _ else _] => destruct c
  end; reflexivity.
Qed.

Lemma append_assoc (s t u : string) : ((s ++ t) ++ u = s ++ (t ++ u))%string.
Proof.
  induction s as [|c s IH]; simpl; [reflexivity|rewrite IH; reflexivity].
Qed.

Lemma append_nil_r (s : string) : (s ++ "")%string = s.
Proof.
  induction s as [|c s IH]; simpl; [reflexivity|rewrite IH; reflexivity].
Qed.

Lemma board_line_loop b i : forall (js : list Z) (line : string),
  (forall j, In j js -> exists v, cell b i j = Some v) ->
  (String.length line + 3 * length js < 25)%nat ->
  for_each
    (fun j '(line, line_len) =>
       do v <- cell b i j ;;
       do ' (line', n) <- snprintf_at 25 line line_len (piece_str v ++ " ") ;;
       Some (line', (line_len + n)%nat))
    js (line, String.length line)
  = Some ((line ++ concat_text
                     (map (fun j => match cell b i j with
                                    | Some v => (piece_str v ++ " ")%string
                                    | None => EmptyString
                                    end) js))%string,
          (String.length line + 3 * length js)%nat).
Proof.
  induction js as [|j js IH]; intros line Hcells Hlen.
  - simpl. rewrite append_nil_r, Nat.add_0_r. reflexivity.
  - cbn [for_each]. destruct (Hcells j) as [v Hv]; [left; reflexivity|].
    rewrite Hv. cbn [obind].
    assert (Hout : String.length (piece_str v ++ " ") = 3%nat)
      by (rewrite length_append, piece_str_length; reflexivity).
    cbn [length] in Hlen.
    rewrite snprintf_at_fits by lia. cbn [obind]. rewrite Hout.
    replace (String.length line + 3)%nat
      with (String.length (line ++ (piece_str v ++ " "))%string)
      by (rewrite length_append, Hout; reflexivity).
    rewrite IH.
    + cbn [map concat_text fold_right]. rewrite Hv, append_assoc.
      f_equal. f_equal. rewrite length_append, Hout. cbn [length]. lia.
    + intros j' Hj'. apply Hcells. right. exact Hj'.
    + rewrite length_append, Hout. lia.
Qed.

Lemma concat_text_length (f : Z -> string) (n : nat) (l : list Z) :
  (forall x, In x l -> String.length (f x) = n) ->
  String.length (concat_text (map f l)) = (n * length l)%nat.
Proof.
  induction l as [|x l IH]; intros H; simpl; [lia|].
  rewrite length_append, H, IH by auto using in_cons, in_eq. lia.
Qed.

Lemma board_line_text b i :
  board_wf b -> In i indices ->
  exists n, board_line b i
            = Some (str_take 24 (row_text b i), n)
    /\ String.length (row_text b i) = 25%nat.
Proof.
  intros Hwf Hi.
  assert (Hcells : forall j, In j indices -> exists v, cell b i j = Some v).
  { intros j Hj. apply cell_is_Some; [exact Hwf|].
    apply in_board_iff. auto using In_indices. }
  assert (Hlen : String.length
                   (concat_text
                      (map (fun j => match cell b i j with
                                     | Some v => (piece_str v ++ " ")%string
                                     | None => EmptyString
                                     end) indices)) = 24%nat).
  { rewrite (concat_text_length _ 3); [reflexivity|].
    intros j Hj. destruct (Hcells j Hj) as [v ->].
    rewrite length_append, piece_str_length. reflexivity. }
  unfold board_line, row_text.
  pose proof (board_line_loop b i indices EmptyString Hcells) as Hloop.
  cbn [String.length String.append] in Hloop.
  rewrite Hloop by (simpl; lia).
  eexists. split.
  - rewrite <- Hlen at 1. rewrite str_take_app. reflexivity.
  - rewrite length_append, Hlen. reflexivity.
Qed.

Lemma board_state_loop w : forall (rows : list Z) (message : string),
  board_wf (board (game w)) ->
  (forall i, In i rows -> In i indices) ->
  (String.length message + 25 * length rows < 256)%nat ->
  for_each
    (fun i '(message, msg_len) =>
       do ' (line, _) <- board_line (board (game w)) i ;;
       do ' (message', n) <-
            snprintf_at 256 message msg_len (line ++ String "010" "") ;;
       Some (message', (msg_len + n)%nat))
    rows (message, String.length message)
  = Some ((message
           ++ concat_text (map (row_text (board (game w))) rows))%string,
          (String.length message + 25 * length rows)%nat).
Proof.
  intros rows. induction rows as [|i rows IH]; intros message Hwf Hin Hlen.
  - simpl. rewrite append_nil_r, Nat.add_0_r. reflexivity.
  - cbn [for_each].
    destruct (board_line_text _ i Hwf (Hin i (or_introl eq_refl)))
      as (n & -> & Hrow).
    cbn [obind].
    assert (Hline : (str_take 24 (row_text (board (game w)) i)
                     ++ String "010" "")%string
                    = row_text (board (game w)) i).
    { unfold row_text in *. rewrite length_append in Hrow.
      change (String.length (String "010" "")) with 1%nat in Hrow.
      assert (H24 : String.length
                (concat_text
                   (map (fun j => match cell (board (game w)) i j with
                                  | Some v => (piece_str v ++ " ")%string
                                  | None => EmptyString
                                  end) indices)) = 24%nat) by lia.
      rewrite <- H24 at 1. rewrite str_take_app. reflexivity. }
    rewrite Hline. cbn [length] in Hlen.
    rewrite snprintf_at_fits by lia. cbn [obind]. rewrite Hrow.
    replace (String.length message + 25)%nat
      with (String.length (message ++ row_text (board (game w)) i)%string)
      by (rewrite length_append, Hrow; reflexivity).
    rewrite IH; auto.
    + cbn [map concat_text fold_right]. rewrite append_assoc.
      f_equal. f_equal. rewrite length_append, Hrow. cbn [length]. lia.
    + intros i' Hi'. apply Hin. right. exact Hi'.
    + rewrite length_append, Hrow. lia.
Qed.

Lemma board_state_is_board_text w :
  board_wf (board (game w)) ->
  board_state w = Some (board_text (board (game w)))
  /\ String.length (board_text (board (game w))) = 200%nat.
Proof.
  intros Hwf. split.
  - unfold board_state, board_text.
    pose proof (board_state_loop w indices EmptyString Hwf (fun _ H => H))
      as Hloop.
    cbn [String.length String.append] in Hloop.
    rewrite Hloop by (simpl; lia). reflexivity.
  - unfold board_text. rewrite (concat_text_length _ 25); [reflexivity|].
    intros i Hi. destruct (board_line_text _ i Hwf Hi) as (_ & _ & H).
    exact H.
Qed.

(** X16.  [board_state] never truncates: on a board of 64 squares it
    leaves in [message] the eight rows, each the two letters of its eight
    squares with a space after each and a newline at the end, 200
    characters in all. *)
Theorem board_state_text w :
  board_wf (board (game w)) ->
  board_state w = Some (board_text (board (game w)))
  /\ String.length (board_text (board (game w))) = 200%nat.
Proof. apply board_state_is_board_text. Qed.

(** The opening position. *)
Lemma board_state_text_witness :
  board_state new_game = Some (board_text (board (game new_game)))
  /\ String.length (board_text (board (game new_game))) = 200%nat.
Proof. apply board_state_text. reflexivity. Defined.

Lemma char_at_append s t (k : nat) :
  char_at (s ++ t) k
  = if (k <? String.length s)%nat then char_at s k
    else char_at t (k - String.length s).
Proof.
  revert k. induction s as [|c s IH]; intros k.
  - simpl. rewrite Nat.sub_0_r. reflexivity.
  - destruct k as [|k]; [reflexivity|].
    change (char_at (String c s ++ t) (S k)) with (char_at (s ++ t) k).
    change (char_at (String c s) (S k)) with (char_at s k).
    rewrite IH. reflexivity.
Qed.

Lemma char_at_concat_text (f : Z -> string) (n : nat) : forall (l : list Z),
  (forall x, In x l -> String.length (f x) = n) ->
  forall (k r : nat) (x : Z), l !! k = Some x -> (r < n)%nat ->
    char_at (concat_text (map f l)) (k * n + r) = char_at (f x) r.
Proof.
  induction l as [|y l IH]; intros Hlen k r x Hk Hr; [discriminate|].
  cbn [map concat_text fold_right]. rewrite char_at_append.
  rewrite (Hlen y) by (left; reflexivity).
  destruct k as [|k].
  - injection Hk as <-. simpl.
    destruct (Nat.ltb_spec r n); [reflexivity|lia].
  - destruct (Nat.ltb_spec (S k * n + r) n); [lia|].
    replace (S k * n + r - n)%nat with (k * n + r)%nat by lia.
    apply IH; auto. intros z Hz. apply Hlen. right. exact Hz.
Qed.

Lemma indices_lookup i :
  0 <= i < 8 -> indices !! Z.to_nat i = Some i.
Proof.
  intros H.
  assert (i = 0 \/ i = 1 \/ i = 2 \/ i = 3 \/ i = 4 \/ i = 5 \/ i = 6 \/ i = 7)
    as Hi by lia.
  repeat (destruct Hi as [->|Hi]; [reflexivity|]). subst. reflexivity.
Qed.

(** The characters of the square [(i, j)] in the text of the board. *)
Lemma board_text_square b i j v (r : nat) :
  board_wf b -> in_board i j = true -> cell b i j = Some v -> (r < 2)%nat ->
  char_at (board_text b) (Z.to_nat (25 * i + 3 * j) + r)
  = char_at (piece_str v) r.
Proof.
  intros Hwf Hin Hv Hr. apply in_board_iff in Hin as [Hi Hj].
  assert (Hcells : forall i j, In i indices -> In j indices ->
            exists v, cell b i j = Some v).
  { intros i' j' Hi' Hj'. apply cell_is_Some; [exact Hwf|].
    apply in_board_iff. auto using In_indices. }
  assert (Hsq : forall i' j', In i' indices -> In j' indices ->
            String.length
              match cell b i' j' with
              | Some v => (piece_str v ++ " ")%string
              | None => EmptyString
              end = 3%nat).
  { intros i' j' Hi' Hj'. destruct (Hcells i' j' Hi' Hj') as [v' ->].
    rewrite length_append, piece_str_length. reflexivity. }
  assert (Hrow : forall i', In i' indices ->
            String.length (row_text b i') = 25%nat).
  { intros i' Hi'. unfold row_text.
    rewrite length_append, (concat_text_length _ 3) by auto. reflexivity. }
  unfold board_text.
  replace (Z.to_nat (25 * i + 3 * j) + r)%nat
    with (Z.to_nat i * 25 + (Z.to_nat j * 3 + r))%nat by lia.
  rewrite (char_at_concat_text (row_text b) 25 indices Hrow _ _ i
             (indices_lookup i Hi)) by lia.
  assert (Hiin : In i indices).
  { apply list_elem_of_In. eapply list_elem_of_lookup_2.
    apply indices_lookup. exact Hi. }
  unfold row_text. rewrite char_at_append.
  rewrite (concat_text_length _ 3) by auto.
  change (3 * length indices)%nat with 24%nat.
  destruct (Nat.ltb_spec (Z.to_nat j * 3 + r) 24); [|lia].
  rewrite (char_at_concat_text _ 3 indices
             (fun j' Hj' => Hsq i j' Hiin Hj') _ _ j
             (indices_lookup j Hj)) by lia.
  rewrite Hv, char_at_append, piece_str_length.
  destruct (Nat.ltb_spec r 2); [reflexivity|lia].
Qed.

Lemma display_piece_piece_str v :
  display_piece (piece_str v) = Some (if Z.abs v <=? 6 then v else 0).
Proof.
  unfold piece_str, piece_to_char, EMPTY, PAWN, KNIGHT, BISHOP, ROOK, QUEEN,
    KING.
  destruct (Z.eqb_spec v 0) as [->|Hv]; [reflexivity|]. cbn [negb].
  destruct (Z.leb_spec (Z.abs v) 6).
  - assert (Hcases : Z.abs v = 1 \/ Z.abs v = 2 \/ Z.abs v = 3
                     \/ Z.abs v = 4 \/ Z.abs v = 5 \/ Z.abs v = 6) by lia.
    destruct (Z.ltb_spec 0 v);
      destruct Hcases as [Hc|[Hc|[Hc|[Hc|[Hc|Hc]]]]]; rewrite Hc; cbn;
      f_equal; lia.
  - repeat match goal with
    | |- context [Z.eqb ?a ?b] => destruct (Z.eqb_spec a b); [lia|]
    end. reflexivity.
Qed.

(** X17.  What command 01 prints, [display_piece] reads back: in the text
    [board_state] leaves in [message] the two letters of the square
    [(i, j)] start at offset [25 * i + 3 * j], and [display_piece] maps
    them to the piece code the board holds there (to 0 for an empty
    square or a code that is no piece). *)
Theorem board_state_read_back w i j v :
  board_wf (board (game w)) ->
  in_board i j = true ->
  cell (board (game w)) i j = Some v ->
  exists message,
    board_state w = Some message
    /\ display_piece (str_from (Z.to_nat (25 * i + 3 * j)) message)
       = Some (if Z.abs v <=? 6 then v else 0).
Proof.
  intros Hwf Hin Hv. exists (board_text (board (game w))).
  split; [apply board_state_is_board_text; exact Hwf|].
  rewrite <- display_piece_piece_str.
  unfold display_piece. rewrite !char_at_str_from.
  rewrite (board_text_square _ i j v 0) by auto.
  rewrite (board_text_square _ i j v 1) by auto.
  reflexivity.
Qed.

(** The black queen on d8 of the opening position. *)
Lemma board_state_read_back_witness :
  exists message,
    board_state new_game = Some message
    /\ display_piece (str_from (Z.to_nat (25 * 7 + 3 * 3)) message)
       = Some (- QUEEN).
Proof.
  apply (board_state_read_back new_game 7 3 (- QUEEN)); reflexivity.
Defined.

(** ** dev_read *)

(** X19.  A read that starts within the message asks [copy_to_user] for
    the bytes from the offset to the end of the message, [length] of them
    at most; when the copy succeeds it returns that count and moves the
    offset by it, when the copy fails the offset stays in place; at the
    end of the message the count is 0. *)
Theorem dev_read_within_message size copy_ok length offset :
  0 <= offset <= size -> size < 2 ^ 63 -> 0 <= length < 2 ^ 64 ->
  let n := Z.min length (size - offset) in
  let r := dev_read size copy_ok length offset in
  (forall from count, copied r = Some (from, count) ->
     from = offset /\ count = n /\ from + count <= size)
  /\ (copy_ok = true -> returned r = n /\ offset_after r = offset + n)
  /\ (copy_ok = false -> offset_after r = offset)
  /\ (offset = size -> returned r = 0 \/ returned r = - EFAULT).
Proof.
  intros Ho Hs Hl n r. subst n r. unfold dev_read, to_int64, two64 in *.
  rewrite (Z.mod_small (size - offset)) by lia.
  destruct (Z.ltb_spec (size - offset) length) as [Hlt|Hge];
    [rewrite Z.min_r by lia
    |rewrite Z.min_l by lia; destruct (Z.eqb_spec (size - offset) 0)];
    destruct copy_ok; cbn [returned offset_after copied];
    rewrite ?Z.mod_small by lia;
    repeat match goal with
    | |- context [Z.ltb ?a ?b] => destruct (Z.ltb_spec a b); [|lia]
    end;
    repeat split; intros; try discriminate; try lia;
    match goal with
    | H : Some _ = Some _ |- _ => injection H as <- <-; lia
    end.
Qed.

(** A read of 64 bytes at offset 192 of a message of 200 bytes. *)
Lemma dev_read_within_message_witness :
  returned (dev_read 200 true 64 192) = 8
  /\ offset_after (dev_read 200 true 64 192) = 200.
Proof.
  destruct (dev_read_within_message 200 true 64 192) as (_ & H & _).
  - lia.
  - reflexivity.
  - split; [lia|reflexivity].
  - apply H. reflexivity.
Defined.

(** ** dev_write *)

Lemma str_take_le n : forall s, (String.length (str_take n s) <= n)%nat.
Proof.
  induction n as [|n IH]; intros s; destruct s; simpl; try lia.
  specialize (IH s). lia.
Qed.

Lemma char_at_str_take n : forall s (k : nat),
  (k < n)%nat -> char_at (str_take n s) k = char_at s k.
Proof.
  induction n as [|n IH]; intros s k Hk; [lia|].
  destruct s as [|c s]; [reflexivity|].
  destruct k as [|k]; [reflexivity|].
  change (char_at (str_take n s) k = char_at s k). apply IH. lia.
Qed.

Lemma snprintf_at_bound size buf len out buf' n :
  snprintf_at size buf len out = Some (buf', n) ->
  (String.length buf < size)%nat -> (String.length buf' < size)%nat.
Proof.
  unfold snprintf_at. destruct (size <? len)%nat; [discriminate|].
  destruct (Nat.ltb_spec len size); cbn [andb].
  - destruct (len <=? String.length buf)%nat; intros [= <- _] Hb; [|exact Hb].
    rewrite length_append.
    pose proof (str_take_le len buf).
    pose proof (str_take_le (size - len - 1) out). lia.
  - intros [= <- _] Hb. exact Hb.
Qed.

Lemma for_each_invariant {A S} (P : S -> Prop) (body : A -> S -> option S) :
  (forall a s s', body a s = Some s' -> P s -> P s') ->
  forall l s s', for_each body l s = Some s' -> P s -> P s'.
Proof.
  intros Hbody. induction l as [|a l IH]; intros s s' H Hs; simpl in H.
  - congruence.
  - bind_inv H. eauto.
Qed.

Lemma board_state_bound w text :
  board_state w = Some text -> (String.length text < 256)%nat.
Proof.
  unfold board_state. intros H. bind_inv H. destruct a as [message msg_len].
  injection H as ->.
  apply (for_each_invariant (fun s => (String.length (fst s) < 256)%nat))
    in Hbind; [exact Hbind| |simpl; lia].
  intros i [m l] [m' l'] Hstep Hm. cbn [fst] in *.
  bind_inv Hstep. destruct a as [line n]. bind_inv Hstep.
  destruct a as [m1 n1]. injection Hstep as <- _.
  eapply snprintf_at_bound; eauto.
Qed.

Lemma strcpy_message_fits text w :
  (String.length text < 256)%nat -> message_fits (strcpy_message text w).
Proof. intros H. split; [reflexivity|exact H]. Qed.

Lemma verdict_fits detect d w d' :
  verdict detect d w = Some d' -> message_fits d -> message_fits d'.
Proof.
  unfold verdict. intros H Hd.
  bind_inv H. destruct a as [first w1].
  destruct first; [injection H as <-; apply strcpy_message_fits; simpl; lia|].
  bind_inv H. destruct a as [second w2].
  destruct second; [injection H as <-; apply strcpy_message_fits; simpl; lia|].
  bind_inv H. destruct a as [mate w3].
  destruct mate; injection H as <-;
    [apply strcpy_message_fits; simpl; lia|exact Hd].
Qed.

(** X20.  Every call of [dev_write] that returns leaves [size] equal to
    the length of the text of [message], and that text within the array
    of 256 bytes. *)
Theorem dev_write_keeps_size ext buffer d ret d' :
  message_fits d ->
  dev_write ext buffer d = Some (ret, d') ->
  message_fits d'.
Proof.
  intros Hd H. unfold dev_write in H.
  destruct buffer as [bytes|]; [|injection H as _ <-; exact Hd].
  destruct (is_char _ "0"); [|injection H as _ <-; exact Hd].
  destruct (is_char _ "0");
    [injection H as _ <-; unfold command_00; short_reply|].
  destruct (is_char _ "1").
  { bind_inv H. injection H as _ <-. unfold command_01 in Hbind.
    destruct (negb _); [injection Hbind as <-; short_reply|].
    bind_inv Hbind. apply board_state_bound in Hbind0.
    destruct (checkmate _); injection Hbind as <-; [short_reply|].
    split; [reflexivity|exact Hbind0]. }
  destruct (is_char _ "2").
  { unfold command_02 in H.
    destruct (negb _); [injection H as _ <-; short_reply|].
    destruct (checkmate _); [injection H as _ <-; short_reply|].
    destruct (negb _); [injection H as _ <-; short_reply|].
    destruct (invalid_format _); [injection H as _ <-; short_reply|].
    destruct (negb _); [injection H as _ <-; short_reply|].
    destruct (kind_factor _); [|injection H as _ <-; exact Hd].
    bind_inv H. destruct (negb _); [injection H as _ <-; short_reply|].
    bind_inv H. bind_inv H. injection H as _ <-.
    unfold play in Hbind1. bind_inv Hbind1. destruct a2 as [ok w1].
    destruct ok; [|injection Hbind1 as <-; short_reply].
    bind_inv Hbind1. bind_inv Hbind1.
    eapply verdict_fits; eauto. }
  destruct (is_char _ "3").
  { bind_inv H. injection H as _ <-. unfold command_03 in Hbind.
    destruct (negb _); [injection Hbind as <-; short_reply|].
    destruct (checkmate _); [injection Hbind as <-; short_reply|].
    destruct (negb _); [injection Hbind as <-; short_reply|].
    bind_inv Hbind. eapply verdict_fits; eauto. }
  destruct (is_char _ "4"); [|injection H as _ <-; exact Hd].
  injection H as _ <-. unfold command_04.
  destruct (negb _); [short_reply|]. destruct (checkmate _); [short_reply|].
  destruct (negb _); short_reply.
Qed.

(** Command 01 after command 00. *)
Lemma dev_write_keeps_size_witness :
  exists ret d',
    dev_write e2e4 (Some "01"%string) game_started = Some (ret, d')
    /\ message_fits d'.
Proof.
  destruct (dev_write e2e4 (Some "01"%string) game_started)
    as [[ret d']|] eqn:H; [|vm_compute in H; discriminate].
  exists ret, d'. split; [reflexivity|].
  apply (dev_write_keeps_size e2e4 (Some "01"%string) game_started ret d');
    [|exact H].
  split; [reflexivity|simpl; lia].
Defined.

Lemma char_check_In c : forall s,
  char_check c s = 1 -> In c (list_ascii_of_string s).
Proof.
  induction s as [|d s IH]; simpl; [discriminate|].
  destruct (is_char d Ascii.zero); [discriminate|].
  destruct (is_char c d) eqn:Hcd; [apply is_char_eq in Hcd; auto|auto].
Qed.

Lemma char_check_bool c s : char_check c s = 0 \/ char_check c s = 1.
Proof.
  induction s as [|d s IH]; simpl; [auto|].
  destruct (is_char d Ascii.zero); [auto|]. destruct (is_char c d); auto.
Qed.

(** [char_check] against the file letters and the rank digits bounds the
    coordinates computed from the characters. *)
Lemma char_check_bounds_coordinates file rank :
  char_check file "abcdefgh" <> 0 ->
  char_check rank "12345678" <> 0 ->
  in_board (code rank - code "0" - 1) (code file - code "a") = true.
Proof.
  intros Hf Hr.
  destruct (char_check_bool file "abcdefgh") as [|Hf1]; [contradiction|].
  destruct (char_check_bool rank "12345678") as [|Hr1]; [contradiction|].
  apply char_check_In in Hf1, Hr1. simpl in Hf1, Hr1.
  repeat (destruct Hf1 as [<-|Hf1]; [|]); try contradiction;
    repeat (destruct Hr1 as [<-|Hr1]; [|]); try contradiction; reflexivity.
Qed.

(** X18.  The format test of command 02 bounds the squares: when it
    passes, the rows and columns computed from the characters of
    [start_pos] and [end_pos] name squares of the board. *)
Theorem format_check_bounds_squares s :
  invalid_format s = false ->
  in_board (row_of (start_pos s)) (col_of (start_pos s)) = true
  /\ in_board (row_of (end_pos s)) (col_of (end_pos s)) = true.
Proof.
  unfold invalid_format. rewrite !orb_false_iff, !Z.eqb_neq.
  intros [[[H1 H2] H3] H4].
  split; apply char_check_bounds_coordinates; assumption.
Qed.

(** The buffers of the move e2-e4. *)
Lemma format_check_bounds_squares_witness :
  in_board (row_of "e2") (col_of "e2") = true
  /\ in_board (row_of "e4") (col_of "e4") = true.
Proof.
  apply (format_check_bounds_squares (mk_scanned "WP" "e2" "e4" "" "")).
  reflexivity.
Defined.

(** X21.  A command other than 00 that arrives when no game is
    initialised, after a mate, or, for a move or a resignation, out of
    turn, changes nothing of the game; commands 02, 03 and 04 then reply
    NOGAME, MATE or OOT, in this order of precedence. *)
Theorem refused_command_changes_nothing ext bytes d ret d' :
  let w := globals d in
  let c0 := char_at bytes 0 in
  let c1 := char_at bytes 1 in
  ~ (c0 = "0"%char /\ c1 = "0"%char) ->
  game_init w = false \/ checkmate w = true
  \/ ((c1 = "2"%char \/ c1 = "4"%char) /\ in_turn (player w) w = false)
  \/ (c1 = "3"%char /\ in_turn (cpu w) w = false) ->
  dev_write ext (Some bytes) d = Some (ret, d') ->
  globals d' = w
  /\ (c0 = "0"%char -> c1 = "2"%char \/ c1 = "3"%char \/ c1 = "4"%char ->
      d' = strcpy_message (refusal w) w).
Proof.
  intros w c0 c1 Hnot Hwhy H. subst w c0 c1. unfold dev_write in H.
  rewrite !char_at_str_take in H by lia. unfold refusal.
  destruct (is_char (char_at bytes 0) "0") eqn:H0;
    [|injection H as _ <-; split; [reflexivity|];
      intros Hc; rewrite Hc in H0; discriminate].
  destruct (is_char (char_at bytes 1) "0") eqn:H00.
  { apply is_char_eq in H0, H00. tauto. }
  destruct (is_char (char_at bytes 1) "1") eqn:H1.
  { apply is_char_eq in H1. bind_inv H. injection H as _ <-.
    unfold command_01 in Hbind.
    split; [|intros _ [Hc|[Hc|Hc]]; rewrite Hc in H1; discriminate].
    destruct (negb _); [injection Hbind as <-; reflexivity|].
    bind_inv Hbind.
    destruct (checkmate _); injection Hbind as <-; reflexivity. }
  destruct (is_char (char_at bytes 1) "2") eqn:H2.
  { apply is_char_eq in H2. unfold command_02 in H.
    destruct (game_init (globals d));
      [|injection H as _ <-; split; reflexivity].
    cbn [negb] in *.
    destruct (checkmate (globals d));
      [injection H as _ <-; split; reflexivity|].
    destruct Hwhy as [Hw|[Hw|[[_ Hw]|[Hc _]]]]; try discriminate.
    - rewrite Hw in H. injection H as _ <-. split; reflexivity.
    - rewrite Hc in H2. discriminate. }
  destruct (is_char (char_at bytes 1) "3") eqn:H3.
  { apply is_char_eq in H3. bind_inv H. injection H as _ <-.
    unfold command_03 in Hbind.
    destruct (game_init (globals d));
      [|injection Hbind as <-; split; reflexivity].
    cbn [negb] in *.
    destruct (checkmate (globals d));
      [injection Hbind as <-; split; reflexivity|].
    destruct Hwhy as [Hw|[Hw|[[[Hc|Hc] _]|[_ Hw]]]]; try discriminate.
    - rewrite Hc in H3. discriminate.
    - rewrite Hc in H3. discriminate.
    - rewrite Hw in Hbind. injection Hbind as <-. split; reflexivity. }
  destruct (is_char (char_at bytes 1) "4") eqn:H4.
  { apply is_char_eq in H4. injection H as _ <-. unfold command_04.
    destruct (game_init (globals d)); [|split; reflexivity].
    cbn [negb] in *.
    destruct (checkmate (globals d)); [split; reflexivity|].
    destruct Hwhy as [Hw|[Hw|[[_ Hw]|[Hc _]]]]; try discriminate.
    - rewrite Hw. split; reflexivity.
    - rewrite Hc in H4. discriminate. }
  injection H as _ <-. split; [reflexivity|].
  intros _ [Hc|[Hc|Hc]]; rewrite Hc in *; discriminate.
Qed.

(** Command 03 right after command 00 for White: it is White's turn. *)
Lemma refused_command_changes_nothing_witness :
  exists ret d',
    dev_write e2e4 (Some "03"%string) game_started = Some (ret, d')
    /\ globals d' = globals game_started
    /\ d' = strcpy_message ("OOT" ++ NL) (globals game_started).
Proof.
  destruct (dev_write e2e4 (Some "03"%string) game_started)
    as [[ret d']|] eqn:H; [|vm_compute in H; discriminate].
  exists ret, d'. split; [reflexivity|].
  destruct (refused_command_changes_nothing e2e4 "03" game_started ret d')
    as [Hg Hr].
  - intros [_ [=]].
  - right. right. right. split; reflexivity.
  - exact H.
  - split; [exact Hg|]. apply Hr; [reflexivity|auto].
Defined.

Lemma king_check_player w w' g kr kc color :
  player w = player w' ->
  king_check w g kr kc color = king_check w' g kr kc color.
Proof. intros H. unfold king_check. rewrite H. reflexivity. Qed.

Lemma verdict_no_mate detect d w :
  (forall k, detect k w = Some (false, w)) ->
  verdict detect d w
  = Some (strcpy_message
            ((if check (game w) then "CHECK" else "Move executed") ++ NL) w).
Proof.
  intros H. unfold verdict.
  destruct (check (game w)) eqn:Hc.
  - rewrite H. reflexivity.
  - cbn [obind]. rewrite Hc. cbn [negb]. rewrite H. reflexivity.
Qed.

(** X22.  Command 02 on a move that [legal_move] accepts, made by a side
    whose king [king_check] finds not attacked before the move: the game
    is what [perform_move] makes of it, and the reply is CHECK or Move
    executed according to the check flag [perform_move] has set. *)
Theorem play_reply sr sc er ec piece arr arr2 d w1 w2 color kr kc :
  legal_move sr sc er ec piece arr arr2 (globals d) = Some (true, w1) ->
  turn_color (game w1) = Some color ->
  king_check w1 (game w1) kr kc color = Some false ->
  submit_move sr sc er ec piece arr arr2 (globals d) = Some (true, w2) ->
  play sr sc er ec piece arr arr2 d
  = Some (strcpy_message
            ((if check (game w2) then "CHECK" else "Move executed") ++ NL)
            w2).
Proof.
  intros Hlegal Hturn Hcheck Hmove. unfold play. unfold submit_move in Hmove.
  rewrite Hlegal in *. cbn [obind] in *.
  bind_inv Hmove. bind_inv Hmove. injection Hmove as ->.
  cbn [obind]. rewrite Hbind0. cbn [obind].
  apply verdict_no_mate. intros _.
  apply (checkmate_with_no_check _ _ _ color kr kc); [exact Hturn|].
  cbn [deref].
  rewrite (king_check_player w2 w1); [exact Hcheck|].
  apply perform_move_frame in Hbind0. tauto.
Qed.

(** The move e2-e4 after command 00 for White. *)
Lemma play_reply_witness :
  exists w2,
    submit_move 1 4 3 4 PAWN "" "" (globals game_started) = Some (true, w2)
    /\ play 1 4 3 4 PAWN "" "" game_started
       = Some (strcpy_message ("Move executed" ++ NL) w2).
Proof.
  destruct (submit_move 1 4 3 4 PAWN "" "" (globals game_started))
    as [[[] w2]|] eqn:H; try (vm_compute in H; discriminate).
  exists w2. split; [reflexivity|].
  assert (Hc : check (game w2) = false).
  { vm_compute in H. injection H as <-. reflexivity. }
  rewrite (play_reply 1 4 3 4 PAWN "" "" game_started
             (globals game_started) w2 "W" 0 4);
    [rewrite Hc; reflexivity|reflexivity|reflexivity|reflexivity|exact H].
Defined.

(** X23.  Command 03 in turn: when, after the move [cpu_move] has made,
    [king_check] finds the king of the side to move not attacked, the
    game is as [cpu_move] left it and the reply is CHECK or Move executed
    according to the check flag. *)
Theorem command_03_reply ext d w1 color kr kc :
  let w := globals d in
  game_init w = true -> checkmate w = false -> in_turn (cpu w) w = true ->
  cpu_move Live (draws ext 0%nat) (move_draw ext) w = Some w1 ->
  turn_color (game w1) = Some color ->
  king_check w1 (game w1) kr kc color = Some false ->
  command_03 ext d
  = Some (strcpy_message
            ((if check (game w1) then "CHECK" else "Move executed") ++ NL)
            w1).
Proof.
  intros w Hinit Hmate Hturn Hmove Hcolor Hcheck. subst w.
  unfold command_03. rewrite Hinit, Hmate, Hturn, Hmove. cbn [negb obind].
  apply verdict_no_mate. intros k.
  apply (checkmate_with_no_check _ _ _ color kr kc); assumption.
Qed.

(** The CPU's reply to 1. e4. *)
Lemma command_03_reply_witness :
  exists w1,
    cpu_move Live zero_draws 0 (globals after_e4) = Some w1
    /\ command_03 e2e4 after_e4
       = Some (strcpy_message ("Move executed" ++ NL) w1).
Proof.
  destruct (cpu_move Live zero_draws 0 (globals after_e4)) as [w1|] eqn:H;
    [|vm_compute in H; discriminate].
  exists w1. split; [reflexivity|].
  assert (Hw : check (game w1) = false
               /\ turn_color (game w1) = Some "W"%char
               /\ king_check w1 (game w1) 0 4 "W" = Some false).
  { vm_compute in H. injection H as <-.
    repeat split; vm_compute; reflexivity. }
  destruct Hw as (Hc & Ht & Hk).
  rewrite (command_03_reply e2e4 after_e4 w1 "W" 0 4).
  - rewrite Hc. reflexivity.
  - vm_compute. reflexivity.
  - vm_compute. reflexivity.
  - vm_compute. reflexivity.
  - exact H.
  - exact Ht.
  - exact Hk.
Defined.
